(** * UiAuto: the execution orchestrator and the authenticated gateway client

  A shallow embedding of
  - [server/lib/custom-llm-client.ts]  (module [Gateway]),
  - [server/lib/workflow-executor.ts]  (module [Executor]),
  - the in-memory store [MemStorage]    (module [Storage]),
  - the [POST /api/workflows/:id/execute] handler (module [Routes]),
  followed by the properties of the specification that were checked
  against them. *)

From stdpp Require Import base list strings gmap pretty.
From Stdlib Require Import ZArith Lia Sorted.
From Stdlib Require Import Floats.PrimFloat Floats.SpecFloat Floats.FloatOps.

Set Warnings "-register-all,-inexact-float".
Open Scope Z_scope.

(* ================================================================== *)
(** * JavaScript values                                                 *)
(* ================================================================== *)

Module Js.

(** The fragment of JavaScript values that flows through the
    orchestrator: what JSON can carry, and [undefined].  Numbers are the
    integral ones, [0] the only falsy one among them; arithmetic on them
    is that of the source as long as it stays among the safe integers
    (see [safe_integer]). *)
Inductive JsValue : Type :=
| JUndefined
| JNull
| JBool (b : bool)
| JNum (n : Z)
| JStr (s : string)
| JArr (items : list JsValue)
| JObj (fields : list (string * JsValue)).

(** [ToBoolean]. *)
Definition truthy (v : JsValue) : bool :=
  match v with
  | JUndefined | JNull => false
  | JBool b => b
  | JNum n => negb (n =? 0)
  | JStr s => negb (String.eqb s "")
  | JArr _ | JObj _ => true
  end.

(** [a || b]. *)
Definition js_or (a b : JsValue) : JsValue := if truthy a then a else b.

(** A value is absent when it is [undefined] or [null]. *)
Definition absent (v : JsValue) : bool :=
  match v with JUndefined | JNull => true | _ => false end.

(** [v === null]. *)
Definition is_null (v : JsValue) : bool :=
  match v with JNull => true | _ => false end.

Fixpoint assoc (k : string) (fields : list (string * JsValue)) : JsValue :=
  match fields with
  | [] => JUndefined
  | (k', v) :: rest => if String.eqb k k' then v else assoc k rest
  end.

(** [v?.k]: property read with optional chaining. *)
Definition js_get_opt (v : JsValue) (k : string) : JsValue :=
  match v with
  | JObj fields => assoc k fields
  | _ => JUndefined
  end.

(** [v?.[i]]. *)
Definition js_index_opt (v : JsValue) (i : nat) : JsValue :=
  match v with
  | JArr items => nth i items JUndefined
  | JStr s => match String.get i s with
              | Some c => JStr (String c EmptyString)
              | None => JUndefined
              end
  | _ => JUndefined
  end.

(** [Number.isSafeInteger]: the integers a double holds exactly, with
    their neighbours. *)
Definition safe_integer (n : Z) : Prop := - 2 ^ 53 < n < 2 ^ 53.

(** The string [ToString] makes of a value, when it makes one (see
    [ToString] below). *)
Fixpoint js_to_string (v : JsValue) : string :=
  match v with
  | JUndefined => "undefined"
  | JNull => "null"
  | JBool true => "true"
  | JBool false => "false"
  | JNum n => pretty n
  | JStr s => s
  | JArr items =>
      (fix join (l : list JsValue) : string :=
         match l with
         | [] => ""
         | x :: rest =>
             (if absent x then "" else js_to_string x) +:+
             match rest with [] => "" | _ => "," +:+ join rest end
         end) items
  | JObj _ => "[object Object]"
  end.

(** An [Error] object: what the collaborators reject with. *)
Record JsError : Type := mkError { name : string; message : string }.

Definition Error (msg : string) : JsError := mkError "Error" msg.
Definition TypeError (msg : string) : JsError := mkError "TypeError" msg.

(** [Error.prototype.toString]. *)
Definition error_to_string (e : JsError) : string :=
  if String.eqb (name e) "" then message e
  else if String.eqb (message e) "" then name e
  else name e +:+ ": " +:+ message e.

(** [haystack.includes(needle)]. *)
Fixpoint includes (needle haystack : string) : bool :=
  String.prefix needle haystack ||
  match haystack with
  | EmptyString => false
  | String _ rest => includes needle rest
  end.

(** The outcome of a promise: fulfilled with a value or rejected. *)
Definition Result (A : Type) : Type := A + JsError.

(** Where the conversion of a value to a primitive throws.  An object
    with a property [toString] of its own has lost the inherited
    method: no value of the fragment is callable, and the [valueOf] the
    conversion then falls back on hands the object back.  An array is
    converted by joining the conversions of its elements. *)
Fixpoint refuses_ToString (v : JsValue) : bool :=
  match v with
  | JObj fields => existsb (fun field => String.eqb field.1 "toString") fields
  | JArr items => existsb refuses_ToString items
  | _ => false
  end.

Definition cannot_convert : JsError :=
  TypeError "Cannot convert object to primitive value".

(** [ToString], as a template literal applies it to a substitution. *)
Definition ToString (v : JsValue) : Result string :=
  if refuses_ToString v then inr cannot_convert else inl (js_to_string v).

(** The double nearest to an integer. *)
Definition of_Z (n : Z) : float := SF2Prim (binary_normalize prec emax n 0 false).

(** What a field that starts at [0] and is only ever changed by [+=]
    holds: a number, [NaN], or, once a string went in, a string. *)
Inductive Total : Type :=
| total_number (n : Z)
| total_NaN
| total_text (s : string).

Definition total_to_string (t : Total) : string :=
  match t with
  | total_number n => pretty n
  | total_NaN => "NaN"
  | total_text s => s
  end.

(** [total + count], the sum a [total += count] assigns: the operands
    are converted to primitives, which is where it may throw; strings
    are concatenated, everything else is added up as numbers.  The sum
    of two integers is that of the doubles as long as it is a safe
    integer. *)
Definition plus (total : Total) (count : JsValue) : Result Total :=
  if refuses_ToString count then inr cannot_convert
  else
    inl match count with
        | JStr _ | JArr _ | JObj _ =>
            total_text (total_to_string total +:+ js_to_string count)
        | JUndefined | JNull | JBool _ | JNum _ =>
            match total with
            | total_text s => total_text (s +:+ js_to_string count)
            | total_NaN => total_NaN
            | total_number n =>
                match count with
                | JNum m => total_number (n + m)
                | JBool true => total_number (n + 1)
                | JUndefined => total_NaN
                | _ => total_number n
                end
            end
        end.

End Js.
Import Js.

(* ================================================================== *)
(** * shared/schema.ts                                                  *)
(* ================================================================== *)

Module Schema.

Inductive StepType : Type :=
| act | extract | observe | navigate | wait | screenshot | scroll | agent
| unknown (tag : string).   (* what the [default] arm of the dispatcher sees *)

Definition step_type_name (t : StepType) : string :=
  match t with
  | act => "act" | extract => "extract" | observe => "observe"
  | navigate => "navigate" | wait => "wait" | screenshot => "screenshot"
  | scroll => "scroll" | agent => "agent" | unknown tag => tag
  end.

Record AutomationStep : Type := mkStep {
  id : string;
  type : StepType;
  description : string;
  config : list (string * JsValue);
  order : Z;
}.

Inductive ExecutionMode : Type := sequential | parallel.

Record Viewport : Type := { width : Z; height : Z }.

Record BrowserConfig : Type := {
  headless : bool;
  viewport : option Viewport;
  userAgent : option string;
}.

Record Workflow : Type := mkWorkflow {
  wf_id : string;
  wf_name : string;
  steps : list AutomationStep;
  executionMode : ExecutionMode;
  browserConfig : option BrowserConfig;
}.

Inductive Level : Type := lvl_info | lvl_success | lvl_warning | lvl_error.

Record LogEntry : Type := mkLog {
  timestamp : Z;           (* the clock reading the ISO string is made of *)
  level : Level;
  category : string;
  log_message : string;
}.

Record TokenUsage : Type := mkUsage {
  promptTokens : Total;
  completionTokens : Total;
  totalTokens : Total;
  estimatedCost : float;   (* a double, as every number of the source *)
}.

(** [{ promptTokens: 0, completionTokens: 0, totalTokens: 0, estimatedCost: 0 }] *)
Definition no_usage : TokenUsage :=
  mkUsage (total_number 0) (total_number 0) (total_number 0) 0%float.

Inductive Status : Type := queued | running | completed | failed | cancelled.

Record Execution : Type := mkExecution {
  ex_id : string;
  workflowId : string;
  status : Status;
  ex_logs : list LogEntry;
  results : JsValue;
  ex_error : option string;
  ex_tokenUsage : option TokenUsage;
  startedAt : option Z;
  completedAt : option Z;
  duration : option Z;
}.

(** [wsMessageSchema]: what travels on the Socket.IO channel. *)
Inductive WsMessage : Type :=
| execution_started (executionId workflowId : string)
| execution_log (executionId : string) (log : LogEntry)
| execution_progress (executionId : string) (currentStep totalSteps : nat)
                     (stepDescription : string)
| execution_completed (executionId : string) (results : JsValue) (duration : Z)
| execution_failed (executionId : string) (error : string).

#[global] Instance Level_eq_dec : EqDecision Level.
Proof. solve_decision. Defined.
#[global] Instance Status_eq_dec : EqDecision Status.
Proof. solve_decision. Defined.

End Schema.
Import Schema.

(* ================================================================== *)
(** * server/lib/custom-llm-client.ts                                   *)
(* ================================================================== *)

Module Gateway.

(** The [usage] of a formatted response; each count is whatever the
    reply carried there, or [0]. *)
Record Usage : Type := {
  prompt_tokens : JsValue;
  completion_tokens : JsValue;
  total_tokens : JsValue;
}.

Record Message : Type := {
  role : string;
  content : JsValue;
  tool_calls : option (list JsValue);
}.

Record Choice : Type := {
  index : Z;
  msg : Message;
  finish_reason : JsValue;
}.

Record LLMResponse : Type := {
  resp_id : JsValue;
  object : string;
  created : Z;
  model : string;
  choices : list Choice;
  usage : Usage;
}.

(** What [fetch_token.py] printed, once parsed. *)
Record TokenResponse : Type := {
  access_token : string;
  tr_baseURL : option string;
}.

(** How one HTTPS request ends. *)
Inductive NetReply : Type :=
| Response (statusCode : Z) (responseData : string)
| RequestError (err : JsError).    (* [req.on("error")], or [new URL] threw *)

(** The outside of the client: the token script, the network, the
    JSON parser and the clock, each answering its n-th use. *)
Record World : Type := {
  token_script : nat -> Result TokenResponse;
  network : nat -> NetReply;
  JSON_parse : string -> option JsValue;
  Date_now : nat -> Z;
}.

(** The client's fields, with the number of token fetches and of
    network requests made so far. *)
Record Client : Type := mkClient {
  actualModelName : string;
  oauthToken : option string;
  baseURL : option string;
  fetches : nat;
  requests : nat;
}.

Definition new_client (modelName : string) : Client :=
  mkClient modelName None None 0 0.

Definition set_token (tok : option string) (c : Client) : Client :=
  mkClient (actualModelName c) tok (baseURL c) (fetches c) (requests c).

Definition set_baseURL (u : option string) (c : Client) : Client :=
  mkClient (actualModelName c) (oauthToken c) u (fetches c) (requests c).

(** [!this.oauthToken] *)
Definition no_token (c : Client) : bool :=
  match oauthToken c with
  | None => true
  | Some t => String.eqb t ""
  end.

Section WithWorld.
Variable w : World.

Definition fetchOAuthConfig (c : Client) : Client * Result TokenResponse :=
  (mkClient (actualModelName c) (oauthToken c) (baseURL c)
            (S (fetches c)) (requests c),
   token_script w (fetches c)).

Definition makeRequest (c : Client) : Client * Result JsValue :=
  let c' := mkClient (actualModelName c) (oauthToken c) (baseURL c)
                     (fetches c) (S (requests c)) in
  match network w (requests c) with
  | Response statusCode responseData =>
      if negb (statusCode =? 0) && (200 <=? statusCode) && (statusCode <? 300) then
        match JSON_parse w responseData with
        | Some data => (c', inl data)
        | None => (c', inr (Error ("Failed to parse response: " +:+ responseData)))
        end
      else if statusCode =? 401 then
        (set_token None c',
         inr (Error ("Unauthorized – token expired or invalid: " +:+ responseData)))
      else
        (c', inr (Error ("API request failed with status " +:+ pretty statusCode
                         +:+ ": " +:+ responseData)))
  | RequestError err => (c', inr err)
  end.

(** [data?.usage?.f || 0] *)
Definition usage_field (data : JsValue) (f : string) : JsValue :=
  js_or (js_get_opt (js_get_opt data "usage") f) (JNum 0).

(** The body of the [try] after [makeRequest] resolved. *)
Definition format_response (c : Client) (data : JsValue) : Result LLMResponse :=
  let first := js_index_opt (js_get_opt data "choices") 0 in
  let message := js_get_opt first "message" in
  let content := js_get_opt message "content" in
  if negb (truthy content) && absent data then
    inr (TypeError ("Cannot read properties of " +:+ js_to_string data
                    +:+ " (reading 'content')"))
  else
    let messageContent := js_or (js_or content (js_get_opt data "content")) (JStr "") in
    let toolCalls :=
      match js_get_opt message "tool_calls" with
      | JArr (t :: ts) => t :: ts
      | _ => []
      end in
    inl {| resp_id := js_or (js_get_opt data "id")
                            (JStr ("custom-" +:+ pretty (Date_now w (requests c))));
           object := "chat.completion";
           created := Date_now w (requests c) / 1000;
           model := actualModelName c;
           choices :=
             [ {| index := 0;
                  msg := {| role := "assistant";
                            content := messageContent;
                            tool_calls := match toolCalls with
                                          | [] => None
                                          | _ => Some toolCalls
                                          end |};
                  finish_reason := js_or (js_get_opt first "finish_reason") (JStr "stop") |} ];
           usage := {| prompt_tokens := usage_field data "prompt_tokens";
                       completion_tokens := usage_field data "completion_tokens";
                       total_tokens := usage_field data "total_tokens" |} |}.

(** One pass through the [try] block of the loop: the request, then
    the normalisation of what it returned. *)
Definition attempt (c : Client) : Client * Result LLMResponse :=
  let (c1, reply) := makeRequest c in
  match reply with
  | inl data => (c1, format_response c1 data)
  | inr e => (c1, inr e)
  end.

(** [while (retries > 0) { try { ... } catch (error) { ... } }
     throw new Error('Max retries exceeded')] *)
Fixpoint retry_loop (retries : nat) (c : Client) : Client * Result LLMResponse :=
  match retries with
  | O => (c, inr (Error "Max retries exceeded"))
  | S retries' =>
      let (c1, outcome) := attempt c in
      match outcome with
      | inl formattedResponse => (c1, inl formattedResponse)
      | inr error =>
          if includes "Unauthorized" (message error) then
            (* retries--; if (retries === 0) throw error; *)
            match retries' with
            | O => (c1, inr error)
            | S _ =>
                let (c2, tokenResponse) := fetchOAuthConfig c1 in
                match tokenResponse with
                | inl t => retry_loop retries' (set_token (Some (access_token t)) c2)
                | inr tokenError => (c2, inr tokenError)
                end
            end
          else
            (* if (retries <= 0) throw error; retries--; *)
            if (retries <=? 0)%nat then (c1, inr error)
            else retry_loop retries' c1
      end
  end.

(** [if (!this.oauthToken) { try { ... } catch (err) { ...; throw err } }]:
    the token is fetched when the client holds none, and a failure of that
    fetch fails the call. *)
Definition ensure_token (c : Client) : Client * Result unit :=
  if no_token c then
    let (c1, tokenResponse) := fetchOAuthConfig c in
    match tokenResponse with
    | inl t =>
        let c2 := set_token (Some (access_token t)) c1 in
        let c3 := match tr_baseURL t with
                  | Some u => if String.eqb u "" then c2 else set_baseURL (Some u) c2
                  | None => c2
                  end in
        (c3, inl tt)
    | inr err => (c1, inr err)
    end
  else (c, inl tt).

Definition createChatCompletion (c : Client) : Client * Result LLMResponse :=
  let retries := 3%nat in
  let (c0, ready) := ensure_token c in
  match ready with
  | inl _ => retry_loop retries c0
  | inr err => (c0, inr err)
  end.

End WithWorld.

End Gateway.

(* ================================================================== *)
(** * server/lib/workflow-executor.ts                                   *)
(* ================================================================== *)

Module Executor.

(** ** The outside of the executor *)

(** The methods of the automation capability a step may call. *)
Inductive Call : Type :=
| page_goto (url : JsValue)
| stagehand_act (action : JsValue)
| stagehand_extract (instruction : JsValue) (schema : option JsValue)
| stagehand_observe (instruction : JsValue)
| stagehand_agent (instruction : JsValue)
| page_waitForSelector (selector timeout : JsValue)
| setTimeout (duration : JsValue)
| page_screenshot (path fullPage : JsValue)
| page_evaluate (amount direction : JsValue).

(** What the executor does to its collaborators, in program order.  The
    last two constructors are ghost marks: entry into [cleanup], and the
    arrival of a gateway response with its usage counts. *)
Inductive Effect : Type :=
| io_emit (m : WsMessage)
| persistLogsToStorage
| new_Stagehand (headless : bool)
| stagehand_init
| setViewportSize (width height : Z)
| setUserAgent (ua : string)
| call (position : nat) (c : Call)
| stagehand_close
| entered_cleanup
| gateway_usage (u : Gateway.Usage).

(** How the capability answers the one call of a step: the completions
    it asked of [llmClient] meanwhile, then its own outcome. *)
Record Reply : Type := {
  completions : list (Result Gateway.LLMResponse);
  answer : Result JsValue;
}.

(** The collaborators of one run.  [None] in the session operations
    means that the operation succeeded. *)
Record World : Type := {
  Date_now : nat -> Z;                   (* the executor's n-th reading of the clock *)
  screenshot_clock : nat -> Z;           (* the reading a step takes to name its screenshot *)
  construct_fails : option JsError;      (* [new Stagehand(...)] *)
  init_fails : option JsError;           (* [stagehand.init()] *)
  setViewportSize_fails : option JsError;
  setUserAgent_fails : option JsError;
  capability : nat -> Reply;             (* by position of the calling step *)
  close_fails : option JsError;          (* [stagehand.close()] *)
  JSON_parse : string -> Result JsValue;
  toFixed2 : Z -> string;                (* [(ms / 1000).toFixed(2)] *)
  Number_of_string : string -> float;    (* the number a string converts to *)
}.

(** ** The executor's fields *)

Record Stagehand : Type := { sh_headless : bool }.

Record State : Type := mkState {
  stagehand : option Stagehand;
  logs : list LogEntry;
  startTime : Z;
  tokenUsage : TokenUsage;
  readings : nat;            (* clock readings made so far *)
  wire : list Effect;        (* effects on the collaborators so far *)
}.

Definition fresh : State :=
  mkState None [] 0 no_usage 0 [].

(** The value [execute] resolves to.  In the source [logs] and
    [tokenUsage] are the executor's own array and object; the record
    carries what they hold when the promise resolves. *)
Record ExecResult : Type := {
  res_results : JsValue;
  res_logs : list LogEntry;
  res_duration : Z;
  res_tokenUsage : TokenUsage;
}.

(** An element of the [results] array. *)
Record Entry : Type := { step : string; result : JsValue }.

Definition entry_value (e : Entry) : JsValue :=
  JObj [("step", JStr (step e)); ("result", result e)].

(** ** Asynchronous code *)

(** The synchronous assignments of the class. *)
Inductive Op : Type :=
| op_addLog (level : Level) (category message : string)
| op_effect (e : Effect)
| op_usage (u : Gateway.Usage)
| op_stagehand (h : option Stagehand)
| op_startTime
| op_tick.

(** An [async] body: synchronous operations, reads of [this], and the
    points where it suspends. *)
Inductive Proc (A : Type) : Type :=
| Ret (a : A)
| Throw (e : JsError)
| Do (o : Op) (k : Proc A)
| Get (k : State -> Proc A)
| Await (k : Proc A).

Arguments Ret {A} a.
Arguments Throw {A} e.
Arguments Do {A} o k.
Arguments Get {A} k.
Arguments Await {A} k.

(** Continue with [k] once [p] has settled either way. *)
Fixpoint settle {A B} (p : Proc A) (k : Result A -> Proc B) : Proc B :=
  match p with
  | Ret a => k (inl a)
  | Throw e => k (inr e)
  | Do o q => Do o (settle q k)
  | Get q => Get (fun s => settle (q s) k)
  | Await q => Await (settle q k)
  end.

Definition of_result {A} (r : Result A) : Proc A :=
  match r with inl a => Ret a | inr e => Throw e end.

Definition bind {A B} (p : Proc A) (f : A -> Proc B) : Proc B :=
  settle p (fun r => match r with inl a => f a | inr e => Throw e end).

(** [try { p } catch (error) { h error }] *)
Definition try_catch {A} (p : Proc A) (h : JsError -> Proc A) : Proc A :=
  settle p (fun r => match r with inl a => Ret a | inr e => h e end).

(** [await p]: the caller resumes one turn after [p] has settled. *)
Definition await {A} (p : Proc A) : Proc A :=
  settle p (fun r => Await (of_result r)).

Declare Scope proc_scope.
Delimit Scope proc_scope with proc.
Notation "'let!' x := p 'in' q" := (bind p (fun x => q))
  (at level 10, x name, p at level 100, q at level 200, only parsing) : proc_scope.
Notation "p ;; q" := (bind p (fun _ => q))
  (at level 100, q at level 200, right associativity, only parsing) : proc_scope.

Section WithWorld.
Variable w : World.
Variable executionId : string.

(** [ToNumber], on a value whose conversion to a primitive does not
    throw: an object or an array goes through its string. *)
Definition ToNumber (v : JsValue) : float :=
  match v with
  | JUndefined => PrimFloat.nan
  | JNull => 0%float
  | JBool b => if b then 1%float else 0%float
  | JNum n => of_Z n
  | JStr s => Number_of_string w s
  | JArr _ | JObj _ => Number_of_string w (js_to_string v)
  end.

(** [(usage.prompt_tokens / 1000) * 0.03 + (usage.completion_tokens / 1000) * 0.06],
    in the arithmetic of doubles. *)
Definition cost_of (u : Gateway.Usage) : float :=
  PrimFloat.add
    (PrimFloat.mul (PrimFloat.div (ToNumber (Gateway.prompt_tokens u)) 1000%float) 0.03%float)
    (PrimFloat.mul (PrimFloat.div (ToNumber (Gateway.completion_tokens u)) 1000%float)
                   0.06%float).

(** Lines 94-100: the running totals take one response in, by four
    assignments in a row; the first that throws leaves the later ones
    undone.  ([response.usage] is an object, so the [if] is taken.) *)
Definition track (u : Gateway.Usage) (t : TokenUsage) : TokenUsage * Result unit :=
  match plus (promptTokens t) (Gateway.prompt_tokens u) with
  | inr e => (t, inr e)
  | inl p =>
      match plus (completionTokens t) (Gateway.completion_tokens u) with
      | inr e => (mkUsage p (completionTokens t) (totalTokens t) (estimatedCost t), inr e)
      | inl c =>
          match plus (totalTokens t) (Gateway.total_tokens u) with
          | inr e => (mkUsage p c (totalTokens t) (estimatedCost t), inr e)
          | inl n => (mkUsage p c n (PrimFloat.add (estimatedCost t) (cost_of u)), inl tt)
          end
      end
  end.

(** Whether the four lines throw: it depends on the counts alone. *)
Definition tracking (u : Gateway.Usage) : Result unit := (track u no_usage).2.

Definition apply_op (o : Op) (s : State) : State :=
  match o with
  | op_addLog level category message =>
      let log := mkLog (Date_now w (readings s)) level category message in
      mkState (stagehand s) (logs s ++ [log]) (startTime s) (tokenUsage s)
              (S (readings s))
              (wire s ++ [io_emit (execution_log executionId log); persistLogsToStorage])
  | op_effect e =>
      mkState (stagehand s) (logs s) (startTime s) (tokenUsage s) (readings s)
              (wire s ++ [e])
  | op_usage u =>
      mkState (stagehand s) (logs s) (startTime s) (track u (tokenUsage s)).1
              (readings s) (wire s ++ [gateway_usage u])
  | op_stagehand h =>
      mkState h (logs s) (startTime s) (tokenUsage s) (readings s) (wire s)
  | op_startTime =>
      mkState (stagehand s) (logs s) (Date_now w (readings s)) (tokenUsage s)
              (S (readings s)) (wire s)
  | op_tick =>
      mkState (stagehand s) (logs s) (startTime s) (tokenUsage s)
              (S (readings s)) (wire s)
  end.

(** Running an [async] body on its own, to the end. *)
Fixpoint run {A} (p : Proc A) (s : State) : State * Result A :=
  match p with
  | Ret a => (s, inl a)
  | Throw e => (s, inr e)
  | Do o k => run k (apply_op o s)
  | Get k => run (k s) s
  | Await k => run k s
  end.

(** Running it up to its next suspension. *)
Fixpoint advance {A} (p : Proc A) (s : State) : State * Proc A :=
  match p with
  | Ret _ | Throw _ => (s, p)
  | Do o k => advance k (apply_op o s)
  | Get k => advance (k s) s
  | Await k => (s, k)
  end.

(** [ps.map(p => p())]: each body starts at once and runs to its first
    suspension. *)
Fixpoint launch {A} (ps : list (Proc A)) (s : State) : State * list (Proc A) :=
  match ps with
  | [] => (s, [])
  | p :: rest =>
      let (s1, p') := advance p s in
      let (s2, rest') := launch rest s1 in
      (s2, p' :: rest')
  end.

(** The event loop resumes the suspended bodies in the order the
    schedule names them. *)
Fixpoint resume {A} (schedule : list nat) (pool : list (Proc A)) (s : State)
  : State * list (Proc A) :=
  match schedule with
  | [] => (s, pool)
  | i :: later =>
      match pool !! i with
      | Some p => let (s', p') := advance p s in resume later (<[i := p']> pool) s'
      | None => resume later pool s
      end
  end.

(** Whatever the schedule left unfinished then runs to its end. *)
Fixpoint drain {A} (pool : list (Proc A)) (s : State) : State * list (Result A) :=
  match pool with
  | [] => (s, [])
  | p :: rest =>
      let (s1, r) := run p s in
      let (s2, rs) := drain rest s1 in
      (s2, r :: rs)
  end.

(** [await Promise.allSettled(ps.map(...))] under a schedule. *)
Definition allSettled {A} (schedule : list nat) (ps : list (Proc A)) (s : State)
  : State * list (Result A) :=
  let (s1, pool) := launch ps s in
  let (s2, pool') := resume schedule pool s1 in
  drain pool' s2.

Open Scope proc_scope.

(** ** The methods *)

Definition addLog (level : Level) (category message : string) : Proc unit :=
  Do (op_addLog level category message) (Ret tt).

Definition io_emit_ (m : WsMessage) : Proc unit :=
  Do (op_effect (io_emit m)) (Ret tt).

(** A template literal with one substitution: [literal] is the text
    around the string that [v] converts to. *)
Definition template (v : JsValue) (literal : string -> string) : Result string :=
  match ToString v with
  | inl text => inl (literal text)
  | inr e => inr e
  end.

(** [this.addLog(level, category, `...`)] with a template literal, which
    is evaluated before the call. *)
Definition addLog_of (level : Level) (category : string) (message : Result string)
  : Proc unit :=
  let! text := of_result message in
  addLog level category text.

(** An operation of the session: it is started, the caller waits, and it
    fails or not as the world has it. *)
Definition session (e : Effect) (fails : option JsError) : Proc unit :=
  Do (op_effect e)
     (Await (match fails with None => Ret tt | Some err => Throw err end)).

(** The [llmClient] callback handed to Stagehand, for one completion. *)
Definition llmClient (completion : Result Gateway.LLMResponse)
  : Proc Gateway.LLMResponse :=
  try_catch
    (let! response := await (of_result completion) in
     Do (op_usage (Gateway.usage response)) (of_result (tracking (Gateway.usage response))) ;;
     Ret response)
    (fun error =>
       addLog lvl_error "llm" ("LLM request failed: " +:+ message error) ;;
       Throw error).

Fixpoint consult {A} (cs : list (Result Gateway.LLMResponse)) (k : Proc A) : Proc A :=
  match cs with
  | [] => k
  | c :: rest => Await (settle (llmClient c) (fun _ => consult rest k))
  end.

(** A call of the capability on behalf of the step at position [i]. *)
Definition ask (i : nat) (c : Call) : Proc JsValue :=
  Do (op_effect (call i c))
     (consult (completions (capability w i))
              (Await (of_result (answer (capability w i))))).

Definition initStagehand (workflow : Workflow) : Proc unit :=
  addLog lvl_info "initialization" "Initializing browser automation..." ;;
  let config := match browserConfig workflow with
                | Some c => c
                | None => {| headless := true; viewport := None; userAgent := None |}
                end in
  try_catch
    (Do (op_effect (new_Stagehand (headless config)))
      (of_result (match construct_fails w with
                  | None => inl tt
                  | Some err => inr err
                  end)) ;;
     Do (op_stagehand (Some {| sh_headless := headless config |})) (Ret tt) ;;
     await (session stagehand_init (init_fails w)) ;;
     match viewport config with
     | Some v => await (session (setViewportSize (width v) (height v))
                                (setViewportSize_fails w))
     | None => Ret tt
     end ;;
     match userAgent config with
     | Some ua =>
         if String.eqb ua "" then Ret tt
         else await (session (setUserAgent ua) (setUserAgent_fails w))
     | None => Ret tt
     end ;;
     addLog lvl_success "initialization" "Browser automation initialized successfully")
    (fun error =>
       addLog lvl_error "initialization" ("Failed to initialize: " +:+ message error) ;;
       Throw error).

Definition executeNavigate (i : nat) (step : AutomationStep) : Proc JsValue :=
  let url := js_or (assoc "url" (config step)) (JStr "") in
  addLog_of lvl_info "navigation" (template url (fun url => "Navigating to " +:+ url)) ;;
  await (ask i (page_goto url)) ;;
  addLog_of lvl_success "navigation"
    (template url (fun url => "Successfully navigated to " +:+ url)) ;;
  Ret JUndefined.

Definition executeAct (i : nat) (step : AutomationStep) : Proc JsValue :=
  let action := js_or (assoc "action" (config step)) (JStr (description step)) in
  addLog_of lvl_info "act" (template action (fun action => "Performing action: " +:+ action)) ;;
  let! result := await (ask i (stagehand_act action)) in
  addLog_of lvl_success "act" (template action (fun action => "Action completed: " +:+ action)) ;;
  Ret result.

Definition executeExtract (i : nat) (step : AutomationStep) : Proc JsValue :=
  let instruction := js_or (assoc "instruction" (config step)) (JStr (description step)) in
  let schema := assoc "schema" (config step) in
  addLog_of lvl_info "extract"
    (template instruction (fun instruction => "Extracting data: " +:+ instruction)) ;;
  let! extractResult :=
    (if truthy schema then
       let! schemaObj := of_result (match schema with
                                    | JStr text => JSON_parse w text
                                    | _ => inl schema
                                    end) in
       await (ask i (stagehand_extract instruction (Some schemaObj)))
     else
       await (ask i (stagehand_extract instruction None))) in
  addLog lvl_success "extract" "Data extracted successfully" ;;
  Ret extractResult.

Definition executeObserve (i : nat) (step : AutomationStep) : Proc JsValue :=
  let instruction := js_or (assoc "instruction" (config step)) (JStr (description step)) in
  addLog_of lvl_info "observe"
    (template instruction (fun instruction => "Observing: " +:+ instruction)) ;;
  let! observations := await (ask i (stagehand_observe instruction)) in
  addLog lvl_success "observe" "Observation completed" ;;
  Ret observations.

Definition executeAgent (i : nat) (step : AutomationStep) : Proc JsValue :=
  let instruction := js_or (assoc "instruction" (config step)) (JStr (description step)) in
  addLog_of lvl_info "agent"
    (template instruction (fun instruction => "Starting autonomous agent: " +:+ instruction)) ;;
  let! result := await (ask i (stagehand_agent instruction)) in
  addLog lvl_success "agent" "Agent completed successfully" ;;
  Ret result.

Definition executeWait (i : nat) (step : AutomationStep) : Proc JsValue :=
  let duration := js_or (assoc "duration" (config step)) (JNum 1000) in
  let selector := assoc "selector" (config step) in
  if truthy selector then
    addLog_of lvl_info "wait"
      (template selector (fun selector => "Waiting for element: " +:+ selector)) ;;
    await (ask i (page_waitForSelector selector duration)) ;;
    addLog_of lvl_success "wait"
      (template selector (fun selector => "Element found: " +:+ selector)) ;;
    Ret JUndefined
  else
    addLog_of lvl_info "wait"
      (template duration (fun duration => "Waiting for " +:+ duration +:+ "ms")) ;;
    Do (op_effect (call i (setTimeout duration))) (Await (Ret tt)) ;;
    addLog lvl_success "wait" "Wait completed" ;;
    Ret JUndefined.

Definition executeScreenshot (i : nat) (step : AutomationStep) : Proc JsValue :=
  let path := js_or (assoc "path" (config step))
                    (JStr ("screenshot-" +:+ pretty (screenshot_clock w i) +:+ ".png")) in
  addLog_of lvl_info "screenshot" (template path (fun path => "Taking screenshot: " +:+ path)) ;;
  await (ask i (page_screenshot path (js_or (assoc "fullPage" (config step)) (JBool false)))) ;;
  addLog_of lvl_success "screenshot" (template path (fun path => "Screenshot saved: " +:+ path)) ;;
  Ret path.

Definition executeScroll (i : nat) (step : AutomationStep) : Proc JsValue :=
  let direction := js_or (assoc "direction" (config step)) (JStr "down") in
  let amount := js_or (assoc "amount" (config step)) (JNum 500) in
  addLog_of lvl_info "scroll"
    (match ToString direction with
     | inl direction =>
         template amount (fun amount => "Scrolling " +:+ direction +:+ " by " +:+ amount +:+ "px")
     | inr e => inr e
     end) ;;
  await (ask i (page_evaluate amount direction)) ;;
  addLog lvl_success "scroll" "Scroll completed" ;;
  Ret JUndefined.

(** [${step.order + 1}]; the integer sum is the sum of the source when
    [order] is a safe integer. *)
Definition step_number (step : AutomationStep) : string := pretty (order step + 1).

(** The [switch] of [executeStep]; [result] starts out as [null]. *)
Definition dispatch (i : nat) (step : AutomationStep) : Proc JsValue :=
  match type step with
  | navigate => await (executeNavigate i step)
  | act => await (executeAct i step)
  | extract => await (executeExtract i step)
  | observe => await (executeObserve i step)
  | agent => await (executeAgent i step)
  | wait => await (executeWait i step)
  | screenshot => await (executeScreenshot i step)
  | scroll => await (executeScroll i step)
  | unknown tag =>
      addLog lvl_warning "step" ("Unknown step type: " +:+ tag) ;;
      Ret JNull
  end.

(** [executeStep]; [i] is the position of [step] in [workflow.steps], by
    which the world answers. *)
Definition executeStep (i : nat) (step : AutomationStep) : Proc JsValue :=
  Get (fun s =>
    match stagehand s with
    | None => Throw (Error "Stagehand not initialized")
    | Some _ =>
        addLog lvl_info "step"
          ("Executing step " +:+ step_number step +:+ ": " +:+
           step_type_name (type step) +:+ " - " +:+ description step) ;;
        try_catch
          (let! result := dispatch i step in
           addLog lvl_success "step"
             ("Step " +:+ step_number step +:+ " completed successfully") ;;
           Ret result)
          (fun error =>
             addLog lvl_error "step"
               ("Step " +:+ step_number step +:+ " failed: " +:+ message error) ;;
             Throw error)
    end).

Definition cleanup : Proc unit :=
  Do (op_effect entered_cleanup)
  (Get (fun s =>
    match stagehand s with
    | Some _ =>
        try_catch
          (addLog lvl_info "cleanup" "Closing browser instance" ;;
           await (session stagehand_close (close_fails w)) ;;
           Do (op_stagehand None) (Ret tt) ;;
           addLog lvl_success "cleanup" "Browser closed successfully")
          (fun error =>
             addLog lvl_warning "cleanup" ("Browser cleanup warning: " +:+ message error))
    | None => Ret tt
    end)).

(** [if (result) results.push({ step: step.id, result })] *)
Definition push_if_truthy (results : list Entry) (step : AutomationStep) (value : JsValue)
  : list Entry :=
  if truthy value then results ++ [{| step := id step; result := value |}] else results.

(** The [for] loop of the sequential mode, from position [i] on. *)
Fixpoint sequential_loop (i totalSteps : nat) (todo : list AutomationStep)
         (results : list Entry) : Proc (list Entry) :=
  match todo with
  | [] => Ret results
  | step :: rest =>
      io_emit_ (execution_progress executionId i totalSteps (description step)) ;;
      let! result := await (executeStep i step) in
      sequential_loop (S i) totalSteps rest (push_if_truthy results step result)
  end.

(** The [forEach] over the settled promises of the parallel mode. *)
Fixpoint collect (index : nat) (todo : list AutomationStep)
         (stepResults : list (Result JsValue)) (results : list Entry)
  : Proc (list Entry) :=
  match todo, stepResults with
  | step :: rest, inl value :: more =>
      collect (S index) rest more (push_if_truthy results step value)
  | step :: rest, inr reason :: more =>
      addLog lvl_error "execution"
        ("Parallel step " +:+ pretty (index + 1)%nat +:+ " failed: " +:+
         error_to_string reason) ;;
      collect (S index) rest more results
  | _, _ => Ret results
  end.

(** [results.length === 1 ? results[0].result : results] *)
Definition unwrap (results : list Entry) : JsValue :=
  match results with
  | [only] => result only
  | _ => JArr (map entry_value results)
  end.

Definition positions (todo : list AutomationStep) : list (Proc JsValue) :=
  imap executeStep todo.

(** [Date.now() - this.startTime] *)
Definition duration_since_start : Proc Z :=
  Get (fun s =>
    Do op_tick (Ret (Date_now w (readings s) - startTime s))).

Definition report (results : JsValue) (duration : Z) : Proc ExecResult :=
  Get (fun s => Ret {| res_results := results;
                       res_logs := logs s;
                       res_duration := duration;
                       res_tokenUsage := tokenUsage s |}).

(** The record as its reader finds it in state [s]: [logs] and
    [tokenUsage] are the executor's array and object themselves. *)
Definition resolved (s : State) (r : ExecResult) : ExecResult :=
  {| res_results := res_results r;
     res_logs := logs s;
     res_duration := res_duration r;
     res_tokenUsage := tokenUsage s |}.

(** A state in which the session is there. *)
Definition during : State :=
  mkState (Some {| sh_headless := true |}) [] 0 no_usage 0 [].

(** What [initStagehand] settles with. *)
Definition init_outcome (workflow : Workflow) : Result unit :=
  (run (initStagehand workflow) fresh).2.

(** What the step at position [i] settles with. *)
Definition step_outcome (i : nat) (step : AutomationStep) : Result JsValue :=
  (run (executeStep i step) during).2.

(** The end of the [try] block: the last progress event, the closing
    entry and the record. *)
Definition finish (totalSteps : nat) (results : list Entry) : Proc ExecResult :=
  io_emit_ (execution_progress executionId totalSteps totalSteps "Completed") ;;
  let! duration := duration_since_start in
  addLog lvl_success "execution"
    ("Workflow completed in " +:+ toFixed2 w duration +:+ "s") ;;
  report (unwrap results) duration.

(** The [try] block of [execute]. *)
Definition attempt (schedule : list nat) (workflow : Workflow) (s : State)
  : State * Result ExecResult :=
  let totalSteps := length (steps workflow) in
  match run (await (initStagehand workflow)) s with
  | (s1, inr e) => (s1, inr e)
  | (s1, inl _) =>
      match executionMode workflow with
      | sequential =>
          run (let! results := sequential_loop 0 totalSteps (steps workflow) [] in
               finish totalSteps results) s1
      | parallel =>
          let (s2, _) := run (addLog lvl_info "execution" "Executing steps in parallel") s1 in
          let (s3, stepResults) := allSettled schedule (positions (steps workflow)) s2 in
          run (let! results := collect 0 (steps workflow) stepResults [] in
               finish totalSteps results) s3
      end
  end.

(** The [catch] block of [execute]. *)
Definition failure_report (error : JsError) : Proc ExecResult :=
  let! duration := duration_since_start in
  addLog lvl_error "execution" ("Workflow failed: " +:+ message error) ;;
  report JNull duration.

(** [execute]: the [try] block, its [catch], and [cleanup] in [finally]. *)
Definition execute (schedule : list nat) (workflow : Workflow) (s : State)
  : State * Result ExecResult :=
  let (s0, _) :=
    run (Do op_startTime (Ret tt) ;;
         addLog lvl_info "execution" ("Starting workflow: " +:+ wf_name workflow)) s in
  let (s1, outcome) :=
    match attempt schedule workflow s0 with
    | (s', inl value) => (s', inl value)
    | (s', inr error) => run (failure_report error) s'
    end in
  match run (await cleanup) s1 with
  | (s2, inl _) =>
      (s2, match outcome with
           | inl value => inl (resolved s2 value)
           | inr error => inr error
           end)
  | (s2, inr e) => (s2, inr e)
  end.

Close Scope proc_scope.

End WithWorld.

End Executor.

(* ================================================================== *)
(** * The in-memory store ([MemStorage])                                *)
(* ================================================================== *)

Module Storage.

(** The [logs] field of a stored execution holds an array object: the
    literal the route created the record with, or the array that is the
    executor's [this.logs]. *)
Inductive LogsRef : Type :=
| literal (entries : list LogEntry)
| executor_logs.

(** An [Execution] object as the map holds it. *)
Record Stored : Type := mkStored {
  st_id : string;
  st_workflowId : string;
  st_status : Status;
  st_logs : LogsRef;
  st_results : JsValue;
  st_error : option string;
  st_tokenUsage : option TokenUsage;
  st_startedAt : option Z;
  st_completedAt : option Z;
  st_duration : option Z;
}.

(** [Partial<Execution>]: the keys an update carries. *)
Record Partial : Type := mkPartial {
  upd_status : option Status;
  upd_logs : option LogsRef;
  upd_results : option JsValue;
  upd_error : option (option string);
  upd_tokenUsage : option (option TokenUsage);
  upd_completedAt : option (option Z);
  upd_duration : option (option Z);
}.

Definition no_update : Partial := mkPartial None None None None None None None.

(** [{ ...execution, ...updates }] *)
Definition spread (execution : Stored) (updates : Partial) : Stored :=
  {| st_id := st_id execution;
     st_workflowId := st_workflowId execution;
     st_status := default (st_status execution) (upd_status updates);
     st_logs := default (st_logs execution) (upd_logs updates);
     st_results := default (st_results execution) (upd_results updates);
     st_error := default (st_error execution) (upd_error updates);
     st_tokenUsage := default (st_tokenUsage execution) (upd_tokenUsage updates);
     st_startedAt := st_startedAt execution;
     st_completedAt := default (st_completedAt execution) (upd_completedAt updates);
     st_duration := default (st_duration execution) (upd_duration updates) |}.

(** [createExecution]; [id] is what [randomUUID()] returned. *)
Definition createExecution (id workflowId : string) (startedAt : Z)
           (executions : gmap string Stored) : gmap string Stored * Stored :=
  let execution :=
    mkStored id workflowId queued (literal []) JNull None None (Some startedAt) None None in
  (<[id := execution]> executions, execution).

Definition updateExecution (id : string) (updates : Partial)
           (executions : gmap string Stored) : gmap string Stored * option Stored :=
  match executions !! id with
  | None => (executions, None)
  | Some execution =>
      let updated := spread execution updates in
      (<[id := updated]> executions, Some updated)
  end.

Definition getExecution (id : string) (executions : gmap string Stored) : option Stored :=
  executions !! id.

(** What a reader of the record sees while the executor's array holds
    [array]. *)
Definition observe_logs (array : list LogEntry) (r : LogsRef) : list LogEntry :=
  match r with
  | literal entries => entries
  | executor_logs => array
  end.

Definition snapshot (array : list LogEntry) (e : Stored) : Execution :=
  {| ex_id := st_id e;
     workflowId := st_workflowId e;
     status := st_status e;
     ex_logs := observe_logs array (st_logs e);
     results := st_results e;
     ex_error := st_error e;
     ex_tokenUsage := st_tokenUsage e;
     startedAt := st_startedAt e;
     completedAt := st_completedAt e;
     duration := st_duration e |}.

End Storage.

(* ================================================================== *)
(** * POST /api/workflows/:id/execute                                   *)
(* ================================================================== *)

Module Routes.
Import Storage.

(** The update the handler writes once [execute] has returned. *)
Definition final_update (result : Executor.ExecResult) (completedAt : Z) : Partial :=
  if is_null (Executor.res_results result) then
    {| upd_status := Some failed;
       upd_logs := Some executor_logs;
       upd_results := None;
       upd_error := Some (Some "Workflow execution failed. Check logs for details.");
       upd_tokenUsage := Some (Some (Executor.res_tokenUsage result));
       upd_completedAt := Some (Some completedAt);
       upd_duration := Some (Some (Executor.res_duration result)) |}
  else
    {| upd_status := Some completed;
       upd_logs := Some executor_logs;
       upd_results := Some (Executor.res_results result);
       upd_error := None;
       upd_tokenUsage := Some (Some (Executor.res_tokenUsage result));
       upd_completedAt := Some (Some completedAt);
       upd_duration := Some (Some (Executor.res_duration result)) |}.

Definition final_message (id : string) (result : Executor.ExecResult) : WsMessage :=
  if is_null (Executor.res_results result) then
    execution_failed id "Workflow execution failed"
  else
    execution_completed id (Executor.res_results result) (Executor.res_duration result).

(** Where the background task of the handler stands. *)
Inductive Phase : Type :=
| created                                   (* the record exists, status queued *)
| executing (to_come : list LogEntry)       (* inside [executor.execute] *)
| returned                                  (* [execute] has resolved *)
| finished.

(** The store, the executor's log array, the log writes that [addLog]
    started and that have not reached the store yet, and the channel. *)
Record System : Type := mkSystem {
  executions : gmap string Stored;
  array : list LogEntry;
  in_flight : nat;
  phase : Phase;
  channel : list WsMessage;
}.

(** One turn of the event loop, for the run of execution [id] of
    workflow [workflowId] whose executor resolves to [result].  The
    [catch] block of the background task has no turn: [execute] never
    raises and neither do the in-memory store and the channel. *)
Inductive turn (id workflowId : string) (result : Executor.ExecResult)
  : System -> System -> Prop :=
| turn_start sys :
    phase sys = created ->
    turn id workflowId result sys
      (mkSystem
         (updateExecution id
            (mkPartial (Some running) None None None None None None)
            (executions sys)).1
         (array sys) (in_flight sys)
         (executing (Executor.res_logs result))
         (channel sys ++ [execution_started id workflowId]))
| turn_addLog sys log later :
    phase sys = executing (log :: later) ->
    turn id workflowId result sys
      (mkSystem (executions sys) (array sys ++ [log]) (S (in_flight sys))
                (executing later)
                (channel sys ++ [execution_log id log]))
| turn_persist sys n :
    in_flight sys = S n ->
    turn id workflowId result sys
      (mkSystem
         (updateExecution id
            (mkPartial None (Some executor_logs) None None None None None)
            (executions sys)).1
         (array sys) n (phase sys) (channel sys))
| turn_return sys :
    phase sys = executing [] ->
    turn id workflowId result sys
      (mkSystem (executions sys) (array sys) (in_flight sys) returned (channel sys))
| turn_finish sys completedAt :
    phase sys = returned ->
    turn id workflowId result sys
      (mkSystem
         (updateExecution id (final_update result completedAt) (executions sys)).1
         (array sys) (in_flight sys) finished
         (channel sys ++ [final_message id result])).

(** The system right after the handler created the record. *)
Definition accepted (id workflowId : string) (startedAt : Z)
           (executions : gmap string Stored) : System :=
  mkSystem (createExecution id workflowId startedAt executions).1 [] 0 created [].

Inductive reachable (id workflowId : string) (result : Executor.ExecResult)
  : System -> Prop :=
| reachable_accepted startedAt executions :
    reachable id workflowId result (accepted id workflowId startedAt executions)
| reachable_turn sys sys' :
    reachable id workflowId result sys ->
    turn id workflowId result sys sys' ->
    reachable id workflowId result sys'.

(** The execution as a reader of the store sees it. *)
Definition observed (id : string) (sys : System) : option Execution :=
  snapshot (array sys) <$> getExecution id (executions sys).

Definition terminal (s : Status) : bool :=
  match s with completed | failed => true | _ => false end.

(** The moves of the state machine. *)
Definition moves (s s' : Status) : bool :=
  match s, s' with
  | queued, running | running, completed | running, failed => true
  | _, _ => false
  end.

End Routes.

(* ================================================================== *)
(** * The whole of [MemStorage]                                         *)
(* ================================================================== *)

(** A JavaScript [Map] with string keys: its entries in insertion order,
    no key twice. *)
Module JsMap.

Section Map.
Context {V : Type}.

Definition Map : Type := list (string * V).

(** [m.get(k)] *)
Fixpoint Map_get (k : string) (m : Map) : option V :=
  match m with
  | [] => None
  | (k', v) :: rest => if String.eqb k k' then Some v else Map_get k rest
  end.

(** [m.set(k, v)]: a key that is there keeps its place. *)
Fixpoint Map_set (k : string) (v : V) (m : Map) : Map :=
  match m with
  | [] => [(k, v)]
  | (k', v') :: rest =>
      if String.eqb k k' then (k, v) :: rest else (k', v') :: Map_set k v rest
  end.

(** [m.delete(k)]: the map without the key. *)
Fixpoint Map_delete (k : string) (m : Map) : Map :=
  match m with
  | [] => []
  | (k', v') :: rest =>
      if String.eqb k k' then rest else (k', v') :: Map_delete k rest
  end.

(** [m.has(k)], which is also what [m.delete(k)] returns. *)
Definition Map_has (k : string) (m : Map) : bool :=
  match Map_get k m with Some _ => true | None => false end.

(** [Array.from(m.values())] *)
Definition Map_values (m : Map) : list V := map snd m.

Definition Map_keys (m : Map) : list string := map fst m.

End Map.

Arguments Map V : clear implicits.

End JsMap.
Import JsMap.

Module MemStorage.
Import Storage.

(** ** The records *)

(** A [Workflow] of [shared/schema.ts] with all its fields. *)
Record WorkflowRecord : Type := mkRecord {
  wr_id : string;
  wr_name : string;
  wr_description : option string;
  wr_steps : list AutomationStep;
  wr_executionMode : ExecutionMode;
  wr_browserConfig : option BrowserConfig;
  wr_createdAt : Z;
  wr_updatedAt : Z;
}.

(** What the executor is handed. *)
Definition workflow_of (r : WorkflowRecord) : Workflow :=
  mkWorkflow (wr_id r) (wr_name r) (wr_steps r) (wr_executionMode r) (wr_browserConfig r).

(** [InsertWorkflow] *)
Record InsertWorkflow : Type := mkInsert {
  ins_name : string;
  ins_description : option string;
  ins_steps : list AutomationStep;
  ins_executionMode : ExecutionMode;
  ins_browserConfig : option BrowserConfig;
}.

(** [Partial<Workflow>]: the keys an update carries. *)
Record WorkflowPatch : Type := mkPatch {
  p_id : option string;
  p_name : option string;
  p_description : option (option string);
  p_steps : option (list AutomationStep);
  p_executionMode : option ExecutionMode;
  p_browserConfig : option (option BrowserConfig);
  p_createdAt : option Z;
  p_updatedAt : option Z;
}.

Definition no_patch : WorkflowPatch := mkPatch None None None None None None None None.

Inductive Category : Type :=
| ecommerce | forms | research | monitoring | analysis | generation.

Record Template : Type := mkTemplate {
  tpl_id : string;
  tpl_name : string;
  tpl_description : string;
  tpl_category : Category;
  tpl_icon : string;
  tpl_tags : list string;
  tpl_exampleUrl : option string;
  tpl_steps : option (list AutomationStep);    (* [workflow.steps] *)
}.

Record Session : Type := mkSession {
  sess_id : string;
  sess_workflows : list string;
  sess_executions : list string;
  sess_createdAt : Z;
  lastAccessedAt : Z;
}.

(** [Partial<Session>] *)
Record SessionPatch : Type := mkSessionPatch {
  sp_id : option string;
  sp_workflows : option (list string);
  sp_executions : option (list string);
  sp_createdAt : option Z;
  sp_lastAccessedAt : option Z;
}.

(** ** The outside of the store *)

(** [randomUUID()] and the clock, each answering its n-th use; how a clock
    reading prints as an ISO string, and how two such strings compare. *)
Record World : Type := {
  randomUUID : nat -> string;
  Date_now : nat -> Z;
  toISOString : Z -> string;
  localeCompare : string -> string -> Z;
}.

(** The fields of the store, with the number of identifiers drawn and of
    clock readings made so far. *)
Record Store : Type := mkStore {
  workflows : Map WorkflowRecord;
  executions : Map Stored;
  templates : Map Template;
  session : Session;
  uuids : nat;
  ticks : nat;
}.

(** ** The built-in templates *)

(** A template whose identifier is the [n]-th one drawn and whose steps
    take the next ones, in order. *)
Definition template (uuid : nat -> string) (n : nat) (name description : string)
           (category : Category) (icon : string) (tags : list string)
           (exampleUrl : option string)
           (steps : list (StepType * string * list (string * JsValue))) : Template :=
  mkTemplate (uuid n) name description category icon tags exampleUrl
    (Some (imap (fun i '(type, description, config) =>
                   mkStep (uuid (S n + i)%nat) type description config (Z.of_nat i))
                steps)).

(** The array literal of [initializeTemplates]; [uuid 0] went to the session. *)
Definition builtin_templates (uuid : nat -> string) : list Template :=
  [ template uuid 1 "E-commerce Product Scraper"
      "Extract product names, prices, and ratings from e-commerce websites. Supports pagination and filtering."
      ecommerce "shopping-cart" ["scraping"; "products"; "prices"; "e-commerce"]
      (Some "https://www.amazon.com")
      [ (navigate, "Navigate to product listing page", [("url", JStr "{{TARGET_URL}}")]);
        (extract, "Extract product data",
         [("schema", JStr "{ name: string, price: string, rating: number }[]")]) ];
    template uuid 4 "Form Auto-Fill & Submit"
      "Automatically fill out and submit web forms with predefined data. Great for testing and automation."
      forms "file-text" ["forms"; "automation"; "testing"] None
      [ (navigate, "Go to form page", [("url", JStr "{{FORM_URL}}")]);
        (act, "Fill form fields", [("action", JStr "Fill all form fields with provided data")]);
        (act, "Submit form", [("action", JStr "Click submit button")]) ];
    template uuid 8 "Research & Data Collection"
      "Search for information across multiple sources and compile results. Perfect for market research."
      research "search" ["research"; "data"; "collection"; "analysis"] None
      [ (navigate, "Navigate to search engine", [("url", JStr "https://www.google.com")]);
        (act, "Enter search query", [("action", JStr "Type search query and press enter")]);
        (extract, "Extract search results",
         [("schema", JStr "{ title: string, url: string, description: string }[]")]) ];
    template uuid 12 "Price Monitoring"
      "Track product prices over time and get alerts when prices drop below threshold."
      monitoring "trending-up" ["monitoring"; "prices"; "alerts"; "tracking"] None
      [ (navigate, "Go to product page", [("url", JStr "{{PRODUCT_URL}}")]);
        (extract, "Extract current price",
         [("schema", JStr "{ price: number, currency: string, inStock: boolean }")]) ];
    template uuid 15 "Competitive Analysis"
      "Analyze competitor websites to gather pricing, features, and positioning data."
      analysis "bar-chart" ["analysis"; "competitors"; "market"; "intelligence"] None
      [ (navigate, "Visit competitor site", [("url", JStr "{{COMPETITOR_URL}}")]);
        (observe, "Identify key elements",
         [("action", JStr "Find pricing tables and feature lists")]);
        (extract, "Extract competitive data",
         [("schema", JStr "{ features: string[], pricing: object[], positioning: string }")]) ];
    template uuid 19 "Lead Generation"
      "Scrape contact information and company details from business directories and LinkedIn."
      generation "users" ["leads"; "contacts"; "b2b"; "outreach"] None
      [ (navigate, "Go to directory", [("url", JStr "{{DIRECTORY_URL}}")]);
        (extract, "Extract business listings",
         [("schema",
           JStr "{ company: string, email: string, phone: string, website: string }[]")]) ] ].

(** [Array.prototype.sort(compareFn)]: a stable sort, here by insertion. *)
Fixpoint insert_by {A} (compareFn : A -> A -> Z) (x : A) (sorted : list A) : list A :=
  match sorted with
  | [] => [x]
  | y :: rest =>
      if compareFn x y <=? 0 then x :: y :: rest
      else y :: insert_by compareFn x rest
  end.

Definition Array_sort {A} (compareFn : A -> A -> Z) (l : list A) : list A :=
  foldr (insert_by compareFn) [] l.

Section WithWorld.
Variable w : World.

(** [new MemStorage()] *)
Definition constructor : Store :=
  let sessionId := randomUUID w 0 in
  let templates := builtin_templates (randomUUID w) in
  {| workflows := [];
     executions := [];
     templates := foldl (fun m t => Map_set (tpl_id t) t m) [] templates;
     session := mkSession sessionId [] [] (Date_now w 0) (Date_now w 1);
     uuids := 22;
     ticks := 2 |}.

(** [this.session.lastAccessedAt = new Date().toISOString()] *)
Definition touch (st : Store) : Store :=
  mkStore (workflows st) (executions st) (templates st)
    (mkSession (sess_id (session st)) (sess_workflows (session st))
               (sess_executions (session st)) (sess_createdAt (session st))
               (Date_now w (ticks st)))
    (uuids st) (S (ticks st)).

(** *** Workflows *)

Definition getWorkflows (st : Store) : list WorkflowRecord :=
  Map_values (workflows st).

Definition getWorkflow (id : string) (st : Store) : option WorkflowRecord :=
  Map_get id (workflows st).

Definition createWorkflow (insertWorkflow : InsertWorkflow) (st : Store)
  : Store * WorkflowRecord :=
  let id := randomUUID w (uuids st) in
  let now := Date_now w (ticks st) in
  let workflow :=
    {| wr_id := id;
       wr_name := ins_name insertWorkflow;
       wr_description := ins_description insertWorkflow;
       wr_steps := ins_steps insertWorkflow;
       wr_executionMode := ins_executionMode insertWorkflow;
       wr_browserConfig := ins_browserConfig insertWorkflow;
       wr_createdAt := now;
       wr_updatedAt := now |} in
  (mkStore (Map_set id workflow (workflows st)) (executions st) (templates st)
     (mkSession (sess_id (session st)) (sess_workflows (session st) ++ [id])
                (sess_executions (session st)) (sess_createdAt (session st)) now)
     (S (uuids st)) (S (ticks st)),
   workflow).

(** [{ ...workflow, ...updates, updatedAt }] *)
Definition merge (workflow : WorkflowRecord) (updates : WorkflowPatch) (updatedAt : Z)
  : WorkflowRecord :=
  {| wr_id := default (wr_id workflow) (p_id updates);
     wr_name := default (wr_name workflow) (p_name updates);
     wr_description := default (wr_description workflow) (p_description updates);
     wr_steps := default (wr_steps workflow) (p_steps updates);
     wr_executionMode := default (wr_executionMode workflow) (p_executionMode updates);
     wr_browserConfig := default (wr_browserConfig workflow) (p_browserConfig updates);
     wr_createdAt := default (wr_createdAt workflow) (p_createdAt updates);
     wr_updatedAt := updatedAt |}.

Definition updateWorkflow (id : string) (updates : WorkflowPatch) (st : Store)
  : Store * option WorkflowRecord :=
  match Map_get id (workflows st) with
  | None => (st, None)
  | Some workflow =>
      let updated := merge workflow updates (Date_now w (ticks st)) in
      (mkStore (Map_set id updated (workflows st)) (executions st) (templates st)
         (mkSession (sess_id (session st)) (sess_workflows (session st))
                    (sess_executions (session st)) (sess_createdAt (session st))
                    (Date_now w (S (ticks st))))
         (uuids st) (S (S (ticks st))),
       Some updated)
  end.

Definition deleteWorkflow (id : string) (st : Store) : Store * bool :=
  let deleted := Map_has id (workflows st) in
  if deleted then
    (mkStore (Map_delete id (workflows st)) (executions st) (templates st)
       (mkSession (sess_id (session st))
                  (filter (fun wid => wid <> id) (sess_workflows (session st)))
                  (sess_executions (session st)) (sess_createdAt (session st))
                  (Date_now w (ticks st)))
       (uuids st) (S (ticks st)),
     true)
  else (st, false).

(** *** Executions *)

(** [a || b] on strings. *)
Definition str_or (a b : string) : string := if String.eqb a "" then b else a.

(** A timestamp field read as a string; one that is not there is falsy. *)
Definition iso (t : option Z) : string :=
  match t with Some reading => toISOString w reading | None => "" end.

(** [(a, b) => bTime.localeCompare(aTime)] with
    [xTime = x.startedAt || x.completedAt || ''] *)
Definition newest_first (a b : Stored) : Z :=
  let aTime := str_or (iso (st_startedAt a)) (str_or (iso (st_completedAt a)) "") in
  let bTime := str_or (iso (st_startedAt b)) (str_or (iso (st_completedAt b)) "") in
  localeCompare w bTime aTime.

(** The same with [xTime = x.startedAt || '']. *)
Definition newest_started_first (a b : Stored) : Z :=
  let aTime := str_or (iso (st_startedAt a)) "" in
  let bTime := str_or (iso (st_startedAt b)) "" in
  localeCompare w bTime aTime.

Definition getExecutions (st : Store) : list Stored :=
  Array_sort newest_first (Map_values (executions st)).

Definition getExecution (id : string) (st : Store) : option Stored :=
  Map_get id (executions st).

Definition getExecutionsByWorkflow (workflowId : string) (st : Store) : list Stored :=
  Array_sort newest_started_first
    (filter (fun e => st_workflowId e = workflowId) (Map_values (executions st))).

(** [{ ...insertExecution, id }] *)
Definition with_id (id : string) (e : Stored) : Stored :=
  mkStored id (st_workflowId e) (st_status e) (st_logs e) (st_results e) (st_error e)
           (st_tokenUsage e) (st_startedAt e) (st_completedAt e) (st_duration e).

Definition createExecution (insertExecution : Stored) (st : Store) : Store * Stored :=
  let id := randomUUID w (uuids st) in
  let execution := with_id id insertExecution in
  (mkStore (workflows st) (Map_set id execution (executions st)) (templates st)
     (mkSession (sess_id (session st)) (sess_workflows (session st))
                (sess_executions (session st) ++ [id]) (sess_createdAt (session st))
                (Date_now w (ticks st)))
     (S (uuids st)) (S (ticks st)),
   execution).

Definition updateExecution (id : string) (updates : Partial) (st : Store)
  : Store * option Stored :=
  match Map_get id (executions st) with
  | None => (st, None)
  | Some execution =>
      let updated := spread execution updates in
      (touch (mkStore (workflows st) (Map_set id updated (executions st)) (templates st)
                      (session st) (uuids st) (ticks st)),
       Some updated)
  end.

(** *** Templates *)

Definition getTemplates (st : Store) : list Template := Map_values (templates st).

Definition getTemplate (id : string) (st : Store) : option Template :=
  Map_get id (templates st).

(** *** The session *)

Definition getSession (st : Store) : Store * Session :=
  let st' := touch st in (st', session st').

(** [{ ...this.session, ...updates, lastAccessedAt }] *)
Definition updateSession (updates : SessionPatch) (st : Store) : Store * Session :=
  let s := session st in
  let s' := mkSession (default (sess_id s) (sp_id updates))
                      (default (sess_workflows s) (sp_workflows updates))
                      (default (sess_executions s) (sp_executions updates))
                      (default (sess_createdAt s) (sp_createdAt updates))
                      (Date_now w (ticks st)) in
  (mkStore (workflows st) (executions st) (templates st) s' (uuids st) (S (ticks st)), s').

End WithWorld.

End MemStorage.

(* ================================================================== *)
(** * The routes ([registerRoutes])                                     *)
(* ================================================================== *)

Module Api.
Import Storage MemStorage.

(** ** The outside of the handlers *)

(** The store's collaborators, [String.prototype.toLowerCase],
    [insertWorkflowSchema.parse] (the validated data, or the issues of
    the [ZodError] it throws), and what [String(row[key])] gives when
    [key] names a member that [row] inherits. *)
Record World : Type := {
  store_world : MemStorage.World;
  toLowerCase : string -> string;
  insertWorkflowSchema_parse : JsValue -> InsertWorkflow + JsValue;
  inherited_text : JsValue -> string -> option string;
}.

Inductive Body : Type :=
| json_workflows (l : list WorkflowRecord)
| json_workflow (r : WorkflowRecord)
| json_steps (steps : list AutomationStep)
| json_executions (l : list Stored)
| json_execution (e : Stored)
| json_templates (l : list Template)
| json_template (t : Template)
| json_session (s : Session)
| json_value (v : JsValue)
| json_error (error : string)
| json_validation_error (details : JsValue)
| json_internal_error (message : string)
| text_csv (csv : string)
| no_body.

Record Response : Type := mkResponse { status_code : Z; body : Body }.

(** The routes, with the parameters and the part of the body they read. *)
Inductive Request : Type :=
| GET_workflows
| GET_workflow (id : string)
| POST_workflows (body : JsValue)
| PATCH_workflow (id : string) (body : WorkflowPatch)
| DELETE_workflow (id : string)
| POST_workflows_parse (description : JsValue)
| POST_workflow_execute (id : string)
| GET_executions
| GET_execution (id : string)
| GET_workflow_executions (workflowId : string)
| GET_templates
| GET_template (id : string)
| POST_templates_use (templateId : JsValue)
| GET_session
| GET_export_json (id : string)
| GET_export_csv (id : string).

(** ** Text *)

(** The double quote and the line feed. *)
Definition double_quote : Ascii.ascii := Ascii.ascii_of_nat 34.
Definition quote : string := String double_quote "".
Definition line_feed : string := String (Ascii.ascii_of_nat 10) "".

(** [s.replace] with the global pattern of one double quote and the
    replacement of two: every double quote is doubled. *)
Fixpoint escape_quotes (s : string) : string :=
  match s with
  | EmptyString => ""
  | String c rest =>
      if Ascii.eqb c double_quote then String c (String c (escape_quotes rest))
      else String c (escape_quotes rest)
  end.

(** [l.join(sep)] on strings. *)
Fixpoint join (sep : string) (l : list string) : string :=
  match l with
  | [] => ""
  | [x] => x
  | x :: rest => x +:+ sep +:+ join sep rest
  end.

(** ** Objects *)

(** The position an index key names in something of length [len]. *)
Definition as_index (key : string) (len : nat) : option nat :=
  find (fun i => String.eqb (pretty i) key) (seq 0 len).

(** [Object.keys(v)]; the fields of an object are listed in the order
    of its keys. *)
Definition Object_keys (v : JsValue) : Result (list string) :=
  match v with
  | JUndefined | JNull => inr (TypeError "Cannot convert undefined or null to object")
  | JBool _ | JNum _ => inl []
  | JStr s => inl (map pretty (seq 0 (String.length s)))
  | JArr items => inl (map pretty (seq 0 (length items)))
  | JObj fields => inl (map fst fields)
  end.

(** The own property of [row] that [key] names, if there is one. *)
Definition own_property (row : JsValue) (key : string) : option JsValue :=
  match row with
  | JObj fields =>
      if existsb (String.eqb key) (map fst fields) then Some (assoc key fields) else None
  | JArr items =>
      if String.eqb key "length" then Some (JNum (Z.of_nat (length items)))
      else (fun i => nth i items JUndefined) <$> as_index key (length items)
  | JStr s =>
      if String.eqb key "length" then Some (JNum (Z.of_nat (String.length s)))
      else (fun i => js_index_opt row i) <$> as_index key (String.length s)
  | _ => None
  end.

Section WithWorld.
Variable w : World.

Abbreviation sw := (store_world w).

(** [String(row[header])], for the values the automation library returned;
    one that [ToString] refuses is not among them. *)
Definition cell_text (row : JsValue) (header : string) : Result string :=
  match row with
  | JUndefined | JNull =>
      inr (TypeError ("Cannot read properties of " +:+ js_to_string row +:+
                      " (reading '" +:+ header +:+ "')"))
  | _ =>
      inl match own_property row header with
          | Some value => js_to_string value
          | None => default "undefined" (inherited_text w row header)
          end
  end.

(** [headers.map(header => ...)] for one row. *)
Fixpoint csv_cells (row : JsValue) (headers : list string) : Result (list string) :=
  match headers with
  | [] => inl []
  | header :: rest =>
      match cell_text row header with
      | inr e => inr e
      | inl text =>
          match csv_cells row rest with
          | inr e => inr e
          | inl cells => inl ((quote +:+ escape_quotes text +:+ quote) :: cells)
          end
      end
  end.

(** The [for] loop over the rows. *)
Fixpoint csv_lines (headers : list string) (rows : list JsValue) : Result (list string) :=
  match rows with
  | [] => inl []
  | row :: rest =>
      match csv_cells row headers with
      | inr e => inr e
      | inl values =>
          match csv_lines headers rest with
          | inr e => inr e
          | inl lines => inl (join "," values :: lines)
          end
      end
  end.

(** The conversion of the CSV export, once the execution is found. *)
Definition csv_export (results : JsValue) : Result Response :=
  match results with
  | JArr [] => inl (mkResponse 400 (json_error "No data to export"))
  | JArr (first :: rest) =>
      match Object_keys first with
      | inr e => inr e
      | inl headers =>
          match csv_lines headers (first :: rest) with
          | inr e => inr e
          | inl lines => inl (mkResponse 200 (text_csv (join line_feed (join "," headers :: lines))))
          end
      end
  | _ => inl (mkResponse 400 (json_error "Results must be an array for CSV export"))
  end.

(** ** The parser of descriptions *)

(** [description.toLowerCase().includes(keyword)] *)
Definition mentions (description keyword : string) : bool :=
  includes keyword (toLowerCase w description).

(** The steps pushed so far, the counter [order], and the clock. *)
Record Draft : Type := mkDraft {
  drafted : list AutomationStep;
  next_order : nat;
  clock : nat;
}.

(** [if (wanted) steps.push({ id: `step-${Date.now()}-${order}`, ...,
     order: order++ })] *)
Definition push_when (wanted : bool) (type : StepType) (description : string)
           (config : list (string * JsValue)) (d : Draft) : Draft :=
  if wanted then
    mkDraft (drafted d ++
             [mkStep ("step-" +:+ pretty (MemStorage.Date_now sw (clock d)) +:+ "-" +:+
                      pretty (next_order d))
                     type description config (Z.of_nat (next_order d))])
            (S (next_order d)) (S (clock d))
  else d.

Definition keyword_steps (description : string) (now : nat) : Draft :=
  let says := mentions description in
  push_when (says "wait") wait "Wait for element or timeout" [("duration", JNum 1000)]
  (push_when (says "extract" || says "scrape") extract "Extract data from page"
             [("schema", JStr "{ data: string[] }")]
  (push_when (says "type" || says "enter") act "Type text into input field"
             [("action", JStr "Enter text into field")]
  (push_when (says "click") act "Click on element"
             [("action", JStr "Click the specified element")]
  (push_when (says "go to" || says "navigate") navigate "Navigate to target URL"
             [("url", JStr "{{TARGET_URL}}")]
  (mkDraft [] 0 now))))).

(** The steps the handler answers with, and the clock afterwards. *)
Definition parse_description (description : string) (now : nat) : list AutomationStep * nat :=
  let d := keyword_steps description now in
  match drafted d with
  | [] =>
      ([mkStep ("step-" +:+ pretty (MemStorage.Date_now sw (clock d)) +:+ "-0")
               agent description [("instruction", JStr description)] 0],
       S (clock d))
  | steps => (steps, clock d)
  end.

(** ** The handlers *)

Definition ok (b : Body) : Response := mkResponse 200 b.
Definition not_found (what : string) : Response :=
  mkResponse 404 (json_error (what +:+ " not found")).

(** The clock read by a handler itself. *)
Definition advance_clock (n : nat) (st : Store) : Store :=
  mkStore (workflows st) (executions st) (templates st) (session st) (uuids st) n.

(** [asyncHandler] hands what a handler throws to the error middleware. *)
Definition settle_response (r : Store * Result Response) : Store * Response :=
  match r with
  | (st, inl response) => (st, response)
  | (st, inr err) => (st, mkResponse 500 (json_internal_error (message err)))
  end.

Definition handle (request : Request) (st : Store) : Store * Response :=
  match request with
  | GET_workflows => (st, ok (json_workflows (getWorkflows st)))
  | GET_workflow id =>
      match getWorkflow id st with
      | None => (st, not_found "Workflow")
      | Some workflow => (st, ok (json_workflow workflow))
      end
  | POST_workflows body =>
      match insertWorkflowSchema_parse w body with
      | inr details => (st, mkResponse 400 (json_validation_error details))
      | inl validatedData =>
          let (st', workflow) := createWorkflow sw validatedData st in
          (st', mkResponse 201 (json_workflow workflow))
      end
  | PATCH_workflow id body =>
      match updateWorkflow sw id body st with
      | (st', None) => (st', not_found "Workflow")
      | (st', Some workflow) => (st', ok (json_workflow workflow))
      end
  | DELETE_workflow id =>
      match deleteWorkflow sw id st with
      | (st', false) => (st', not_found "Workflow")
      | (st', true) => (st', mkResponse 204 no_body)
      end
  | POST_workflows_parse description =>
      if truthy description then
        match description with
        | JStr text =>
            let (steps, now) := parse_description text (ticks st) in
            (advance_clock now st, ok (json_steps steps))
        | _ =>
            settle_response
              (st, inr (TypeError "description.toLowerCase is not a function"))
        end
      else (st, mkResponse 400 (json_error "Description is required"))
  | POST_workflow_execute id =>
      match getWorkflow id st with
      | None => (st, not_found "Workflow")
      | Some workflow =>
          let startedAt := MemStorage.Date_now sw (ticks st) in
          let (st', execution) :=
            createExecution sw
              (mkStored "" (wr_id workflow) queued (literal []) JNull None None
                        (Some startedAt) None None)
              (advance_clock (S (ticks st)) st) in
          (st', mkResponse 202 (json_execution execution))
      end
  | GET_executions => (st, ok (json_executions (getExecutions sw st)))
  | GET_execution id =>
      match getExecution id st with
      | None => (st, not_found "Execution")
      | Some execution => (st, ok (json_execution execution))
      end
  | GET_workflow_executions workflowId =>
      (st, ok (json_executions (getExecutionsByWorkflow sw workflowId st)))
  | GET_templates => (st, ok (json_templates (getTemplates st)))
  | GET_template id =>
      match getTemplate id st with
      | None => (st, not_found "Template")
      | Some template => (st, ok (json_template template))
      end
  | POST_templates_use templateId =>
      if truthy templateId then
        match match templateId with JStr id => getTemplate id st | _ => None end with
        | None => (st, not_found "Template")
        | Some template =>
            let (st', workflow) :=
              createWorkflow sw
                {| ins_name := tpl_name template +:+ " (from template)";
                   ins_description := Some (tpl_description template);
                   ins_steps := default [] (tpl_steps template);
                   ins_executionMode := sequential;
                   ins_browserConfig :=
                     Some {| headless := true;
                             viewport := Some {| width := 1920; height := 1080 |};
                             userAgent := None |} |}
                st in
            (st', mkResponse 201 (json_workflow workflow))
        end
      else (st, mkResponse 400 (json_error "Template ID is required"))
  | GET_session =>
      let (st', session) := getSession sw st in (st', ok (json_session session))
  | GET_export_json id =>
      match getExecution id st with
      | None => (st, not_found "Execution")
      | Some execution => (st, ok (json_value (js_or (st_results execution) (JObj []))))
      end
  | GET_export_csv id =>
      match getExecution id st with
      | None => (st, not_found "Execution")
      | Some execution => settle_response (st, csv_export (st_results execution))
      end
  end.

End WithWorld.

End Api.

(* ================================================================== *)
(** * Properties of the gateway client                                  *)
(* ================================================================== *)

Module GatewayFacts.
Import Gateway.

(** The loop's own test for an authorisation failure. *)
Definition unauthorized (e : JsError) : bool := includes "Unauthorized" (message e).

(** What the [n]-th request of a client running model [m] comes to. *)
Definition outcome_of (w : World) (m : string) (n : nat) : Result LLMResponse :=
  snd (attempt w (mkClient m None None 0 n)).

(** The retry policy, read off the amended claim: [policy w m b n f n' f' r]
    says that with [b] units of budget left, [n] requests and [f] token
    fetches made so far, the call ends with [r] after [n'] requests and
    [f'] fetches in total. *)
Inductive policy (w : World) (m : string) :
  nat -> nat -> nat -> nat -> nat -> Result LLMResponse -> Prop :=
| policy_exhausted n f :
    policy w m 0 n f n f (inr (Error "Max retries exceeded"))
| policy_success b n f resp :
    outcome_of w m n = inl resp ->
    policy w m (S b) n f (S n) f (inl resp)
| policy_retry b n f e n' f' r :
    outcome_of w m n = inr e -> unauthorized e = false ->
    policy w m b (S n) f n' f' r ->
    policy w m (S b) n f n' f' r
| policy_unauthorized_last n f e :
    outcome_of w m n = inr e -> unauthorized e = true ->
    policy w m 1 n f (S n) f (inr e)
| policy_refresh b n f e t n' f' r :
    outcome_of w m n = inr e -> unauthorized e = true ->
    token_script w f = inl t ->
    policy w m (S b) (S n) (S f) n' f' r ->
    policy w m (S (S b)) n f n' f' r
| policy_refresh_failed b n f e tokenError :
    outcome_of w m n = inr e -> unauthorized e = true ->
    token_script w f = inr tokenError ->
    policy w m (S (S b)) n f (S n) (S f) (inr tokenError).

(** A world whose gateway answers 401 to everything. *)
Definition always_401 : World :=
  {| token_script := fun _ => inl {| access_token := "t"; tr_baseURL := None |};
     network := fun _ => Response 401 "expired";
     JSON_parse := fun _ => Some (JObj []);
     Date_now := fun _ => 0 |}.

(** A world whose gateway rejects the first token and accepts the second. *)
Definition expired_once : World :=
  {| token_script := fun _ => inl {| access_token := "fresh"; tr_baseURL := None |};
     network := fun n => match n with
                         | O => Response 401 "expired"
                         | _ => Response 200 "{}"
                         end;
     JSON_parse := fun _ => Some (JObj []);
     Date_now := fun _ => 0 |}.

Definition has_token : Client := mkClient "m" (Some "stale") None 0 0.

Lemma attempt_outcome w c :
  snd (attempt w c) = outcome_of w (actualModelName c) (requests c).
Proof.
  unfold outcome_of, attempt, makeRequest; simpl.
  destruct (network w (requests c)) as [code body|err]; simpl; [|done].
  destruct (negb (code =? 0) && (200 <=? code) && (code <? 300)); simpl.
  - by destruct (JSON_parse w body).
  - by destruct (code =? 401).
Qed.

Lemma attempt_counters w c :
  let c1 := fst (attempt w c) in
  requests c1 = S (requests c) /\ fetches c1 = fetches c /\
  actualModelName c1 = actualModelName c.
Proof.
  unfold attempt, makeRequest; simpl.
  destruct (network w (requests c)) as [code body|err]; simpl; [|done].
  destruct (negb (code =? 0) && (200 <=? code) && (code <? 300)); simpl.
  - by destruct (JSON_parse w body).
  - by destruct (code =? 401).
Qed.

Lemma retry_loop_policy w b c :
  let cr := retry_loop w b c in
  policy w (actualModelName c) b (requests c) (fetches c)
         (requests (fst cr)) (fetches (fst cr)) (snd cr).
Proof.
  revert c; induction b as [|b IH]; intros c.
  { constructor. }
  cbn [retry_loop].
  pose proof (attempt_outcome w c) as Hout.
  pose proof (attempt_counters w c) as (Hreq & Hfet & Hmod).
  destruct (attempt w c) as [c1 [resp|e]]; cbn [fst snd] in *; symmetry in Hout.
  { rewrite Hreq, Hfet. by constructor. }
  fold (unauthorized e). destruct (unauthorized e) eqn:Hu.
  - destruct b as [|b'].
    { cbn [fst snd]. rewrite Hreq, Hfet. by eapply policy_unauthorized_last. }
    unfold fetchOAuthConfig.
    destruct (token_script w (fetches c1)) as [t|te] eqn:Ht; rewrite Hfet in Ht.
    + eapply policy_refresh; eauto.
      match goal with |- context [retry_loop w _ ?c'] => pose proof (IH c') as IH' end.
      cbn [set_token actualModelName requests fetches] in IH'.
      by rewrite ?Hreq, ?Hfet, ?Hmod in IH' |- *.
    + cbn [fst snd requests fetches]. rewrite Hreq, Hfet.
      by eapply policy_refresh_failed.
  - replace (S b <=? 0)%nat with false by done.
    eapply policy_retry; eauto.
    pose proof (IH c1) as IH'. by rewrite Hreq, Hfet, Hmod in IH'.
Qed.

Lemma policy_budget w m b n f n' f' r :
  policy w m b n f n' f' r -> (n' <= n + b /\ f' <= f + (b - 1) /\ n <= n' /\ f <= f')%nat.
Proof. induction 1; lia. Qed.

Lemma createChatCompletion_ready w c c0 :
  ensure_token w c = (c0, inl tt) -> createChatCompletion w c = retry_loop w 3 c0.
Proof. unfold createChatCompletion. by intros ->. Qed.

(** A failure of the first token fetch fails the call at once: no request is
    sent. *)
Lemma createChatCompletion_token_failure w c c0 err :
  ensure_token w c = (c0, inr err) ->
  createChatCompletion w c = (c0, inr err) /\ requests c0 = requests c.
Proof.
  unfold createChatCompletion. intros H; rewrite H. split; [done|].
  unfold ensure_token, fetchOAuthConfig in H.
  destruct (no_token c); [|done].
  destruct (token_script w (fetches c)); [done|].
  by injection H as <- _.
Qed.

Lemma outcome_401 w m n body :
  network w n = Response 401 body ->
  exists e, outcome_of w m n = inr e /\ unauthorized e = true.
Proof.
  intros H. unfold outcome_of, attempt, makeRequest; cbn [requests]. rewrite H.
  eexists; split; [reflexivity|reflexivity].
Qed.

Lemma outcome_2xx w m n code body data :
  network w n = Response code body -> 200 <= code < 300 ->
  JSON_parse w body = Some data -> absent data = false ->
  exists resp, outcome_of w m n = inl resp.
Proof.
  intros H Hc Hp Ha. unfold outcome_of, attempt, makeRequest; cbn [requests]. rewrite H.
  replace (negb (code =? 0) && (200 <=? code) && (code <? 300)) with true
    by (symmetry; rewrite !andb_true_iff, negb_true_iff; lia).
  rewrite Hp. unfold format_response. rewrite Ha, andb_false_r. eauto.
Qed.

Lemma policy_deterministic w m b n f n1 f1 r1 n2 f2 r2 :
  policy w m b n f n1 f1 r1 -> policy w m b n f n2 f2 r2 ->
  n1 = n2 /\ f1 = f2 /\ r1 = r2.
Proof.
  intros H1; revert n2 f2 r2.
  induction H1; intros n2 f2 r2 P2; inversion P2; subst;
    try done; try congruence;
    repeat match goal with
    | A : ?x = inl _, B : ?x = inr _ |- _ => congruence
    | A : ?x = inl ?a, B : ?x = inl ?b |- _ =>
        assert (a = b) by congruence; subst; clear B
    | A : ?x = inr ?a, B : ?x = inr ?b |- _ =>
        assert (a = b) by congruence; subst; clear B
    end; try congruence; eauto.
Qed.

(** C5: the claim fails where the budget runs out on an authorisation
    failure.  Three 401 replies in a row use up the three attempts, and the
    call then raises the last [Unauthorized] error itself, not the
    retry-exhausted failure. *)
Lemma gateway_exhausted_by_401_rethrows :
  let c' := fst (createChatCompletion always_401 has_token) in
  let r := snd (createChatCompletion always_401 has_token) in
  requests c' = 3%nat /\
  r = inr (Error "Unauthorized – token expired or invalid: expired") /\
  r <> inr (Error "Max retries exceeded").
Proof. vm_compute. repeat split; congruence. Qed.

(** C5 (amended): once the client holds a token (the one it had, or the one
    fetched on entry), [createChatCompletion] follows the retry policy: three attempts in all; a failure reported as
    [Unauthorized] with budget left refreshes the token and retries, any
    other failure retries without a refresh, every failure costs one unit;
    when the budget is used up the call raises ['Max retries exceeded']
    after a non-auth failure and the [Unauthorized] error itself after an
    authorisation failure.  In particular a 401 followed by a well-formed
    2xx reply succeeds after exactly two requests and one refresh, and
    three non-auth failures in a row raise ['Max retries exceeded'] after
    exactly three requests and no refresh. *)
Theorem gateway_retry_policy (w : World) (c c0 : Client) :
  ensure_token w c = (c0, inl tt) ->
  let c' := fst (createChatCompletion w c) in
  let r := snd (createChatCompletion w c) in
  let n := requests c0 in
  let f := fetches c0 in
  let m := actualModelName c0 in
  policy w m 3 n f (requests c') (fetches c') r
  /\ (requests c' <= n + 3 /\ fetches c' <= f + 2)%nat
  /\ (forall body1 t code body2 data,
        network w n = Response 401 body1 ->
        token_script w f = inl t ->
        network w (S n) = Response code body2 -> 200 <= code < 300 ->
        JSON_parse w body2 = Some data -> absent data = false ->
        (exists resp, r = inl resp) /\
        requests c' = (n + 2)%nat /\ fetches c' = (f + 1)%nat)
  /\ (forall e0 e1 e2,
        outcome_of w m n = inr e0 -> unauthorized e0 = false ->
        outcome_of w m (S n) = inr e1 -> unauthorized e1 = false ->
        outcome_of w m (S (S n)) = inr e2 -> unauthorized e2 = false ->
        r = inr (Error "Max retries exceeded") /\
        requests c' = (n + 3)%nat /\ fetches c' = f).
Proof.
  intros Htok; cbn zeta.
  rewrite (createChatCompletion_ready w c c0 Htok).
  pose proof (retry_loop_policy w 3 c0) as P; cbn zeta in P.
  split; [exact P|]. split.
  { apply policy_budget in P. lia. }
  split.
  - intros body1 t code body2 data H1 Ht H2 Hc Hp Ha.
    destruct (outcome_401 w (actualModelName c0) _ _ H1) as (e & He & Hu).
    destruct (outcome_2xx w (actualModelName c0) _ _ _ _ H2 Hc Hp Ha) as (resp & Hr).
    assert (Q : policy w (actualModelName c0) 3 (requests c0) (fetches c0)
                  (S (S (requests c0))) (S (fetches c0)) (inl resp)).
    { eapply policy_refresh; eauto. by apply policy_success. }
    destruct (policy_deterministic _ _ _ _ _ _ _ _ _ _ _ P Q) as (-> & -> & ->).
    split; [eauto|lia].
  - intros e0 e1 e2 H0 U0 H1 U1 H2 U2.
    assert (Q : policy w (actualModelName c0) 3 (requests c0) (fetches c0)
                  (S (S (S (requests c0)))) (fetches c0)
                  (inr (Error "Max retries exceeded"))).
    { do 3 (eapply policy_retry; eauto). constructor. }
    destruct (policy_deterministic _ _ _ _ _ _ _ _ _ _ _ P Q) as (-> & -> & ->).
    split; [done|lia].
Qed.

Lemma gateway_retry_policy_witness :
  ensure_token expired_once has_token = (has_token, inl tt) /\
  policy expired_once "m" 3 0 0
    (requests (fst (createChatCompletion expired_once has_token)))
    (fetches (fst (createChatCompletion expired_once has_token)))
    (snd (createChatCompletion expired_once has_token)).
Proof.
  split; [reflexivity|].
  exact (proj1 (gateway_retry_policy expired_once has_token has_token eq_refl)).
Defined.

End GatewayFacts.

(* ================================================================== *)
(** * Properties of the executor                                        *)
(* ================================================================== *)

Module ExecutorFacts.
Import Executor.

#[local] Arguments String.append : simpl never.
#[local] Arguments pretty : simpl never.
#[local] Arguments Executor.step_outcome : simpl never.
#[local] Arguments Executor.init_outcome : simpl never.

Section Generic.
Variable w : World.
Variable executionId : string.

Abbreviation run := (run w executionId).
Abbreviation advance := (advance w executionId).
Abbreviation apply_op := (apply_op w executionId).

(** ** Running composed bodies *)

Lemma run_settle {A B} (p : Proc A) (k : Result A -> Proc B) s :
  run (settle p k) s = let (s', r) := run p s in run (k r) s'.
Proof. revert s; induction p; intros s; simpl; auto. Qed.

Lemma run_bind {A B} (p : Proc A) (f : A -> Proc B) s :
  run (bind p f) s =
  match run p s with
  | (s', inl a) => run (f a) s'
  | (s', inr e) => (s', inr e)
  end.
Proof.
  unfold bind. rewrite run_settle. destruct (run p s) as [s' [a|e]]; done.
Qed.

Lemma run_try_catch {A} (p : Proc A) (h : JsError -> Proc A) s :
  run (try_catch p h) s =
  match run p s with
  | (s', inl a) => (s', inl a)
  | (s', inr e) => run (h e) s'
  end.
Proof.
  unfold try_catch. rewrite run_settle. destruct (run p s) as [s' [a|e]]; done.
Qed.

Lemma run_await {A} (p : Proc A) s : run (await p) s = run p s.
Proof.
  unfold await. rewrite run_settle. destruct (run p s) as [s' [a|e]]; done.
Qed.

Lemma run_of_result {A} (r : Result A) s : run (of_result r) s = (s, r).
Proof. by destruct r. Qed.

(** ** What every operation of a body satisfies *)

Fixpoint every_op {A} (Q : Op -> Prop) (p : Proc A) : Prop :=
  match p with
  | Ret _ | Throw _ => True
  | Do o k => Q o /\ every_op Q k
  | Get k => forall s, every_op Q (k s)
  | Await k => every_op Q k
  end.

Lemma every_op_settle {A B} Q (p : Proc A) (k : Result A -> Proc B) :
  every_op Q p -> (forall r, every_op Q (k r)) -> every_op Q (settle p k).
Proof. induction p; simpl; intros Hp Hk; auto. destruct Hp; auto. Qed.

Lemma every_op_bind {A B} Q (p : Proc A) (f : A -> Proc B) :
  every_op Q p -> (forall a, every_op Q (f a)) -> every_op Q (bind p f).
Proof. intros Hp Hf. apply every_op_settle; [done|]. intros [a|e]; simpl; auto. Qed.

Lemma every_op_try_catch {A} Q (p : Proc A) (h : JsError -> Proc A) :
  every_op Q p -> (forall e, every_op Q (h e)) -> every_op Q (try_catch p h).
Proof. intros Hp Hh. apply every_op_settle; [done|]. intros [a|e]; simpl; auto. Qed.

Lemma every_op_of_result {A} Q (r : Result A) : every_op Q (of_result r).
Proof. by destruct r. Qed.

Lemma every_op_await {A} Q (p : Proc A) : every_op Q p -> every_op Q (await p).
Proof.
  intros Hp. apply every_op_settle; [done|]. intros r; simpl. apply every_op_of_result.
Qed.

Lemma every_op_weaken {A} (Q Q' : Op -> Prop) (p : Proc A) :
  (forall o, Q o -> Q' o) -> every_op Q p -> every_op Q' p.
Proof. intros HQ. induction p; simpl; intros Hp; auto. destruct Hp; auto. Qed.

(** ** Frames: a relation between states that every allowed operation
    respects is respected by running, by advancing and by interleaving. *)

Section Frame.
Variable Q : Op -> Prop.
Variable R : State -> State -> Prop.
Hypothesis R_refl : forall s, R s s.
Hypothesis R_trans : forall s1 s2 s3, R s1 s2 -> R s2 s3 -> R s1 s3.
Hypothesis R_op : forall o s, Q o -> R s (apply_op o s).

Lemma run_frame {A} (p : Proc A) s : every_op Q p -> R s (run p s).1.
Proof.
  revert s; induction p as [a|e|o k IH|k IH|k IH]; intros s Hp; simpl in *; auto.
  destruct Hp as [Ho Hk]. eapply R_trans; [by apply R_op|]. by apply IH.
Qed.

Lemma advance_frame {A} (p : Proc A) s :
  every_op Q p -> R s (advance p s).1 /\ every_op Q (advance p s).2.
Proof.
  revert s; induction p as [a|e|o k IH|k IH|k IH]; intros s Hp; simpl in *; auto.
  destruct Hp as [Ho Hk]. destruct (IH (apply_op o s) Hk) as [H1 H2].
  split; [|done]. eapply R_trans; [by apply R_op|done].
Qed.

Lemma launch_frame {A} (ps : list (Proc A)) s :
  Forall (every_op Q) ps ->
  R s (launch w executionId ps s).1 /\ Forall (every_op Q) (launch w executionId ps s).2.
Proof.
  revert s; induction ps as [|p ps IH]; intros s Hps; simpl; [auto|].
  inversion Hps as [|? ? Hp Hrest]; subst.
  destruct (advance_frame p s Hp) as [H1 H2].
  destruct (advance p s) as [s1 p']; simpl in *.
  destruct (IH s1 Hrest) as [H3 H4].
  destruct (launch w executionId ps s1) as [s2 rest']; simpl in *.
  split; [eauto|by constructor].
Qed.

Lemma resume_frame {A} schedule (pool : list (Proc A)) s :
  Forall (every_op Q) pool ->
  R s (resume w executionId schedule pool s).1 /\
  Forall (every_op Q) (resume w executionId schedule pool s).2.
Proof.
  revert pool s; induction schedule as [|i later IH]; intros pool s Hpool; simpl; [auto|].
  destruct (pool !! i) as [p|] eqn:Hi; [|by apply IH].
  assert (Hp : every_op Q p) by (eapply Forall_lookup_1; eauto).
  destruct (advance_frame p s Hp) as [H1 H2].
  destruct (advance p s) as [s' p']; simpl in *.
  destruct (IH (<[i:=p']> pool) s') as [H3 H4]; [by apply Forall_insert|].
  split; [eauto|done].
Qed.

Lemma drain_frame {A} (pool : list (Proc A)) s :
  Forall (every_op Q) pool -> R s (drain w executionId pool s).1.
Proof.
  revert s; induction pool as [|p pool IH]; intros s Hpool; simpl; [auto|].
  inversion Hpool as [|? ? Hp Hrest]; subst.
  pose proof (run_frame p s Hp) as H1.
  destruct (run p s) as [s1 r]; simpl in *.
  pose proof (IH s1 Hrest) as H2.
  destruct (drain w executionId pool s1) as [s2 rs]; simpl in *. eauto.
Qed.

Lemma allSettled_frame {A} schedule (ps : list (Proc A)) s :
  Forall (every_op Q) ps -> R s (allSettled w executionId schedule ps s).1.
Proof.
  intros Hps. unfold allSettled.
  destruct (launch_frame ps s Hps) as [H1 H2].
  destruct (launch w executionId ps s) as [s1 pool]; simpl in *.
  destruct (resume_frame schedule pool s1 H2) as [H3 H4].
  destruct (resume w executionId schedule pool s1) as [s2 pool']; simpl in *.
  pose proof (drain_frame pool' s2 H4). eauto.
Qed.

End Frame.

(** ** Bodies that settle the same way under every interleaving *)

(** The operations that leave [this.stagehand] and [this.startTime] alone. *)
Definition quiet (o : Op) : Prop :=
  match o with
  | op_stagehand _ | op_startTime => False
  | _ => True
  end.

Definition kept (s s' : State) : Prop :=
  stagehand s' = stagehand s /\ startTime s' = startTime s.

Lemma kept_refl s : kept s s.
Proof. done. Qed.

Lemma kept_trans s1 s2 s3 : kept s1 s2 -> kept s2 s3 -> kept s1 s3.
Proof. unfold kept. intros [-> ->] [-> ->]. done. Qed.

Lemma kept_op o s : quiet o -> kept s (apply_op o s).
Proof. by destruct o. Qed.

(** [ends p r]: [p] is quiet and settles with [r], whatever it reads
    while the session is there. *)
Fixpoint ends {A} (p : Proc A) (r : Result A) : Prop :=
  match p with
  | Ret a => r = inl a
  | Throw e => r = inr e
  | Do o k => quiet o /\ ends k r
  | Get k => forall s, stagehand s <> None -> ends (k s) r
  | Await k => ends k r
  end.

Lemma ends_quiet {A} (p : Proc A) r : ends p r -> forall s, stagehand s <> None ->
  kept s (run p s).1 /\ (run p s).2 = r.
Proof.
  induction p as [a|e|o k IH|k IH|k IH]; simpl; intros Hp s Hs.
  - done.
  - done.
  - destruct Hp as [Ho Hk].
    pose proof (kept_op o s Ho) as Hop.
    destruct (IH Hk (apply_op o s)) as [H1 H2].
    { destruct Hop as [-> _]. done. }
    split; [|done]. eapply kept_trans; eauto.
  - auto.
  - auto.
Qed.

Lemma ends_advance {A} (p : Proc A) r s :
  ends p r -> stagehand s <> None ->
  kept s (advance p s).1 /\ ends (advance p s).2 r.
Proof.
  revert s; induction p as [a|e|o k IH|k IH|k IH]; simpl; intros s Hp Hs.
  - done.
  - done.
  - destruct Hp as [Ho Hk].
    pose proof (kept_op o s Ho) as Hop.
    destruct (IH (apply_op o s) Hk) as [H1 H2].
    { destruct Hop as [-> _]. done. }
    split; [|done]. eapply kept_trans; eauto.
  - auto.
  - done.
Qed.

Lemma ends_settle {A B} (p : Proc A) (k : Result A -> Proc B) r' r :
  ends p r' -> ends (k r') r -> ends (settle p k) r.
Proof.
  induction p as [a|e|o q IH|q IH|q IH]; simpl; intros Hp Hk; subst; auto.
  destruct Hp; auto.
Qed.

Lemma ends_launch {A} (ps : list (Proc A)) rs s :
  Forall2 ends ps rs -> stagehand s <> None ->
  kept s (launch w executionId ps s).1 /\
  Forall2 ends (launch w executionId ps s).2 rs.
Proof.
  intros H; revert s; induction H as [|p r ps rs Hp Hrest IH]; intros s Hs; simpl.
  { split; [done|constructor]. }
  destruct (ends_advance p r s Hp Hs) as [H1 H2].
  destruct (advance p s) as [s1 p']; simpl in *.
  destruct (IH s1) as [H3 H4]; [by destruct H1 as [-> _]|].
  destruct (launch w executionId ps s1) as [s2 rest']; simpl in *.
  split; [eapply kept_trans; eauto|by constructor].
Qed.

Lemma ends_resume {A} schedule (pool : list (Proc A)) rs s :
  Forall2 ends pool rs -> stagehand s <> None ->
  kept s (resume w executionId schedule pool s).1 /\
  Forall2 ends (resume w executionId schedule pool s).2 rs.
Proof.
  revert pool s; induction schedule as [|i later IH]; intros pool s Hpool Hs; simpl.
  { done. }
  destruct (pool !! i) as [p|] eqn:Hi; [|by apply IH].
  destruct (Forall2_lookup_l _ _ _ _ _ Hpool Hi) as (r & Hr & Hp).
  destruct (ends_advance p r s Hp Hs) as [H1 H2].
  destruct (advance p s) as [s' p']; simpl in *.
  destruct (IH (<[i:=p']> pool) s') as [H3 H4].
  - rewrite <- (list_insert_id rs i r Hr). by apply Forall2_insert.
  - by destruct H1 as [-> _].
  - split; [eapply kept_trans; eauto|done].
Qed.

Lemma ends_drain {A} (pool : list (Proc A)) rs s :
  Forall2 ends pool rs -> stagehand s <> None ->
  kept s (drain w executionId pool s).1 /\ (drain w executionId pool s).2 = rs.
Proof.
  intros H; revert s; induction H as [|p r ps rs Hp Hrest IH]; intros s Hs; simpl.
  { done. }
  destruct (ends_quiet p r Hp s Hs) as [H1 H2].
  destruct (run p s) as [s1 r1]; simpl in *; subst r1.
  destruct (IH s1) as [H3 H4]; [by destruct H1 as [-> _]|].
  destruct (drain w executionId ps s1) as [s2 rs']; simpl in *; subst rs'.
  split; [eapply kept_trans; eauto|done].
Qed.

(** Whatever the schedule, [allSettled] hands back the outcome of each
    body at the position of that body. *)
Lemma ends_allSettled {A} schedule (ps : list (Proc A)) rs s :
  Forall2 ends ps rs -> stagehand s <> None ->
  kept s (allSettled w executionId schedule ps s).1 /\
  (allSettled w executionId schedule ps s).2 = rs.
Proof.
  intros Hps Hs. unfold allSettled.
  destruct (ends_launch ps rs s Hps Hs) as [H1 H2].
  destruct (launch w executionId ps s) as [s1 pool]; simpl in *.
  assert (Hs1 : stagehand s1 <> None) by (by destruct H1 as [-> _]).
  destruct (ends_resume schedule pool rs s1 H2 Hs1) as [H3 H4].
  destruct (resume w executionId schedule pool s1) as [s2 pool']; simpl in *.
  assert (Hs2 : stagehand s2 <> None) by (by destruct H3 as [-> _]).
  destruct (ends_drain pool' rs s2 H4 Hs2) as [H5 H6].
  split; [|done]. eapply kept_trans; [|exact H5]. eapply kept_trans; eauto.
Qed.

Definition settles {A} (p : Proc A) : Prop := exists r, ends p r.

Lemma settles_ret {A} (a : A) : settles (Ret a).
Proof. by exists (inl a). Qed.

Lemma settles_throw {A} e : settles (@Throw A e).
Proof. by exists (inr e). Qed.

Lemma settles_do {A} o (k : Proc A) : quiet o -> settles k -> settles (Do o k).
Proof. intros Ho [r Hr]. by exists r. Qed.

Lemma settles_pause {A} (k : Proc A) : settles k -> settles (Await k).
Proof. intros [r Hr]. by exists r. Qed.

Lemma settles_settle {A B} (p : Proc A) (k : Result A -> Proc B) :
  settles p -> (forall r, settles (k r)) -> settles (settle p k).
Proof.
  intros [r' Hp] Hk. destruct (Hk r') as [r Hr]. exists r. by eapply ends_settle.
Qed.

Lemma settles_of_result {A} (r : Result A) : settles (of_result r).
Proof. destruct r; [apply settles_ret|apply settles_throw]. Qed.

Lemma settles_bind {A B} (p : Proc A) (f : A -> Proc B) :
  settles p -> (forall a, settles (f a)) -> settles (bind p f).
Proof.
  intros Hp Hf. apply settles_settle; [done|]. intros [a|e]; [done|apply settles_throw].
Qed.

Lemma settles_try_catch {A} (p : Proc A) (h : JsError -> Proc A) :
  settles p -> (forall e, settles (h e)) -> settles (try_catch p h).
Proof.
  intros Hp Hh. apply settles_settle; [done|]. intros [a|e]; [apply settles_ret|done].
Qed.

Lemma settles_await {A} (p : Proc A) : settles p -> settles (await p).
Proof.
  intros Hp. apply settles_settle; [done|].
  intros r. apply settles_pause, settles_of_result.
Qed.

Lemma settles_addLog level category message : settles (addLog level category message).
Proof. by exists (inl tt). Qed.

Lemma settles_addLog_of level category message :
  settles (addLog_of level category message).
Proof.
  unfold addLog_of. apply settles_bind; [apply settles_of_result|].
  intros text. apply settles_addLog.
Qed.

Lemma settles_llmClient c : settles (llmClient w c).
Proof.
  unfold llmClient. apply settles_try_catch.
  - apply settles_bind; [apply settles_await, settles_of_result|].
    intros response. apply settles_bind; [|intros _; apply settles_ret].
    apply settles_do; [done|apply settles_of_result].
  - intros e. apply settles_bind; [apply settles_addLog|]. intros _. apply settles_throw.
Qed.

Lemma ends_consult {A} cs (k : Proc A) r : ends k r -> ends (consult w cs k) r.
Proof.
  intros Hk. induction cs as [|c cs IH]; simpl; [done|].
  destruct (settles_llmClient c) as [r' Hr']. by eapply ends_settle.
Qed.

Lemma ends_ask i c : ends (ask w i c) (answer (capability w i)).
Proof.
  unfold ask; simpl. split; [done|]. apply ends_consult. simpl.
  by destruct (answer (capability w i)).
Qed.

Lemma settles_ask i c : settles (ask w i c).
Proof. eexists. apply ends_ask. Qed.

Create HintDb settles.
#[local] Hint Resolve settles_ret settles_throw settles_pause settles_of_result
  settles_await settles_addLog settles_addLog_of settles_ask : settles.

Ltac settles_step :=
  first
    [ solve [eauto with settles]
    | simple apply @settles_bind; [|intros ?]
    | simple apply @settles_try_catch; [|intros ?]
    | simple apply @settles_do; [exact I|] ].

Lemma dispatch_settles i step : settles (dispatch w i step).
Proof.
  unfold dispatch.
  destruct (type step); unfold executeNavigate, executeAct, executeExtract,
    executeObserve, executeAgent, executeWait, executeScreenshot, executeScroll;
    try apply settles_await;
    repeat first [ settles_step
                 | match goal with
                   | |- settles (if ?b then _ else _) => destruct b
                   end ].
Qed.

Lemma executeStep_settles i step : settles (executeStep w i step).
Proof.
  destruct (dispatch_settles i step) as [r Hr].
  assert (H : settles
    (bind (addLog lvl_info "step"
             ("Executing step " +:+ step_number step +:+ ": " +:+
              step_type_name (type step) +:+ " - " +:+ description step))
       (fun _ => try_catch
          (bind (dispatch w i step) (fun result =>
             bind (addLog lvl_success "step"
                     ("Step " +:+ step_number step +:+ " completed successfully"))
                  (fun _ => Ret result)))
          (fun error =>
             bind (addLog lvl_error "step"
                     ("Step " +:+ step_number step +:+ " failed: " +:+ message error))
                  (fun _ => Throw error))))).
  { repeat settles_step. by exists r. }
  destruct H as [r' Hr']. exists r'. unfold executeStep. simpl.
  intros s Hs. destruct (stagehand s); done.
Qed.

(** Each step settles with its [step_outcome], in every interleaving. *)
Lemma executeStep_ends i step : ends (executeStep w i step) (step_outcome w executionId i step).
Proof.
  destruct (executeStep_settles i step) as [r Hr].
  destruct (ends_quiet _ _ Hr during) as [_ H]; [done|].
  unfold step_outcome. by rewrite H.
Qed.

Lemma positions_end todo i :
  Forall2 ends (imap (fun j => executeStep w (i + j)) todo)
               (imap (fun j => step_outcome w executionId (i + j)) todo).
Proof.
  revert i; induction todo as [|step todo IH]; intros i; simpl; [constructor|].
  constructor; [apply executeStep_ends|].
  rewrite (imap_ext _ (fun j => executeStep w (S i + j)) todo),
          (imap_ext _ (fun j => step_outcome w executionId (S i + j)) todo).
  - apply IH.
  - intros j x _. simpl. f_equal. lia.
  - intros j x _. simpl. f_equal. lia.
Qed.

(** ** What a body adds to the wire *)

Definition extends (P : Effect -> Prop) (s s' : State) : Prop :=
  exists added, wire s' = wire s ++ added /\ Forall P added.

(** The effects of [addLog] for one entry. *)
Definition log_effects (l : LogEntry) : list Effect :=
  [io_emit (execution_log executionId l); persistLogsToStorage].

Definition permits (P : Effect -> Prop) (o : Op) : Prop :=
  match o with
  | op_addLog level category message =>
      forall t, Forall P (log_effects (mkLog t level category message))
  | op_effect e => P e
  | op_usage u => P (gateway_usage u)
  | op_stagehand _ | op_startTime | op_tick => True
  end.

Lemma extends_refl P s : extends P s s.
Proof. exists []. by rewrite app_nil_r. Qed.

Lemma extends_trans P s1 s2 s3 : extends P s1 s2 -> extends P s2 s3 -> extends P s1 s3.
Proof.
  intros (a & Ha & Pa) (b & Hb & Pb). exists (a ++ b).
  rewrite Hb, Ha, app_assoc. split; [done|by apply Forall_app].
Qed.

Lemma extends_op P o s : permits P o -> extends P s (apply_op o s).
Proof.
  destruct o; simpl; intros H.
  - eexists; split; [reflexivity|apply H].
  - eexists; split; [reflexivity|by constructor].
  - eexists; split; [reflexivity|by constructor].
  - exists []. by rewrite app_nil_r.
  - exists []. by rewrite app_nil_r.
  - exists []. by rewrite app_nil_r.
Qed.

(** The entries the wire carries, in order. *)
Definition logged (ws : list Effect) : list LogEntry :=
  omap (fun e => match e with
                 | io_emit (execution_log _ l) => Some l
                 | _ => None
                 end) ws.

(** The usage counts of the gateway responses the wire carries. *)
Definition usages (ws : list Effect) : list Gateway.Usage :=
  omap (fun e => match e with gateway_usage u => Some u | _ => None end) ws.

(** The executor's array and totals are what the wire says. *)
Definition consistent (s : State) : Prop :=
  logs s = logged (wire s) /\
  tokenUsage s = fold_left (fun t u => (track w u t).1) (usages (wire s)) no_usage.

Lemma logged_app a b : logged (a ++ b) = logged a ++ logged b.
Proof. apply omap_app. Qed.

Lemma usages_app a b : usages (a ++ b) = usages a ++ usages b.
Proof. apply omap_app. Qed.

(** The operations of the source: a log entry reaches the channel only
    through [addLog], a usage count only through the tracking lines. *)
Definition honest (o : Op) : Prop :=
  match o with
  | op_effect (io_emit (execution_log _ _)) | op_effect (gateway_usage _) => False
  | _ => True
  end.

Lemma consistent_op o s : honest o -> consistent s -> consistent (apply_op o s).
Proof.
  intros Ho [HL HU].
  destruct o as [level category message|e|u|h| |]; split; simpl;
    rewrite ?logged_app, ?usages_app, ?fold_left_app, <- ?HL, <- ?HU; simpl;
    rewrite ?app_nil_r; try done.
  - destruct e as [[]| | | | | | | | |]; simpl in *; rewrite ?app_nil_r; done.
  - destruct e as [[]| | | | | | | | |]; simpl in *; rewrite ?app_nil_r; done.
Qed.

Lemma consistent_fresh : consistent fresh.
Proof. done. Qed.

Definition stays_consistent (s s' : State) : Prop := consistent s -> consistent s'.

Lemma run_consistent {A} (p : Proc A) s :
  every_op honest p -> consistent s -> consistent (run p s).1.
Proof.
  apply (run_frame honest stays_consistent); unfold stays_consistent; auto.
  intros o s0 Ho. by apply consistent_op.
Qed.

Lemma allSettled_consistent {A} schedule (ps : list (Proc A)) s :
  Forall (every_op honest) ps ->
  consistent s -> consistent (allSettled w executionId schedule ps s).1.
Proof.
  apply (allSettled_frame honest stays_consistent); unfold stays_consistent; auto.
  intros o s0 Ho. by apply consistent_op.
Qed.

(** ** The operations of the methods *)

Lemma every_op_addLog Q level category message :
  Q (op_addLog level category message) -> every_op Q (addLog level category message).
Proof. by split. Qed.

Lemma every_op_addLog_of Q level category message :
  (forall text, Q (op_addLog level category text)) ->
  every_op Q (addLog_of level category message).
Proof.
  intros H. unfold addLog_of. apply every_op_bind; [apply every_op_of_result|].
  intros text. by apply every_op_addLog.
Qed.

Lemma every_op_do {A} (Q : Op -> Prop) o (k : Proc A) :
  Q o -> every_op Q k -> every_op Q (Do o k).
Proof. by split. Qed.

Lemma every_op_pause {A} (Q : Op -> Prop) (k : Proc A) : every_op Q k -> every_op Q (Await k).
Proof. done. Qed.

Lemma every_op_ret {A} (Q : Op -> Prop) (a : A) : every_op Q (Ret a).
Proof. done. Qed.

Lemma every_op_throw {A} (Q : Op -> Prop) e : every_op Q (@Throw A e).
Proof. done. Qed.

Lemma every_op_llmClient (Q : Op -> Prop) c :
  (forall u, Q (op_usage u)) ->
  (forall message, Q (op_addLog lvl_error "llm" message)) ->
  every_op Q (llmClient w c).
Proof.
  intros Hu Hl. unfold llmClient. apply every_op_try_catch.
  - apply every_op_bind; [apply every_op_await, every_op_of_result|].
    intros response. apply every_op_bind; [|done].
    split; [done|apply every_op_of_result].
  - intros e. apply every_op_bind; [by apply every_op_addLog|done].
Qed.

Lemma every_op_consult {A} (Q : Op -> Prop) cs (k : Proc A) :
  (forall u, Q (op_usage u)) ->
  (forall message, Q (op_addLog lvl_error "llm" message)) ->
  every_op Q k -> every_op Q (consult w cs k).
Proof.
  intros Hu Hl Hk. induction cs as [|c cs IH]; simpl; [done|].
  apply every_op_settle; [by apply every_op_llmClient|done].
Qed.

Lemma every_op_ask (Q : Op -> Prop) i c :
  Q (op_effect (call i c)) ->
  (forall u, Q (op_usage u)) ->
  (forall message, Q (op_addLog lvl_error "llm" message)) ->
  every_op Q (ask w i c).
Proof.
  intros Hc Hu Hl. split; [done|]. apply every_op_consult; [done..|].
  simpl. apply every_op_of_result.
Qed.

(** What the [switch] of a step may put on the wire: log entries outside
    the category of the step verdicts (the warning for an unknown type
    apart), the log writes, the step's own call, usage counts. *)
Definition inner_log (l : LogEntry) : Prop :=
  category l = "step" -> level l = lvl_warning.

Definition inner_effect (i : nat) (e : Effect) : Prop :=
  match e with
  | io_emit (execution_log _ l) => inner_log l
  | persistLogsToStorage | gateway_usage _ => True
  | call j _ => j = i
  | _ => False
  end.

Definition inner_op (i : nat) (o : Op) : Prop :=
  quiet o /\ honest o /\ permits (inner_effect i) o.

Lemma inner_op_addLog i level category message :
  (category = "step" -> level = lvl_warning) ->
  inner_op i (op_addLog level category message).
Proof.
  intros H. split; [done|]. split; [done|]. intros t.
  repeat constructor. exact H.
Qed.

Lemma inner_op_call i c : inner_op i (op_effect (call i c)).
Proof. done. Qed.

Lemma inner_op_usage i u : inner_op i (op_usage u).
Proof. done. Qed.

Ltac inner_step i :=
  first
    [ simple apply @every_op_ret
    | simple apply @every_op_throw
    | simple apply @every_op_of_result
    | simple apply @every_op_addLog; [apply inner_op_addLog; discriminate]
    | simple apply @every_op_addLog_of; [intros ?; apply inner_op_addLog; discriminate]
    | simple apply @every_op_ask;
        [apply inner_op_call | apply inner_op_usage
        | intros ?; apply inner_op_addLog; discriminate]
    | simple apply @every_op_await
    | simple apply @every_op_bind; [|intros ?]
    | simple apply @every_op_try_catch; [|intros ?]
    | simple apply @every_op_do; [apply inner_op_call|exact I] ].

Lemma dispatch_inner i step : every_op (inner_op i) (dispatch w i step).
Proof.
  unfold dispatch.
  destruct (type step); unfold executeNavigate, executeAct, executeExtract,
    executeObserve, executeAgent, executeWait, executeScreenshot, executeScroll;
    repeat first [ match goal with
                   | |- every_op _ (if ?b then _ else _) => destruct b
                   end
                 | inner_step i ].
  apply every_op_addLog, inner_op_addLog. done.
Qed.

Lemma inner_op_quiet i o : inner_op i o -> quiet o.
Proof. by intros [? _]. Qed.

Lemma inner_op_honest i o : inner_op i o -> honest o.
Proof. by intros (_ & ? & _). Qed.

Lemma inner_op_permits i o : inner_op i o -> permits (inner_effect i) o.
Proof. by intros (_ & _ & ?). Qed.

(** ** One step *)

Definition start_message (step : AutomationStep) : string :=
  "Executing step " +:+ step_number step +:+ ": " +:+
  step_type_name (type step) +:+ " - " +:+ description step.

Definition verdict_level (r : Result JsValue) : Level :=
  match r with inl _ => lvl_success | inr _ => lvl_error end.

Definition verdict_message (step : AutomationStep) (r : Result JsValue) : string :=
  match r with
  | inl _ => "Step " +:+ step_number step +:+ " completed successfully"
  | inr e => "Step " +:+ step_number step +:+ " failed: " +:+ message e
  end.

(** The effects of the step at position [i], start to verdict. *)
Definition step_block (i : nat) (step : AutomationStep) (body : list Effect) : Prop :=
  let r := step_outcome w executionId i step in
  exists t1 t2 inner,
    body = log_effects (mkLog t1 lvl_info "step" (start_message step)) ++ inner ++
           log_effects (mkLog t2 (verdict_level r) "step" (verdict_message step r)) /\
    Forall (inner_effect i) inner.

Lemma executeStep_run i step s :
  stagehand s <> None ->
  exists s' body,
    run (executeStep w i step) s = (s', step_outcome w executionId i step) /\
    kept s s' /\ wire s' = wire s ++ body /\ step_block i step body /\
    (consistent s -> consistent s').
Proof.
  intros Hs.
  pose proof (ends_quiet _ _ (executeStep_ends i step) s Hs) as [Hkept Hout].
  revert Hkept Hout. unfold executeStep. cbn [run]. destruct (stagehand s) eqn:Hsh; [|done].
  rewrite run_bind. cbn [run addLog].
  set (s1 := apply_op (op_addLog lvl_info "step" _) s).
  rewrite run_try_catch, run_bind.
  pose proof (dispatch_inner i step) as Hinner.
  pose proof (run_frame (inner_op i) (extends (inner_effect i))
                (extends_refl _) (extends_trans _)
                (fun o s0 H => extends_op _ o s0 (inner_op_permits i o H))
                (dispatch w i step) s1 Hinner) as (inner & Hwire & Hall).
  pose proof (run_consistent (dispatch w i step) s1
                (every_op_weaken _ _ _ (inner_op_honest i) Hinner)) as Hcons.
  destruct (run (dispatch w i step) s1) as [s2 [v|e]]; cbn [fst snd] in *;
    rewrite run_bind; cbn [run addLog fst snd]; intros Hkept Hout; rewrite <- Hout.
  - eexists _, _. split; [reflexivity|]. split; [done|]. split; [|split].
    + cbn [apply_op wire]. rewrite Hwire. subst s1. cbn [apply_op wire].
      rewrite <- !app_assoc. reflexivity.
    + exists (Date_now w (readings s)), (Date_now w (readings s2)), inner.
      split; [|done]. rewrite <- Hout. reflexivity.
    + intros Hc. apply consistent_op; [done|]. apply Hcons.
      subst s1. by apply consistent_op.
  - eexists _, _. split; [reflexivity|]. split; [done|]. split; [|split].
    + cbn [apply_op wire]. rewrite Hwire. subst s1. cbn [apply_op wire].
      rewrite <- !app_assoc. reflexivity.
    + exists (Date_now w (readings s)), (Date_now w (readings s2)), inner.
      split; [|done]. rewrite <- Hout. reflexivity.
    + intros Hc. apply consistent_op; [done|]. apply Hcons.
      subst s1. by apply consistent_op.
Qed.

(** ** The sequential loop *)

(** The steps the loop runs: all of them through the first that fails. *)
Fixpoint ran (i : nat) (todo : list AutomationStep) : list AutomationStep :=
  match todo with
  | [] => []
  | step :: rest =>
      step :: match step_outcome w executionId i step with
              | inl _ => ran (S i) rest
              | inr _ => []
              end
  end.

(** What the loop settles with. *)
Fixpoint loop_outcome (i : nat) (todo : list AutomationStep) (results : list Entry)
  : Result (list Entry) :=
  match todo with
  | [] => inl results
  | step :: rest =>
      match step_outcome w executionId i step with
      | inl value => loop_outcome (S i) rest (push_if_truthy results step value)
      | inr e => inr e
      end
  end.

(** A stretch of wire made of the blocks of consecutive steps, each
    behind its progress event. *)
Fixpoint blocks (i totalSteps : nat) (todo : list AutomationStep) (ws : list Effect) : Prop :=
  match todo with
  | [] => ws = []
  | step :: rest =>
      exists body more,
        ws = io_emit (execution_progress executionId i totalSteps (description step))
             :: body ++ more /\
        step_block i step body /\
        blocks (S i) totalSteps rest more
  end.

Lemma sequential_loop_run todo : forall i totalSteps results s,
  stagehand s <> None ->
  exists s' ws,
    run (sequential_loop w executionId i totalSteps todo results) s
      = (s', loop_outcome i todo results) /\
    kept s s' /\ wire s' = wire s ++ ws /\ blocks i totalSteps (ran i todo) ws /\
    (consistent s -> consistent s').
Proof.
  induction todo as [|step rest IH]; intros i totalSteps results s Hs.
  { exists s, []. cbn. rewrite app_nil_r. done. }
  cbn [sequential_loop]. rewrite run_bind. cbn [run io_emit_].
  set (s0 := apply_op (op_effect (io_emit _)) s).
  rewrite run_bind, run_await.
  destruct (executeStep_run i step s0) as (s1 & body & Hrun & Hk1 & Hw1 & Hb & Hc1);
    [done|].
  rewrite Hrun. cbn [ran loop_outcome].
  destruct (step_outcome w executionId i step) as [value|e] eqn:Hout.
  - destruct (IH (S i) totalSteps (push_if_truthy results step value) s1)
      as (s2 & ws & Hrun2 & Hk2 & Hw2 & Hbs & Hc2).
    { destruct Hk1 as [-> _]. done. }
    exists s2, (io_emit (execution_progress executionId i totalSteps (description step))
                :: body ++ ws).
    split; [done|]. split; [|split; [|split]].
    + eapply kept_trans; [|exact Hk2]. eapply kept_trans; [|exact Hk1]. done.
    + rewrite Hw2, Hw1. subst s0. cbn [apply_op wire].
      rewrite <- !app_assoc. reflexivity.
    + exists body, ws. done.
    + intros Hc. apply Hc2, Hc1. subst s0. by apply consistent_op.
  - exists s1, (io_emit (execution_progress executionId i totalSteps (description step))
                :: body ++ []).
    split; [done|]. split; [|split; [|split]].
    + eapply kept_trans; [|exact Hk1]. done.
    + rewrite Hw1. subst s0. cbn [apply_op wire].
      rewrite app_nil_r, <- !app_assoc. reflexivity.
    + exists body, []. done.
    + intros Hc. apply Hc1. subst s0. by apply consistent_op.
Qed.

(** A tactic for [every_op Q p] on the code of a method; [leaf] proves
    [Q] of one operation. *)
Ltac every_op_tac leaf :=
  repeat first
    [ match goal with
      | |- every_op _ (if ?b then _ else _) => destruct b
      | |- every_op _ (match ?x with _ => _ end) => destruct x
      | |- every_op _ (Await _) => simple apply @every_op_pause
      | |- every_op _ (Get _) => cbn [every_op]; intros ?
      | |- every_op _ (Ret _) => exact I
      | |- every_op _ (Throw _) => exact I
      | |- every_op _ (Do _ _) => simple apply @every_op_do; [leaf|]
      | |- every_op _ (of_result _) => simple apply @every_op_of_result
      | |- every_op _ (addLog _ _ _) => simple apply @every_op_addLog; leaf
      | |- every_op _ (io_emit_ _) => split; [leaf|exact I]
      | |- every_op _ (await _) => simple apply @every_op_await
      | |- every_op _ (bind _ _) => simple apply @every_op_bind; [|intros ?]
      | |- every_op _ (try_catch _ _) => simple apply @every_op_try_catch; [|intros ?]
      | |- every_op _ (session _ _) => unfold session
      | |- _ /\ _ => split
      | |- True => exact I
      end
    | solve [leaf] ].

Lemma initStagehand_honest workflow : every_op honest (initStagehand w workflow).
Proof. unfold initStagehand. every_op_tac ltac:(exact I). Qed.

Lemma cleanup_honest : every_op honest (cleanup w).
Proof. unfold cleanup. every_op_tac ltac:(exact I). Qed.

(** ** Initialisation and cleanup *)

(** What [initStagehand] may put on the wire. *)
Definition init_effect (e : Effect) : Prop :=
  match e with
  | io_emit (execution_log _ l) => category l = "initialization"
  | persistLogsToStorage | new_Stagehand _ | stagehand_init
  | setViewportSize _ _ | setUserAgent _ => True
  | _ => False
  end.

Lemma initStagehand_run workflow s :
  exists s1 added,
    run (await (initStagehand w workflow)) s = (s1, init_outcome w executionId workflow) /\
    wire s1 = wire s ++ added /\ Forall init_effect added /\
    startTime s1 = startTime s /\
    (stagehand s = None -> (stagehand s1 <> None <-> construct_fails w = None)) /\
    (init_outcome w executionId workflow = inl tt -> stagehand s1 <> None) /\
    (consistent s -> consistent s1).
Proof.
  cut (exists s1 added,
    run (await (initStagehand w workflow)) s = (s1, init_outcome w executionId workflow) /\
    wire s1 = wire s ++ added /\ Forall init_effect added /\
    startTime s1 = startTime s /\
    (stagehand s = None -> (stagehand s1 <> None <-> construct_fails w = None)) /\
    (init_outcome w executionId workflow = inl tt -> stagehand s1 <> None)).
  { intros (s1 & added & Hrun & H). exists s1, added. split; [done|].
    repeat (destruct H as [? H]; split; [done|]). split; [done|].
    intros Hc. pose proof (run_consistent (await (initStagehand w workflow)) s
      (every_op_await _ _ (initStagehand_honest workflow)) Hc) as Hc'.
    by rewrite Hrun in Hc'. }
  rewrite run_await. unfold init_outcome, initStagehand.
  destruct (browserConfig workflow) as [[h [v|] [ua|]]|]; cbn [headless viewport userAgent];
    try destruct (String.eqb ua "");
    destruct (construct_fails w), (init_fails w), (setViewportSize_fails w),
             (setUserAgent_fails w);
    cbn -[String.append];
    (eexists _, _; split; [reflexivity|];
     split; [cbn [wire]; rewrite <- ?app_assoc; reflexivity|];
     split; [cbn [app]; repeat constructor|]; split; [reflexivity|];
     split; [intros Hnone; cbn [stagehand]; rewrite ?Hnone;
             split; [done|try done; intros _; discriminate]|];
     intros Hok; first [discriminate Hok|discriminate|done]).
Qed.

(** What [cleanup] puts on the wire after its mark, for a session that
    is there. *)
Definition closing (added : list Effect) : Prop :=
  exists t1 t2 level message,
    added = log_effects (mkLog t1 lvl_info "cleanup" "Closing browser instance") ++
            stagehand_close :: log_effects (mkLog t2 level "cleanup" message).

Lemma cleanup_run s :
  exists s2 added,
    run (await (cleanup w)) s = (s2, inl tt) /\
    wire s2 = wire s ++ entered_cleanup :: added /\
    match stagehand s with
    | Some _ => closing added /\ (close_fails w = None -> stagehand s2 = None)
    | None => added = [] /\ stagehand s2 = None
    end /\
    (consistent s -> consistent s2).
Proof.
  cut (exists s2 added,
    run (await (cleanup w)) s = (s2, inl tt) /\
    wire s2 = wire s ++ entered_cleanup :: added /\
    match stagehand s with
    | Some _ => closing added /\ (close_fails w = None -> stagehand s2 = None)
    | None => added = [] /\ stagehand s2 = None
    end).
  { intros (s2 & added & Hrun & H1 & H2). exists s2, added. do 3 (split; [done|]).
    intros Hc. pose proof (run_consistent (await (cleanup w)) s
      (every_op_await _ _ cleanup_honest) Hc) as Hc'.
    by rewrite Hrun in Hc'. }
  rewrite run_await. unfold cleanup. cbn [run].
  destruct (stagehand s) eqn:Hs; [destruct (close_fails w)|];
    cbn -[String.append]; rewrite ?Hs; cbn -[String.append];
    eexists _, _; (split; [reflexivity|]);
    (split; [cbn [wire]; rewrite <- ?app_assoc; reflexivity|]).
  - split; [|done]. eexists _, _, _, _. reflexivity.
  - split; [|done]. eexists _, _, _, _. reflexivity.
  - done.
Qed.

(** ** The parallel mode *)

(** What the steps, taken together, may put on the wire. *)
Definition in_step (e : Effect) : Prop :=
  match e with
  | io_emit (execution_log _ _) | persistLogsToStorage | call _ _ | gateway_usage _ => True
  | _ => False
  end.

Definition step_op (o : Op) : Prop := quiet o /\ honest o /\ permits in_step o.

Lemma permits_weaken (P P' : Effect -> Prop) o :
  (forall e, P e -> P' e) -> permits P o -> permits P' o.
Proof.
  intros HP. destruct o; simpl; auto.
  intros H t. eapply Forall_impl; [apply H|done].
Qed.

Lemma every_op_True {A} (p : Proc A) : every_op (fun _ => True) p.
Proof. induction p; simpl; auto. Qed.

Lemma permits_any o : permits (fun _ => True) o.
Proof. destruct o; simpl; auto. intros t. by repeat constructor. Qed.

Lemma inner_effect_in_step i e : inner_effect i e -> in_step e.
Proof. destruct e as [[]| | | | | | | | |]; simpl; auto. Qed.

Lemma inner_op_step_op i o : inner_op i o -> step_op o.
Proof.
  intros (H1 & H2 & H3). split; [done|]. split; [done|].
  eapply permits_weaken; [apply inner_effect_in_step|done].
Qed.

Lemma step_op_addLog level category message : step_op (op_addLog level category message).
Proof. split; [done|]. split; [done|]. intros t. by repeat constructor. Qed.

Lemma executeStep_ops i step : every_op step_op (executeStep w i step).
Proof.
  unfold executeStep. cbn [every_op]. intros s. destruct (stagehand s); [|done].
  apply every_op_bind; [apply every_op_addLog, step_op_addLog|]. intros _.
  apply every_op_try_catch.
  - apply every_op_bind.
    + eapply every_op_weaken; [apply inner_op_step_op|apply dispatch_inner].
    + intros result. apply every_op_bind; [apply every_op_addLog, step_op_addLog|done].
  - intros e. apply every_op_bind; [apply every_op_addLog, step_op_addLog|done].
Qed.

Lemma positions_ops todo : Forall (every_op step_op) (positions w todo).
Proof.
  unfold positions. apply Forall_forall. intros p Hp.
  apply list_elem_of_lookup in Hp as [j Hj].
  rewrite list_lookup_imap in Hj.
  destruct (todo !! j) as [step|]; simplify_eq/=. apply executeStep_ops.
Qed.

(** Every step is started as soon as the steps are launched: its start
    entry goes out whatever its siblings do later. *)
Lemma launch_starts todo : forall i s,
  stagehand s <> None ->
  let s1 := (launch w executionId (imap (fun j => executeStep w (i + j)) todo) s).1 in
  stagehand s1 <> None /\
  exists added, wire s1 = wire s ++ added /\
    forall j step, todo !! j = Some step ->
      exists t, io_emit (execution_log executionId
                           (mkLog t lvl_info "step" (start_message step))) ∈ added.
Proof.
  induction todo as [|step rest IH]; intros i s Hs; cbn [imap launch].
  { split; [done|]. exists []. rewrite app_nil_r. split; [done|]. intros j step Hj. done. }
  pose proof (ends_advance _ _ s (executeStep_ends (i + 0) step) Hs) as [[Hk _] _].
  assert (Hadv : exists more,
    wire (advance (executeStep w (i + 0) step) s).1 =
    wire s ++ log_effects (mkLog (Date_now w (readings s)) lvl_info "step"
                                 (start_message step)) ++ more).
  { unfold executeStep. cbn [Executor.advance]. destruct (stagehand s); [|done].
    unfold bind at 1, addLog. cbn [settle Executor.advance].
    match goal with |- context [advance ?p ?s0] =>
      destruct (advance_frame (fun _ => True) (extends (fun _ => True))
                  (extends_refl _) (extends_trans _)
                  (fun o s' _ => extends_op _ o s' (permits_any o))
                  p s0 (every_op_True p)) as [(more & Hm & _) _]
    end.
    exists more. rewrite Hm. cbn [Executor.apply_op wire]. by rewrite <- app_assoc. }
  destruct Hadv as (more & Hmore).
  destruct (advance (executeStep w (i + 0) step) s) as [s1 p'] eqn:Hadv; cbn [fst] in *.
  rewrite (imap_ext _ (fun j => executeStep w (S i + j)) rest)
    by (intros; simpl; f_equal; lia).
  destruct (IH (S i) s1) as (Hs2 & added & Hw & Hin); [by rewrite Hk|].
  destruct (launch w executionId (imap (fun j => executeStep w (S i + j)) rest) s1)
    as [s2 rest'] eqn:Hl; cbn [fst] in *.
  split; [done|].
  exists (log_effects (mkLog (Date_now w (readings s)) lvl_info "step"
                             (start_message step)) ++ more ++ added).
  split.
  { rewrite Hw, Hmore, <- !app_assoc. reflexivity. }
  intros [|j] step' Hj; cbn in Hj.
  - injection Hj as <-. eexists. rewrite elem_of_app. left.
    apply elem_of_cons. left. reflexivity.
  - destruct (Hin j step' Hj) as [t Ht]. exists t.
    rewrite !elem_of_app. right. right. done.
Qed.

Lemma extends_any_run_tail {A} schedule (pool : list (Proc A)) s :
  exists added,
    wire (drain w executionId (resume w executionId schedule pool s).2
                (resume w executionId schedule pool s).1).1 = wire s ++ added.
Proof.
  pose proof (resume_frame (fun _ => True) (extends (fun _ => True))
                (extends_refl _) (extends_trans _)
                (fun o s' _ => extends_op _ o s' (permits_any o))
                schedule pool s) as [(a & Ha & _) Hall].
  { apply Forall_forall. intros p _. apply every_op_True. }
  pose proof (drain_frame (fun _ => True) (extends (fun _ => True))
                (extends_refl _) (extends_trans _)
                (fun o s' _ => extends_op _ o s' (permits_any o))
                _ (resume w executionId schedule pool s).1 Hall) as (b & Hb & _).
  exists (a ++ b). by rewrite Hb, Ha, app_assoc.
Qed.

(** The parallel mode, whatever the schedule: every step settles with its
    own outcome, at its own position, and every step was started. *)
Lemma parallel_run schedule todo s :
  stagehand s <> None ->
  exists s' added,
    allSettled w executionId schedule (positions w todo) s
      = (s', imap (step_outcome w executionId) todo) /\
    kept s s' /\ wire s' = wire s ++ added /\ Forall in_step added /\
    (forall j step, todo !! j = Some step ->
       exists t, io_emit (execution_log executionId
                            (mkLog t lvl_info "step" (start_message step))) ∈ added) /\
    (consistent s -> consistent s').
Proof.
  intros Hs.
  pose proof (ends_allSettled schedule _ _ s (positions_end todo 0) Hs) as [Hk Hr].
  pose proof (allSettled_frame step_op (extends in_step)
                (extends_refl _) (extends_trans _)
                (fun o s' H => extends_op _ o s' (proj2 (proj2 H)))
                schedule (positions w todo) s (positions_ops todo))
    as (added & Hw & Hall).
  pose proof (allSettled_consistent schedule (positions w todo) s) as Hc.
  pose proof (launch_starts todo 0 s Hs) as (_ & a1 & Ha1 & Hstarts).
  change (imap (fun j => executeStep w (0 + j)) todo) with (positions w todo) in *.
  change (imap (fun j => step_outcome w executionId (0 + j)) todo)
    with (imap (step_outcome w executionId) todo) in *.
  destruct (allSettled w executionId schedule (positions w todo) s) as [s' rs] eqn:Hrun.
  cbn [fst snd] in *. subst rs.
  exists s', added. split; [done|]. split; [done|]. split; [done|]. split; [done|].
  split.
  - unfold allSettled in Hrun.
    destruct (launch w executionId (positions w todo) s) as [s1 pool] eqn:Hl.
    cbn [fst] in *.
    destruct (extends_any_run_tail schedule pool s1) as (a2 & Ha2).
    destruct (resume w executionId schedule pool s1) as [s2 pool']; cbn [fst snd] in *.
    rewrite Hrun in Ha2; cbn [fst] in Ha2.
    assert (added = a1 ++ a2) as ->.
    { apply (app_inv_head (wire s)). by rewrite <- Hw, Ha2, Ha1, app_assoc. }
    intros j step Hj. destruct (Hstarts j step Hj) as [t Ht]. exists t.
    rewrite elem_of_app. by left.
  - apply Hc. eapply Forall_impl; [apply positions_ops|].
    intros p Hp. eapply every_op_weaken; [|exact Hp]. by intros o (_ & ? & _).
Qed.

(** The entries gathered from the outcomes of the steps, in step order. *)
Fixpoint gather (i : nat) (todo : list AutomationStep) (results : list Entry)
  : list Entry :=
  match todo with
  | [] => results
  | step :: rest =>
      match step_outcome w executionId i step with
      | inl value => gather (S i) rest (push_if_truthy results step value)
      | inr _ => gather (S i) rest results
      end
  end.

Lemma loop_outcome_gather todo : forall i results entries,
  loop_outcome i todo results = inl entries -> entries = gather i todo results.
Proof.
  induction todo as [|step rest IH]; intros i results entries; cbn.
  { congruence. }
  destruct (step_outcome w executionId i step); [apply IH|discriminate].
Qed.

(** What the [forEach] of the parallel mode may put on the wire. *)
Definition report_effect (e : Effect) : Prop :=
  match e with
  | io_emit (execution_log _ l) => category l = "execution"
  | persistLogsToStorage => True
  | _ => False
  end.

Definition parallel_failure (index : nat) (reason : JsError) : string :=
  "Parallel step " +:+ pretty (index + 1)%nat +:+ " failed: " +:+ error_to_string reason.

Lemma collect_run todo : forall i results s,
  exists s' added,
    run (collect i todo (imap (fun j => step_outcome w executionId (i + j)) todo) results) s
      = (s', inl (gather i todo results)) /\
    kept s s' /\ wire s' = wire s ++ added /\ Forall report_effect added /\
    (forall j step reason,
       todo !! j = Some step -> step_outcome w executionId (i + j) step = inr reason ->
       exists t, io_emit (execution_log executionId
                   (mkLog t lvl_error "execution" (parallel_failure (i + j) reason)))
                 ∈ added) /\
    (consistent s -> consistent s').
Proof.
  induction todo as [|step rest IH]; intros i results s; cbn [imap collect gather].
  { exists s, []. rewrite app_nil_r. do 4 (split; [done|]). split; [|done].
    intros j step reason Hj. done. }
  rewrite (imap_ext _ (fun j => step_outcome w executionId (S i + j)) rest)
    by (intros; simpl; f_equal; lia).
  replace (i + 0)%nat with i by lia.
  destruct (step_outcome w executionId i step) as [value|reason] eqn:Hout.
  - destruct (IH (S i) (push_if_truthy results step value) s)
      as (s' & added & Hrun & Hk & Hw & Hall & Hin & Hc).
    exists s', added. do 4 (split; [done|]). split; [|done].
    intros [|j] step' reason' Hj Hr; cbn in Hj.
    + injection Hj as <-. replace (i + 0)%nat with i in Hr by lia. congruence.
    + replace (i + S j)%nat with (S i + j)%nat in * by lia. eauto.
  - rewrite run_bind. cbn [run addLog].
    set (s0 := apply_op _ s).
    destruct (IH (S i) results s0) as (s' & added & Hrun & Hk & Hw & Hall & Hin & Hc).
    exists s', (log_effects (mkLog (Date_now w (readings s)) lvl_error "execution"
                                   (parallel_failure i reason)) ++ added).
    split; [done|]. split; [|split; [|split; [|split]]].
    + eapply kept_trans; [|exact Hk]. done.
    + rewrite Hw. subst s0. cbn [Executor.apply_op wire]. by rewrite <- app_assoc.
    + apply Forall_app. split; [by repeat constructor|done].
    + intros [|j] step' reason' Hj Hr; cbn in Hj.
      * injection Hj as <-. replace (i + 0)%nat with i in * by lia.
        assert (reason' = reason) as -> by congruence.
        eexists. rewrite elem_of_app. left. apply elem_of_cons. left. reflexivity.
      * replace (i + S j)%nat with (S i + j)%nat in * by lia.
        destruct (Hin j step' reason' Hj Hr) as [t Ht]. exists t.
        rewrite elem_of_app. by right.
    + intros Hcs. apply Hc. subst s0. by apply consistent_op.
Qed.

(** ** The [try] block and its two ends *)

Definition finished (totalSteps : nat) (post : list Effect) : Prop :=
  exists t message,
    post = io_emit (execution_progress executionId totalSteps totalSteps "Completed")
           :: log_effects (mkLog t lvl_success "execution" message).

Definition gave_up (post : list Effect) : Prop :=
  exists t message, post = log_effects (mkLog t lvl_error "execution" message).

Lemma finish_honest totalSteps results :
  every_op honest (finish w executionId totalSteps results).
Proof.
  unfold finish, duration_since_start, report. every_op_tac ltac:(exact I).
Qed.

Lemma failure_report_honest error : every_op honest (failure_report w error).
Proof.
  unfold failure_report, duration_since_start, report. every_op_tac ltac:(exact I).
Qed.

Lemma finish_run totalSteps results s :
  exists s' post rec,
    run (finish w executionId totalSteps results) s = (s', inl rec) /\
    res_results rec = unwrap results /\
    wire s' = wire s ++ post /\ finished totalSteps post /\ kept s s' /\
    (consistent s -> consistent s').
Proof.
  pose proof (run_consistent _ s (finish_honest totalSteps results)) as Hc.
  revert Hc. unfold finish, duration_since_start, report. cbn -[String.append].
  intros Hc. eexists _, _, _. split; [reflexivity|]. split; [reflexivity|].
  split; [cbn [wire]; rewrite <- app_assoc; reflexivity|].
  split; [|done]. eexists _, _. reflexivity.
Qed.

Lemma failure_report_run error s :
  exists s' post rec,
    run (failure_report w error) s = (s', inl rec) /\
    res_results rec = JNull /\
    wire s' = wire s ++ post /\ gave_up post /\ kept s s' /\
    (consistent s -> consistent s').
Proof.
  pose proof (run_consistent _ s (failure_report_honest error)) as Hc.
  revert Hc. unfold failure_report, duration_since_start, report. cbn -[String.append].
  intros Hc. eexists _, _, _. split; [reflexivity|]. split; [reflexivity|].
  split; [reflexivity|]. split; [|done]. eexists _, _. reflexivity.
Qed.

(** The wire of the parallel mode: the announcement, what the steps did
    while they were in flight, then the failures reported in step order. *)
Definition parallel_shape (todo : list AutomationStep) (mid : list Effect) : Prop :=
  exists t settled reported,
    mid = log_effects (mkLog t lvl_info "execution" "Executing steps in parallel")
          ++ settled ++ reported /\
    Forall in_step settled /\
    (forall j step, todo !! j = Some step ->
       exists t', io_emit (execution_log executionId
                    (mkLog t' lvl_info "step" (start_message step))) ∈ settled) /\
    Forall report_effect reported /\
    (forall j step reason,
       todo !! j = Some step -> step_outcome w executionId j step = inr reason ->
       exists t', io_emit (execution_log executionId
                    (mkLog t' lvl_error "execution" (parallel_failure j reason)))
                  ∈ reported).

Lemma attempt_run schedule workflow s :
  stagehand s = None ->
  let totalSteps := length (steps workflow) in
  exists s' pre mid post r,
    attempt w executionId schedule workflow s = (s', r) /\
    wire s' = wire s ++ pre ++ mid ++ post /\
    Forall init_effect pre /\
    startTime s' = startTime s /\
    (stagehand s' <> None <-> construct_fails w = None) /\
    (consistent s -> consistent s') /\
    match init_outcome w executionId workflow with
    | inr e => r = inr e /\ mid = [] /\ post = []
    | inl _ =>
        match executionMode workflow with
        | sequential =>
            blocks 0 totalSteps (ran 0 (steps workflow)) mid /\
            match loop_outcome 0 (steps workflow) [] with
            | inl entries =>
                finished totalSteps post /\
                exists rec, r = inl rec /\ res_results rec = unwrap entries
            | inr e => r = inr e /\ post = []
            end
        | parallel =>
            parallel_shape (steps workflow) mid /\ finished totalSteps post /\
            exists rec, r = inl rec /\
                        res_results rec = unwrap (gather 0 (steps workflow) [])
        end
    end.
Proof.
  intros Hnone totalSteps. unfold attempt. fold totalSteps.
  destruct (initStagehand_run workflow s)
    as (s1 & pre & Hinit & Hw1 & Hpre & Hst1 & Hsh1 & Hok1 & Hc1).
  rewrite Hinit. specialize (Hsh1 Hnone).
  destruct (init_outcome w executionId workflow) as [[]|e] eqn:Hio.
  2: { exists s1, pre, [], [], (inr e). rewrite !app_nil_r. done. }
  specialize (Hok1 eq_refl).
  destruct (executionMode workflow).
  - (* sequential *)
    rewrite run_bind.
    destruct (sequential_loop_run (steps workflow) 0 totalSteps [] s1 Hok1)
      as (s2 & mid & Hrun & Hk2 & Hw2 & Hblocks & Hc2).
    rewrite Hrun.
    destruct (loop_outcome 0 (steps workflow) []) as [entries|e] eqn:Hloop.
    + destruct (finish_run totalSteps entries s2)
        as (s3 & post & rec & Hfin & Hres & Hw3 & Hpost & Hk3 & Hc3).
      rewrite Hfin. exists s3, pre, mid, post, (inl rec).
      split; [done|]. split; [by rewrite Hw3, Hw2, Hw1, <- !app_assoc|].
      split; [done|]. split; [by rewrite (proj2 Hk3), (proj2 Hk2)|].
      split; [by rewrite (proj1 Hk3), (proj1 Hk2)|].
      split; [auto|]. split; [done|]. split; [done|]. eauto.
    + exists s2, pre, mid, [], (inr e).
      split; [done|]. split; [by rewrite Hw2, Hw1, app_nil_r, <- !app_assoc|].
      split; [done|]. split; [by rewrite (proj2 Hk2)|].
      split; [by rewrite (proj1 Hk2)|].
      split; [auto|]. done.
  - (* parallel *)
    cbn [run addLog].
    set (s2 := apply_op (op_addLog lvl_info "execution" "Executing steps in parallel") s1).
    destruct (parallel_run schedule (steps workflow) s2)
      as (s3 & settled & Hpar & Hk3 & Hw3 & Hin3 & Hstarts & Hc3); [done|].
    rewrite Hpar. rewrite run_bind.
    destruct (collect_run (steps workflow) 0 [] s3)
      as (s4 & reported & Hcol & Hk4 & Hw4 & Hrep & Hfail & Hc4).
    change (imap (fun j => step_outcome w executionId (0 + j)) (steps workflow))
      with (imap (step_outcome w executionId) (steps workflow)) in Hcol.
    rewrite Hcol.
    destruct (finish_run totalSteps (gather 0 (steps workflow) []) s4)
      as (s5 & post & rec & Hfin & Hres & Hw5 & Hpost & Hk5 & Hc5).
    rewrite Hfin.
    exists s5, pre,
      (log_effects (mkLog (Date_now w (readings s1)) lvl_info "execution"
                          "Executing steps in parallel") ++ settled ++ reported),
      post, (inl rec).
    split; [done|]. split.
    { rewrite Hw5, Hw4, Hw3. subst s2. cbn [Executor.apply_op wire].
      rewrite Hw1, <- !app_assoc. reflexivity. }
    split; [done|]. split; [by rewrite (proj2 Hk5), (proj2 Hk4), (proj2 Hk3)|].
    split; [by rewrite (proj1 Hk5), (proj1 Hk4), (proj1 Hk3)|].
    split.
    { intros Hc. apply Hc5, Hc4, Hc3. subst s2. apply consistent_op; [done|auto]. }
    split; [|split; [done|eauto]].
    exists (Date_now w (readings s1)), settled, reported.
    split; [done|]. split; [done|]. split; [done|]. split; [done|].
    intros j step reason Hj Hr. by apply (Hfail j step reason).
Qed.

(** ** The whole run *)

(** The wire and the record of a run of [execute] by a new executor:
    the opening entry, initialisation, the steps, the end of the [try]
    block or the [catch] block, then [cleanup]. *)
Lemma execute_run schedule workflow :
  let totalSteps := length (steps workflow) in
  exists s' rec t0 pre mid post tail,
    execute w executionId schedule workflow fresh = (s', inl rec) /\
    wire s' =
      log_effects (mkLog t0 lvl_info "execution"
                         ("Starting workflow: " +:+ wf_name workflow))
      ++ pre ++ mid ++ post ++ entered_cleanup :: tail /\
    Forall init_effect pre /\
    match construct_fails w with
    | None => closing tail /\ (close_fails w = None -> stagehand s' = None)
    | Some _ => tail = [] /\ stagehand s' = None
    end /\
    consistent s' /\ res_logs rec = logs s' /\ res_tokenUsage rec = tokenUsage s' /\
    match init_outcome w executionId workflow with
    | inr e => mid = [] /\ gave_up post /\ res_results rec = JNull
    | inl _ =>
        match executionMode workflow with
        | sequential =>
            blocks 0 totalSteps (ran 0 (steps workflow)) mid /\
            match loop_outcome 0 (steps workflow) [] with
            | inl entries => finished totalSteps post /\ res_results rec = unwrap entries
            | inr e => gave_up post /\ res_results rec = JNull
            end
        | parallel =>
            parallel_shape (steps workflow) mid /\ finished totalSteps post /\
            res_results rec = unwrap (gather 0 (steps workflow) [])
        end
    end.
Proof.
  intros totalSteps. unfold execute. cbn [run bind settle addLog].
  set (s0 := apply_op (op_addLog lvl_info "execution" _) (apply_op op_startTime fresh)).
  assert (Hc0 : consistent s0) by (subst s0; done).
  destruct (attempt_run schedule workflow s0)
    as (s1 & pre & mid & post & r & Hatt & Hw1 & Hpre & Hst & Hsh & Hc1 & Hcase); [done|].
  rewrite Hatt. fold totalSteps in Hcase.
  assert (Hmain : exists s2 post' rec,
    match r with
    | inl value => (s1, inl value)
    | inr error => run (failure_report w error) s1
    end = (s2, inl rec) /\
    wire s2 = wire s0 ++ pre ++ mid ++ post' /\
    stagehand s2 = stagehand s1 /\ consistent s2 /\
    match init_outcome w executionId workflow with
    | inr e => mid = [] /\ gave_up post' /\ res_results rec = JNull
    | inl _ =>
        match executionMode workflow with
        | sequential =>
            blocks 0 totalSteps (ran 0 (steps workflow)) mid /\
            match loop_outcome 0 (steps workflow) [] with
            | inl entries => finished totalSteps post' /\ res_results rec = unwrap entries
            | inr e => gave_up post' /\ res_results rec = JNull
            end
        | parallel =>
            parallel_shape (steps workflow) mid /\ finished totalSteps post' /\
            res_results rec = unwrap (gather 0 (steps workflow) [])
        end
    end).
  { destruct (init_outcome w executionId workflow) as [[]|e].
    - destruct (executionMode workflow).
      + destruct Hcase as [Hblocks Hcase].
        destruct (loop_outcome 0 (steps workflow) []) as [entries|e].
        * destruct Hcase as (Hfin & rec & -> & Hres).
          exists s1, post, rec. do 4 (split; [auto|]). done.
        * destruct Hcase as (-> & ->).
          destruct (failure_report_run e s1)
            as (s2 & post' & rec & Hrun & Hres & Hw2 & Hgu & Hk & Hc2).
          exists s2, post', rec. split; [done|].
          split; [by rewrite Hw2, Hw1, app_nil_r, <- !app_assoc|].
          split; [apply Hk|]. split; [auto|]. done.
      + destruct Hcase as (Hshape & Hfin & rec & -> & Hres).
        exists s1, post, rec. do 4 (split; [auto|]). done.
    - destruct Hcase as (-> & -> & ->).
      destruct (failure_report_run e s1)
        as (s2 & post' & rec & Hrun & Hres & Hw2 & Hgu & Hk & Hc2).
      exists s2, post', rec. split; [done|].
      split; [by rewrite Hw2, Hw1, !app_nil_r|].
      split; [apply Hk|]. split; [auto|]. done. }
  destruct Hmain as (s2 & post' & rec & -> & Hw2 & Hsh2 & Hc2 & Hcase2).
  destruct (cleanup_run s2) as (s3 & tail & Hclean & Hw3 & Htail & Hc3).
  rewrite Hclean.
  exists s3, (resolved s3 rec), (Date_now w (S (readings fresh))), pre, mid, post', tail.
  split; [done|]. split.
  { rewrite Hw3, Hw2. subst s0. cbn [Executor.apply_op wire fresh app].
    rewrite <- !app_assoc. reflexivity. }
  split; [done|]. split.
  { rewrite Hsh2 in Htail.
    destruct (construct_fails w) as [err|].
    - destruct (stagehand s1); [|done]. exfalso.
      assert (Some err = None) by (by apply Hsh). done.
    - destruct (stagehand s1); [done|]. exfalso. by apply (proj2 Hsh). }
  split; [auto|]. split; [done|]. split; [done|]. exact Hcase2.
Qed.

(** ** The entries of [results] *)

(** What the step at position [i] adds to [results]. *)
Definition contribution (i : nat) (step : AutomationStep) : option Entry :=
  match step_outcome w executionId i step with
  | inl value => if truthy value then Some {| step := id step; result := value |} else None
  | inr _ => None
  end.

Fixpoint entries_from (i : nat) (todo : list AutomationStep) : list Entry :=
  match todo with
  | [] => []
  | step :: rest =>
      match contribution i step with
      | Some entry => entry :: entries_from (S i) rest
      | None => entries_from (S i) rest
      end
  end.

Lemma gather_entries todo : forall i results,
  gather i todo results = results ++ entries_from i todo.
Proof.
  induction todo as [|step rest IH]; intros i results; cbn.
  { by rewrite app_nil_r. }
  unfold contribution, push_if_truthy.
  destruct (step_outcome w executionId i step) as [value|e]; [|apply IH].
  rewrite IH. destruct (truthy value); [|done]. by rewrite <- app_assoc.
Qed.


Lemma entries_from_origin todo : forall i entry,
  entry ∈ entries_from i todo ->
  truthy (result entry) = true /\
  exists j st, todo !! j = Some st /\ step entry = id st /\
               step_outcome w executionId (i + j) st = inl (result entry).
Proof.
  induction todo as [|st rest IH]; intros i entry; cbn; [by intros ?%elem_of_nil|].
  unfold contribution at 1.
  destruct (step_outcome w executionId i st) as [value|e] eqn:Hout.
  - destruct (truthy value) eqn:Htr.
    + intros [->|Hin]%elem_of_cons.
      * split; [done|]. exists 0%nat, st. rewrite Nat.add_0_r. done.
      * destruct (IH _ _ Hin) as (? & j & st' & ? & ? & ?). split; [done|].
        exists (S j), st'. by rewrite Nat.add_succ_r.
    + intros Hin. destruct (IH _ _ Hin) as (? & j & st' & ? & ? & ?). split; [done|].
      exists (S j), st'. by rewrite Nat.add_succ_r.
  - intros Hin. destruct (IH _ _ Hin) as (? & j & st' & ? & ? & ?). split; [done|].
    exists (S j), st'. by rewrite Nat.add_succ_r.
Qed.

Lemma entries_from_order todo : forall i,
  sublist (map step (entries_from i todo)) (map id todo).
Proof.
  induction todo as [|st rest IH]; intros i; cbn; [constructor|].
  unfold contribution.
  destruct (step_outcome w executionId i st) as [value|e].
  - destruct (truthy value); cbn; [by apply sublist_skip|by apply sublist_cons].
  - by apply sublist_cons.
Qed.

Lemma entries_from_length todo : forall i,
  (length (entries_from i todo) <= length todo)%nat.
Proof.
  induction todo as [|st rest IH]; intros i; cbn; [lia|].
  specialize (IH (S i)). destruct (contribution i st); cbn; lia.
Qed.

Lemma unwrap_not_null entries :
  Forall (fun entry => truthy (result entry) = true) entries -> unwrap entries <> JNull.
Proof.
  destruct entries as [|e [|e' rest]]; cbn; intros H; try done.
  inversion H as [|? ? He _]; subst. by destruct (result e).
Qed.

Lemma entries_from_truthy todo i :
  Forall (fun entry => truthy (result entry) = true) (entries_from i todo).
Proof. apply Forall_forall. intros entry Hin. by apply entries_from_origin in Hin as [? _]. Qed.

(** ** Where the effects of the steps lie *)

(** Effects of the steps at positions [lo] to [hi - 1], with their
    progress events. *)
Definition within (lo hi : nat) (e : Effect) : Prop :=
  match e with
  | io_emit (execution_progress _ j _ _) | call j _ => (lo <= j < hi)%nat
  | io_emit (execution_log _ _) | persistLogsToStorage | gateway_usage _ => True
  | _ => False
  end.

Lemma within_weaken lo hi lo' hi' e :
  (lo' <= lo)%nat -> (hi <= hi')%nat -> within lo hi e -> within lo' hi' e.
Proof. destruct e as [[]| | | | | | | | |]; simpl; auto; lia. Qed.

Lemma inner_effect_within i e : inner_effect i e -> within i (S i) e.
Proof. destruct e as [[]| | | | | | | | |]; simpl; auto; lia. Qed.

Lemma blocks_within totalSteps todo : forall i ws,
  blocks i totalSteps todo ws -> Forall (within i (i + length todo)) ws.
Proof.
  induction todo as [|st rest IH]; intros i ws; cbn.
  { intros ->. constructor. }
  intros (body & more & -> & (t1 & t2 & inner & -> & Hinner) & Hmore).
  constructor; [cbn; lia|]. apply Forall_app. split.
  - apply Forall_app. split; [by repeat constructor|].
    apply Forall_app. split; [|by repeat constructor].
    eapply Forall_impl; [exact Hinner|]. intros e He.
    eapply within_weaken; [| |by apply inner_effect_within]; lia.
  - eapply Forall_impl; [by apply IH|]. intros e He.
    eapply within_weaken; [| |exact He]; lia.
Qed.

Lemma ran_length todo : forall i, (length (ran i todo) <= length todo)%nat.
Proof.
  induction todo as [|st rest IH]; intros i; cbn; [lia|].
  destruct (step_outcome w executionId i st); cbn; [specialize (IH (S i))|]; lia.
Qed.

(** Counting effects of one kind on a wire. *)
Definition count (f : Effect -> bool) (ws : list Effect) : nat :=
  length (List.filter f ws).













(** ** The transcript of the steps in the log *)

Definition is_warning (l : Level) : bool :=
  match l with lvl_warning => true | _ => false end.

(** The entries by which [executeStep] opens and closes a step. *)
Definition is_step_entry (l : LogEntry) : bool :=
  String.eqb (category l) "step" && negb (is_warning (level l)).

Definition transcript (ls : list LogEntry) : list (Level * string) :=
  map (fun l => (level l, log_message l)) (List.filter is_step_entry ls).

Lemma transcript_app a b : transcript (a ++ b) = transcript a ++ transcript b.
Proof. unfold transcript. by rewrite List.filter_app, map_app. Qed.

Lemma transcript_none ls :
  Forall (fun l => is_step_entry l = false) ls -> transcript ls = [].
Proof.
  unfold transcript. induction 1 as [|l ls Hl _ IH]; cbn; [done|]. by rewrite Hl.
Qed.

Lemma logged_Forall (P : Effect -> Prop) (P' : LogEntry -> Prop) ws :
  (forall id l, P (io_emit (execution_log id l)) -> P' l) ->
  Forall P ws -> Forall P' (logged ws).
Proof.
  intros HP. induction 1 as [|e ws He _ IH]; cbn; [constructor|].
  destruct e as [[]| | | | | | | | |]; cbn; auto. constructor; eauto.
Qed.

Lemma inner_log_not_step_entry l : inner_log l -> is_step_entry l = false.
Proof.
  unfold inner_log, is_step_entry. intros H.
  destruct (String.eqb_spec (category l) "step") as [Heq|]; [|done].
  by rewrite (H Heq).
Qed.

Lemma other_category_not_step_entry l c :
  category l = c -> c <> "step" -> is_step_entry l = false.
Proof.
  unfold is_step_entry. intros -> Hc.
  by destruct (String.eqb_spec c "step").
Qed.

(** The two entries of a step that did not fail. *)
Definition success_pair (st : AutomationStep) : list (Level * string) :=
  [(lvl_info, start_message st);
   (lvl_success, "Step " +:+ step_number st +:+ " completed successfully")].

(** The two entries of a step that failed with [e]. *)
Definition failure_pair (st : AutomationStep) (e : JsError) : list (Level * string) :=
  [(lvl_info, start_message st);
   (lvl_error, "Step " +:+ step_number st +:+ " failed: " +:+ message e)].

Fixpoint expected (i : nat) (todo : list AutomationStep) : list (Level * string) :=
  match todo with
  | [] => []
  | st :: rest =>
      match step_outcome w executionId i st with
      | inl _ => success_pair st
      | inr e => failure_pair st e
      end ++ expected (S i) rest
  end.

Lemma blocks_transcript totalSteps todo : forall i ws,
  blocks i totalSteps todo ws -> transcript (logged ws) = expected i todo.
Proof.
  induction todo as [|st rest IH]; intros i ws; cbn [blocks expected].
  { by intros ->. }
  intros (body & more & -> & (t1 & t2 & inner & -> & Hinner) & Hmore).
  change (?e :: ?l ++ more) with ([e] ++ l ++ more).
  rewrite !logged_app, !transcript_app, (IH _ _ Hmore).
  assert (transcript (logged inner) = []) as ->.
  { apply transcript_none.
    apply (logged_Forall (inner_effect i)); [|done].
    intros id l Hl. by apply inner_log_not_step_entry. }
  by destruct (step_outcome w executionId i st).
Qed.

(** The wire of a run, cut where the steps begin and end. *)
Lemma step_free_transcript ws :
  Forall (fun e => match e with
                   | io_emit (execution_log _ l) => category l <> "step"
                   | _ => True
                   end) ws ->
  transcript (logged ws) = [].
Proof.
  intros H. apply transcript_none.
  apply (logged_Forall _ (fun l => category l <> "step")) in H; [|by intros id l Hl].
  eapply Forall_impl; [exact H|].
  intros l Hl. unfold is_step_entry. by destruct (String.eqb_spec (category l) "step").
Qed.

(** When the step at position [k] is the first to fail. *)
Lemma first_failure_run todo : forall i k stepk e results,
  todo !! k = Some stepk ->
  step_outcome w executionId (i + k) stepk = inr e ->
  (forall j st, (j < k)%nat -> todo !! j = Some st ->
                exists value, step_outcome w executionId (i + j) st = inl value) ->
  expected i (ran i todo)
    = flat_map success_pair (take k todo) ++ failure_pair stepk e /\
  length (ran i todo) = S k /\
  loop_outcome i todo results = inr e.
Proof.
  induction todo as [|st rest IH]; intros i k stepk e results Hk Hfail Hbefore.
  { done. }
  destruct k as [|k]; cbn in Hk.
  - injection Hk as ->. rewrite Nat.add_0_r in Hfail.
    cbn. rewrite Hfail. cbn. by rewrite ?app_nil_r.
  - destruct (Hbefore 0%nat st) as [value Hv]; [lia|done|].
    rewrite Nat.add_0_r in Hv.
    destruct (IH (S i) k stepk e (push_if_truthy results st value)) as (H1 & H2 & H3).
    + done.
    + by rewrite Nat.add_succ_comm.
    + intros j st' Hj Hst'. rewrite Nat.add_succ_comm. apply Hbefore; [lia|done].
    + cbn. rewrite Hv. cbn. rewrite ?Hv, H1, H2, H3. done.
Qed.

Lemma all_succeed_ran todo : forall i,
  (forall j st, todo !! j = Some st ->
                exists value, step_outcome w executionId (i + j) st = inl value) ->
  ran i todo = todo.
Proof.
  induction todo as [|st rest IH]; intros i Hall; cbn; [done|].
  destruct (Hall 0%nat st eq_refl) as [value Hv]. rewrite Nat.add_0_r in Hv. rewrite Hv.
  f_equal. apply IH. intros j st' Hj. rewrite Nat.add_succ_comm. by apply Hall.
Qed.

(** ** What the steps without a return value settle with *)

Lemma ends_bind_ok {A B} (p : Proc A) (f : A -> Proc B) a r :
  ends p (inl a) -> ends (f a) r -> ends (bind p f) r.
Proof. intros Hp Hf. by eapply ends_settle. Qed.

Lemma ends_bind_error {A B} (p : Proc A) (f : A -> Proc B) e :
  ends p (inr e) -> ends (bind p f) (inr e).
Proof. intros Hp. by eapply ends_settle. Qed.

Lemma ends_await {A} (p : Proc A) r : ends p r -> ends (await p) r.
Proof. intros Hp. eapply ends_settle; [exact Hp|]. by destruct r. Qed.

Lemma ends_addLog level category message : ends (addLog level category message) (inl tt).
Proof. by split. Qed.

Ltac ends_log := eapply ends_bind_ok; [apply ends_addLog|].

Lemma ends_unique {A} (p : Proc A) r r' : ends p r -> ends p r' -> r = r'.
Proof.
  intros H H'.
  destruct (ends_quiet p r H during) as [_ <-]; [done|].
  by destruct (ends_quiet p r' H' during) as [_ <-].
Qed.

Lemma dispatch_decides i st r :
  ends (dispatch w i st) r -> step_outcome w executionId i st = r.
Proof.
  intros Hd. eapply ends_unique; [apply executeStep_ends|].
  unfold executeStep. cbn [ends]. intros s Hs. destruct (stagehand s); [|done].
  ends_log. unfold try_catch. destruct r as [value|e].
  - eapply ends_settle.
    + eapply ends_bind_ok; [exact Hd|]. ends_log. exact eq_refl.
    + exact eq_refl.
  - eapply ends_settle; [by apply ends_bind_error|].
    ends_log. exact eq_refl.
Qed.

(** ** Counting the failures *)

Fixpoint failed_from (i : nat) (todo : list AutomationStep) : nat :=
  match todo with
  | [] => 0
  | st :: rest =>
      match step_outcome w executionId i st with
      | inl _ => 0
      | inr _ => 1
      end + failed_from (S i) rest
  end.

Lemma entries_and_failures todo : forall i,
  (length (entries_from i todo) + failed_from i todo <= length todo)%nat.
Proof.
  induction todo as [|st rest IH]; intros i; cbn; [lia|].
  specialize (IH (S i)). unfold contribution.
  destruct (step_outcome w executionId i st) as [value|e]; [|lia].
  destruct (truthy value); cbn; lia.
Qed.

Lemma all_falsy_no_entries todo : forall i,
  (forall j st, todo !! j = Some st ->
     exists value, step_outcome w executionId (i + j) st = inl value /\
                   truthy value = false) ->
  entries_from i todo = [].
Proof.
  induction todo as [|st rest IH]; intros i Hall; cbn; [done|].
  destruct (Hall 0%nat st eq_refl) as (value & Hv & Hfalsy).
  rewrite Nat.add_0_r in Hv. unfold contribution. rewrite Hv, Hfalsy.
  apply IH. intros j st' Hj. rewrite Nat.add_succ_comm. by apply Hall.
Qed.

Lemma logged_elem id l ws : io_emit (execution_log id l) ∈ ws -> l ∈ logged ws.
Proof.
  unfold logged. intros H. apply list_elem_of_omap.
  exists (io_emit (execution_log id l)). done.
Qed.

End Generic.

End ExecutorFacts.

(* ================================================================== *)
(** * The steps, type by type                                           *)
(* ================================================================== *)

Module StepFacts.
Import Executor ExecutorFacts.

#[local] Arguments String.append : simpl never.
#[local] Arguments pretty : simpl never.
#[local] Arguments Executor.step_outcome : simpl never.
#[local] Arguments Executor.init_outcome : simpl never.

Ltac log_then := eapply ends_bind_ok; [apply ends_addLog|].

(** The calls of the capability the wire carries, in order. *)
Definition calls (ws : list Effect) : list (nat * Call) :=
  omap (fun e => match e with call i c => Some (i, c) | _ => None end) ws.

(** The name a screenshot step saves under. *)
Definition screenshot_path (w : World) (i : nat) (st : AutomationStep) : JsValue :=
  js_or (assoc "path" (config st))
        (JStr ("screenshot-" +:+ pretty (screenshot_clock w i) +:+ ".png")).

(** What a step makes of the answer of its one call when it hands back
    [value] whatever the call returned. *)
Definition replaced (value : JsValue) (r : Result JsValue) : Result JsValue :=
  match r with inl _ => inl value | inr e => inr e end.

(** Whether the template literal of the entry a step logs before its
    call throws: the value it prints cannot be converted to a string. *)
Definition literal_throws (w : World) (i : nat) (st : AutomationStep) : bool :=
  let say k := js_or (assoc k (config st)) (JStr (description st)) in
  match type st with
  | navigate => refuses_ToString (js_or (assoc "url" (config st)) (JStr ""))
  | act => refuses_ToString (say "action")
  | extract | observe | agent => refuses_ToString (say "instruction")
  | wait =>
      if truthy (assoc "selector" (config st))
      then refuses_ToString (assoc "selector" (config st))
      else refuses_ToString (js_or (assoc "duration" (config st)) (JNum 1000))
  | screenshot => refuses_ToString (screenshot_path w i st)
  | scroll =>
      refuses_ToString (js_or (assoc "direction" (config st)) (JStr "down")) ||
      refuses_ToString (js_or (assoc "amount" (config st)) (JNum 500))
  | unknown _ => false
  end.

(** What the step at position [i] settles with, read off the body of
    its type. *)
Definition outcome_by_type (w : World) (i : nat) (st : AutomationStep) : Result JsValue :=
  let reply := answer (capability w i) in
  if literal_throws w i st then inr cannot_convert
  else
    match type st with
    | navigate | scroll => replaced JUndefined reply
    | act | observe | agent => reply
    | extract =>
        match assoc "schema" (config st) with
        | JStr text =>
            if String.eqb text "" then reply
            else match JSON_parse w text with
                 | inl _ => reply
                 | inr e => inr e
                 end
        | _ => reply
        end
    | wait =>
        if truthy (assoc "selector" (config st)) then replaced JUndefined reply
        else inl JUndefined
    | screenshot => replaced (screenshot_path w i st) reply
    | unknown _ => inl JNull
    end.

(** The call the step at position [i] makes, if it makes one, with the
    arguments it passes. *)
Definition call_by_type (w : World) (i : nat) (st : AutomationStep) : option Call :=
  let say k := js_or (assoc k (config st)) (JStr (description st)) in
  if literal_throws w i st then None
  else
    match type st with
    | navigate => Some (page_goto (js_or (assoc "url" (config st)) (JStr "")))
    | act => Some (stagehand_act (say "action"))
    | extract =>
        let schema := assoc "schema" (config st) in
        if truthy schema then
          match schema with
          | JStr text =>
              match JSON_parse w text with
              | inl schemaObj => Some (stagehand_extract (say "instruction") (Some schemaObj))
              | inr _ => None
              end
          | _ => Some (stagehand_extract (say "instruction") (Some schema))
          end
        else Some (stagehand_extract (say "instruction") None)
    | observe => Some (stagehand_observe (say "instruction"))
    | agent => Some (stagehand_agent (say "instruction"))
    | wait =>
        let duration := js_or (assoc "duration" (config st)) (JNum 1000) in
        let selector := assoc "selector" (config st) in
        Some (if truthy selector then page_waitForSelector selector duration
              else setTimeout duration)
    | screenshot =>
        Some (page_screenshot (screenshot_path w i st)
                              (js_or (assoc "fullPage" (config st)) (JBool false)))
    | scroll =>
        Some (page_evaluate (js_or (assoc "amount" (config st)) (JNum 500))
                            (js_or (assoc "direction" (config st)) (JStr "down")))
    | unknown _ => None
    end.


(** An operation other than a call of the capability. *)
Definition no_call (o : Op) : Prop :=
  match o with op_effect (call _ _) => False | _ => True end.

(** From [s] to [s'] the session stayed and exactly the calls [cs] were made. *)
Definition adds (cs : list (nat * Call)) (s s' : State) : Prop :=
  stagehand s' = stagehand s /\ calls (wire s') = calls (wire s) ++ cs.

(** ** Template literals *)

Lemma template_ok v literal :
  refuses_ToString v = false -> template v literal = inl (literal (js_to_string v)).
Proof. intros H. unfold template, ToString. by rewrite H. Qed.

Lemma template_throws v literal :
  refuses_ToString v = true -> template v literal = inr cannot_convert.
Proof. intros H. unfold template, ToString. by rewrite H. Qed.

Lemma addLog_of_inl level category text :
  addLog_of level category (inl text) = addLog level category text.
Proof. reflexivity. Qed.

Lemma addLog_of_inr level category e :
  addLog_of level category (inr e) = Throw e.
Proof. reflexivity. Qed.

Lemma bind_throw {A B} e (f : A -> Proc B) : bind (Throw e) f = Throw e.
Proof. reflexivity. Qed.

(** The entry with a template literal, once it is known whether the
    literal throws. *)
Ltac literal H :=
  first
    [ rewrite !(template_ok _ _ H), !addLog_of_inl
    | rewrite !(template_throws _ _ H), !addLog_of_inr, ?bind_throw ].

Section Steps.
Variable w : World.
Variable executionId : string.

Abbreviation run := (run w executionId).

(** A step body that logs, makes its one call, logs again and returns
    [value]. *)
Lemma ends_call_then i c before after value :
  ends (bind (addLog lvl_info before.1 before.2) (fun _ =>
        bind (await (ask w i c)) (fun _ =>
        bind (addLog lvl_success after.1 after.2) (fun _ => Ret value))))
       (replaced value (answer (capability w i))).
Proof.
  log_then.
  pose proof (ends_await _ _ (ends_ask w i c)) as Hask.
  destruct (answer (capability w i)) as [v|e]; cbn [replaced].
  - eapply ends_bind_ok; [exact Hask|]. log_then. exact eq_refl.
  - by apply ends_bind_error.
Qed.

(** A step body that logs, makes its one call, logs again and returns
    what the call returned. *)
Lemma ends_call_through i c before after :
  ends (bind (addLog lvl_info before.1 before.2) (fun _ =>
        bind (await (ask w i c)) (fun result =>
        bind (addLog lvl_success after.1 after.2) (fun _ => Ret result))))
       (answer (capability w i)).
Proof.
  log_then.
  pose proof (ends_await _ _ (ends_ask w i c)) as Hask.
  destruct (answer (capability w i)) as [v|e].
  - eapply ends_bind_ok; [exact Hask|]. log_then. exact eq_refl.
  - by apply ends_bind_error.
Qed.

Lemma dispatch_ends i st : ends (dispatch w i st) (outcome_by_type w i st).
Proof.
  unfold dispatch, outcome_by_type, literal_throws.
  destruct (type st) eqn:Htype.
  - (* act *)
    apply ends_await. unfold executeAct.
    destruct (refuses_ToString _) eqn:Hshown; literal Hshown; [exact eq_refl|].
    apply (ends_call_through i _ ("act", _) ("act", _)).
  - (* extract *)
    apply ends_await. unfold executeExtract.
    destruct (refuses_ToString _) eqn:Hshown; literal Hshown; [exact eq_refl|].
    log_then.
    destruct (assoc "schema" (config st)) as [| |b|n|text|items|fields] eqn:Hschema;
      cbn [truthy];
      try (eapply ends_settle; [apply ends_await, ends_ask|];
           destruct (answer (capability w i)); [log_then|]; exact eq_refl).
    + destruct b;
        (eapply ends_settle; [apply ends_await, ends_ask|];
         destruct (answer (capability w i)); [log_then|]; exact eq_refl).
    + destruct (n =? 0); cbn [negb];
        (eapply ends_settle; [apply ends_await, ends_ask|];
         destruct (answer (capability w i)); [log_then|]; exact eq_refl).
    + destruct (String.eqb text ""); cbn [negb].
      * eapply ends_settle; [apply ends_await, ends_ask|].
        destruct (answer (capability w i)); [log_then|]; exact eq_refl.
      * destruct (JSON_parse w text) as [schemaObj|e]; cbn [of_result bind settle].
        -- eapply ends_settle; [apply ends_await, ends_ask|].
           destruct (answer (capability w i)); [log_then|]; exact eq_refl.
        -- exact eq_refl.
  - (* observe *)
    apply ends_await. unfold executeObserve.
    destruct (refuses_ToString _) eqn:Hshown; literal Hshown; [exact eq_refl|].
    apply (ends_call_through i _ ("observe", _) ("observe", _)).
  - (* navigate *)
    apply ends_await. unfold executeNavigate.
    destruct (refuses_ToString _) eqn:Hshown; literal Hshown; [exact eq_refl|].
    apply (ends_call_then i _ ("navigation", _) ("navigation", _)).
  - (* wait *)
    apply ends_await. unfold executeWait.
    destruct (truthy (assoc "selector" (config st)));
      destruct (refuses_ToString _) eqn:Hshown; literal Hshown; try exact eq_refl.
    + apply (ends_call_then i _ ("wait", _) ("wait", _)).
    + log_then. eapply (ends_bind_ok _ _ tt); [by split|]. log_then. exact eq_refl.
  - (* screenshot *)
    apply ends_await. unfold executeScreenshot. fold (screenshot_path w i st).
    destruct (refuses_ToString _) eqn:Hshown; literal Hshown; [exact eq_refl|].
    apply (ends_call_then i _ ("screenshot", _) ("screenshot", _)).
  - (* scroll *)
    apply ends_await. unfold executeScroll, ToString.
    destruct (refuses_ToString (js_or (assoc "direction" (config st)) (JStr "down")));
      cbn [orb]; [rewrite addLog_of_inr, bind_throw; exact eq_refl|].
    destruct (refuses_ToString _) eqn:Hshown; literal Hshown; [exact eq_refl|].
    apply (ends_call_then i _ ("scroll", _) ("scroll", _)).
  - (* agent *)
    apply ends_await. unfold executeAgent.
    destruct (refuses_ToString _) eqn:Hshown; literal Hshown; [exact eq_refl|].
    apply (ends_call_through i _ ("agent", _) ("agent", _)).
  - (* unknown *)
    log_then. exact eq_refl.
Qed.

(** What each type of step settles with. *)
Lemma step_outcome_by_type i st :
  step_outcome w executionId i st = outcome_by_type w i st.
Proof. apply dispatch_decides, dispatch_ends. Qed.

(** [navigate], [scroll] and [wait] steps that succeed produce
    [undefined]; a step of an unknown type produces [null]. *)
Lemma void_step_outcome i st value :
  step_outcome w executionId i st = inl value ->
  match type st with
  | navigate | scroll | wait => value = JUndefined
  | unknown _ => value = JNull
  | _ => True
  end.
Proof.
  rewrite step_outcome_by_type. unfold outcome_by_type.
  destruct (literal_throws w i st); [discriminate|].
  destruct (type st); try done.
  - destruct (answer (capability w i)); cbn; congruence.
  - destruct (truthy (assoc "selector" (config st))); [|congruence].
    destruct (answer (capability w i)); cbn; congruence.
  - destruct (answer (capability w i)); cbn; congruence.
  - congruence.
Qed.

(** ** The calls of a step *)

Lemma calls_app a b : calls (a ++ b) = calls a ++ calls b.
Proof. apply omap_app. Qed.

Lemma adds_refl s : adds [] s s.
Proof. split; [done|by rewrite app_nil_r]. Qed.

Lemma adds_trans a b s1 s2 s3 : adds a s1 s2 -> adds b s2 s3 -> adds (a ++ b) s1 s3.
Proof. intros [H1 H2] [H3 H4]. split; [congruence|]. by rewrite H4, H2, app_assoc. Qed.

Lemma adds_op o s : quiet o -> no_call o -> adds [] s (apply_op w executionId o s).
Proof.
  intros Hq Hn. split; [by destruct (kept_op w executionId o s Hq)|].
  rewrite app_nil_r.
  destruct o as [level category message|e|u|h| |]; cbn; rewrite ?calls_app; cbn;
    rewrite ?app_nil_r; try done.
  destruct e; cbn in *; rewrite ?app_nil_r; done.
Qed.

Lemma run_adds_nothing {A} (p : Proc A) s :
  every_op (fun o => quiet o /\ no_call o) p -> adds [] s (run p s).1.
Proof.
  apply (run_frame w executionId (fun o => quiet o /\ no_call o) (adds [])).
  - apply adds_refl.
  - intros s1 s2 s3 H1 H2. apply (adds_trans [] [] s1 s2 s3 H1 H2).
  - intros o s0 [Hq Hn]. by apply adds_op.
Qed.

Lemma ask_run i c s :
  stagehand s <> None ->
  exists s', run (await (ask w i c)) s = (s', answer (capability w i)) /\
             adds [(i, c)] s s'.
Proof.
  intros Hs. rewrite run_await.
  destruct (ends_quiet w executionId _ _ (ends_ask w i c) s Hs) as [_ Hr].
  destruct (run (ask w i c) s) as [s' r] eqn:E. cbn [snd] in Hr. subst r.
  exists s'. split; [done|].
  unfold ask in E. cbn [Executor.run] in E.
  pose proof (run_adds_nothing
    (consult w (completions (capability w i)) (Await (of_result (answer (capability w i)))))
    (apply_op w executionId (op_effect (call i c)) s)) as H.
  rewrite E in H. cbn [fst] in H.
  rewrite <- (app_nil_r [(i, c)]).
  apply (adds_trans [(i, c)] [] s (apply_op w executionId (op_effect (call i c)) s) s').
  - split; [done|]. cbn. by rewrite calls_app.
  - apply H. apply every_op_consult; [done|done|]. cbn. apply every_op_of_result.
Qed.

Lemma log_adds level category message s :
  adds [] s (apply_op w executionId (op_addLog level category message) s).
Proof. by apply adds_op. Qed.

(** A step body that logs, makes its one call, logs again and returns. *)
Lemma body_calls i c before after (f : JsValue -> JsValue) s :
  stagehand s <> None ->
  adds [(i, c)] s
    (run (bind (addLog lvl_info before.1 before.2) (fun _ =>
          bind (await (ask w i c)) (fun result =>
          bind (addLog lvl_success after.1 after.2) (fun _ => Ret (f result))))) s).1.
Proof.
  intros Hs. rewrite run_bind. cbn [Executor.run addLog].
  set (s1 := apply_op w executionId _ s).
  destruct (ask_run i c s1) as (s2 & Hask & Hadd); [done|].
  rewrite run_bind, Hask.
  apply (adds_trans [] [(i, c)] s s1); [apply log_adds|].
  destruct (answer (capability w i)); [|done].
  rewrite run_bind. cbn [Executor.run addLog fst].
  rewrite <- (app_nil_r [(i, c)]).
  eapply adds_trans; [exact Hadd|apply log_adds].
Qed.

Lemma dispatch_calls i st s :
  stagehand s <> None ->
  adds (match call_by_type w i st with Some c => [(i, c)] | None => [] end)
       s (run (dispatch w i st) s).1.
Proof.
  intros Hs. unfold dispatch, call_by_type, literal_throws.
  destruct (type st) eqn:Htype; rewrite ?run_await.
  - unfold executeAct.
    destruct (refuses_ToString _) eqn:Hshown; literal Hshown; [apply adds_refl|].
    apply (body_calls i _ ("act", _) ("act", _) (fun r => r) s Hs).
  - unfold executeExtract.
    destruct (refuses_ToString _) eqn:Hshown; literal Hshown; [apply adds_refl|].
    rewrite run_bind. cbn [Executor.run addLog].
    set (s1 := apply_op w executionId _ s).
    assert (Hs1 : stagehand s1 <> None) by done.
    assert (Hlog : adds [] s s1) by apply log_adds.
    rewrite run_bind.
    destruct (truthy (assoc "schema" (config st))) eqn:Htruthy.
    + rewrite run_bind, run_of_result.
      assert (Hgo : forall schemaObj,
        adds [(i, stagehand_extract
                    (js_or (assoc "instruction" (config st)) (JStr (description st)))
                    (Some schemaObj))] s
          (let (s', r0) :=
             run (await (ask w i (stagehand_extract
                    (js_or (assoc "instruction" (config st)) (JStr (description st)))
                    (Some schemaObj)))) s1 in
           match r0 with
           | inl a => run (bind (addLog lvl_success "extract" "Data extracted successfully")
                                (fun _ => Ret a)) s'
           | inr e => (s', inr e)
           end).1).
      { intros schemaObj.
        destruct (ask_run i (stagehand_extract
                    (js_or (assoc "instruction" (config st)) (JStr (description st)))
                    (Some schemaObj)) s1 Hs1) as (s2 & Hask & Hadd).
        rewrite Hask. apply (adds_trans [] _ s s1 _ Hlog).
        destruct (answer (capability w i)); [|done].
        cbn [Executor.run addLog bind settle fst].
        rewrite <- (app_nil_r [_]). eapply adds_trans; [exact Hadd|apply log_adds]. }
      destruct (assoc "schema" (config st)) as [| |b|n|text|items|fields]; try apply Hgo.
      destruct (JSON_parse w text) as [schemaObj|e]; [apply Hgo|]. exact Hlog.
    + destruct (ask_run i (stagehand_extract
                  (js_or (assoc "instruction" (config st)) (JStr (description st)))
                  None) s1 Hs1) as (s2 & Hask & Hadd).
      rewrite Hask. apply (adds_trans [] _ s s1 _ Hlog).
      destruct (answer (capability w i)); [|done].
      cbn [Executor.run addLog bind settle fst].
      rewrite <- (app_nil_r [_]). eapply adds_trans; [exact Hadd|apply log_adds].
  - unfold executeObserve.
    destruct (refuses_ToString _) eqn:Hshown; literal Hshown; [apply adds_refl|].
    apply (body_calls i _ ("observe", _) ("observe", _) (fun r => r) s Hs).
  - unfold executeNavigate.
    destruct (refuses_ToString _) eqn:Hshown; literal Hshown; [apply adds_refl|].
    apply (body_calls i _ ("navigation", _) ("navigation", _) (fun _ => JUndefined) s Hs).
  - unfold executeWait. destruct (truthy (assoc "selector" (config st)));
      destruct (refuses_ToString _) eqn:Hshown; literal Hshown; try apply adds_refl.
    + apply (body_calls i _ ("wait", _) ("wait", _) (fun _ => JUndefined) s Hs).
    + unfold adds. cbn -[calls]. split; [done|]. rewrite !calls_app. cbn. by rewrite !app_nil_r.
  - unfold executeScreenshot. fold (screenshot_path w i st).
    destruct (refuses_ToString _) eqn:Hshown; literal Hshown; [apply adds_refl|].
    apply (body_calls i _ ("screenshot", _) ("screenshot", _)
             (fun _ => screenshot_path w i st) s Hs).
  - unfold executeScroll, ToString.
    destruct (refuses_ToString (js_or (assoc "direction" (config st)) (JStr "down")));
      cbn [orb]; [rewrite addLog_of_inr, bind_throw; apply adds_refl|].
    destruct (refuses_ToString _) eqn:Hshown; literal Hshown; [apply adds_refl|].
    apply (body_calls i _ ("scroll", _) ("scroll", _) (fun _ => JUndefined) s Hs).
  - unfold executeAgent.
    destruct (refuses_ToString _) eqn:Hshown; literal Hshown; [apply adds_refl|].
    apply (body_calls i _ ("agent", _) ("agent", _) (fun r => r) s Hs).
  - unfold adds. cbn -[calls]. split; [done|]. rewrite !calls_app. cbn. by rewrite !app_nil_r.
Qed.

(** The calls a step makes, by its type. *)
Lemma executeStep_calls i st s :
  stagehand s <> None ->
  adds (match call_by_type w i st with Some c => [(i, c)] | None => [] end)
       s (run (executeStep w i st) s).1.
Proof.
  intros Hs. unfold executeStep. cbn [Executor.run].
  destruct (stagehand s) eqn:Hsh; [|done].
  rewrite run_bind. cbn [Executor.run addLog].
  set (s1 := apply_op w executionId _ s).
  assert (Hs1 : stagehand s1 <> None) by (subst s1; cbn; congruence).
  pose proof (dispatch_calls i st s1 Hs1) as Hd.
  rewrite run_try_catch, run_bind.
  destruct (run (dispatch w i st) s1) as [s2 [value|e]]; cbn [fst] in Hd;
    rewrite ?run_bind; cbn [Executor.run addLog fst].
  - rewrite <- (app_nil_l (match call_by_type w i st with Some c => _ | None => _ end)).
    apply (adds_trans [] _ s s1); [apply log_adds|].
    rewrite <- (app_nil_r (match call_by_type w i st with Some c => _ | None => _ end)).
    eapply adds_trans; [exact Hd|apply log_adds].
  - rewrite <- (app_nil_l (match call_by_type w i st with Some c => _ | None => _ end)).
    apply (adds_trans [] _ s s1); [apply log_adds|].
    rewrite <- (app_nil_r (match call_by_type w i st with Some c => _ | None => _ end)).
    eapply adds_trans; [exact Hd|apply log_adds].
Qed.

(** The outcome and the state a step leaves, together. *)
Lemma executeStep_result i st s :
  stagehand s <> None ->
  (run (executeStep w i st) s).2 = outcome_by_type w i st.
Proof.
  intros Hs. destruct (executeStep_run w executionId i st s Hs) as (s' & body & Hrun & _).
  rewrite Hrun. apply step_outcome_by_type.
Qed.

Lemma default_name_truthy n : truthy (JStr ("screenshot-" +:+ n +:+ ".png")) = true.
Proof. reflexivity. Qed.

Lemma screenshot_path_truthy i st : truthy (screenshot_path w i st) = true.
Proof.
  unfold screenshot_path, js_or.
  destruct (truthy (assoc "path" (config st))) eqn:H; [done|apply default_name_truthy].
Qed.

End Steps.

End StepFacts.

(* ================================================================== *)
(** * The gateway responses of a run                                    *)
(* ================================================================== *)

Module Accounting.
Import Executor ExecutorFacts StepFacts.

#[local] Arguments String.append : simpl never.
#[local] Arguments pretty : simpl never.
#[local] Arguments Executor.step_outcome : simpl never.
#[local] Arguments Executor.init_outcome : simpl never.


(** The usage counts an operation puts on the wire. *)
Definition said (o : Op) : list Gateway.Usage :=
  match o with
  | op_usage u | op_effect (gateway_usage u) => [u]
  | _ => []
  end.

(** [tells p us]: [p] is quiet and the responses that reach it are
    those of [us], in this order, whatever it reads while the session is
    there. *)
Fixpoint tells {A} (p : Proc A) (us : list Gateway.Usage) : Prop :=
  match p with
  | Ret _ | Throw _ => us = []
  | Do o k => quiet o /\ exists rest, us = said o ++ rest /\ tells k rest
  | Get k => forall s, stagehand s <> None -> tells (k s) us
  | Await k => tells k us
  end.





Section Responses.
Variable w : World.
Variable executionId : string.

Abbreviation run := (run w executionId).
Abbreviation advance := (advance w executionId).
Abbreviation apply_op := (apply_op w executionId).



(** ** What a body is told *)








Lemma tells_addLog level category message : tells (addLog level category message) [].
Proof. split; [done|]. by exists []. Qed.








(** ** Bodies in flight together *)







(** ** The parts of a run that hear nothing *)







(** ** The responses of a run *)





End Responses.

End Accounting.

(* ================================================================== *)
(** * The orchestrator against its specification                        *)
(* ================================================================== *)

Module Orchestrator.
Import Executor ExecutorFacts StepFacts Accounting Storage Routes.

#[local] Arguments String.append : simpl never.
#[local] Arguments pretty : simpl never.
#[local] Arguments Executor.step_outcome : simpl never.
#[local] Arguments Executor.init_outcome : simpl never.

(** The status the handler records for a resolved run. *)
Definition recorded_status (rec : ExecResult) (completedAt : Z) (stored : Stored) : Status :=
  st_status (spread stored (final_update rec completedAt)).

Lemma recorded_status_spec rec completedAt stored :
  recorded_status rec completedAt stored =
  if is_null (res_results rec) then failed else completed.
Proof. unfold recorded_status, final_update. by destruct (is_null (res_results rec)). Qed.

Lemma is_null_spec v : is_null v = true <-> v = JNull.
Proof. destruct v; cbn; split; congruence. Qed.

(** C1: [execute] never raises: on every workflow, in every world and
    under every schedule it resolves to a record
    [{results, logs, duration, tokenUsage}].  The handler then writes the
    status [failed] exactly when [results] is [null], and [completed] for
    every other value, the empty array included. *)
Theorem execute_resolves_and_status_follows_results
    (w : World) (executionId : string) (schedule : list nat) (workflow : Workflow) :
  exists s' rec,
    execute w executionId schedule workflow fresh = (s', inl rec) /\
    forall executions stored completedAt,
      executions !! executionId = Some stored ->
      exists updated,
        (updateExecution executionId (final_update rec completedAt) executions).2
          = Some updated /\
        (st_status updated = failed <-> res_results rec = JNull) /\
        (res_results rec <> JNull -> st_status updated = completed) /\
        (res_results rec = JArr [] -> st_status updated = completed).
Proof.
  destruct (execute_run w executionId schedule workflow)
    as (s' & rec & _ & _ & _ & _ & _ & Hrun & _).
  exists s', rec. split; [done|].
  intros executions stored completedAt Hstored.
  unfold updateExecution. rewrite Hstored. cbn [snd].
  eexists. split; [reflexivity|].
  fold (recorded_status rec completedAt stored). rewrite recorded_status_spec.
  pose proof (is_null_spec (res_results rec)) as Hnull.
  destruct (is_null (res_results rec)).
  - assert (res_results rec = JNull) as -> by (by apply Hnull).
    split; [done|]. split; [done|]. discriminate.
  - assert (res_results rec <> JNull) by (intros H; apply Hnull in H; discriminate).
    split; [split; [discriminate|done]|]. done.
Qed.

(** The run reaches aggregation: the session starts, and in the
    sequential mode no step fails. *)
Definition reaches_aggregation (w : World) (executionId : string) (workflow : Workflow)
  : Prop :=
  init_outcome w executionId workflow = inl tt /\
  (executionMode workflow = sequential ->
   forall i st, steps workflow !! i = Some st ->
                exists value, step_outcome w executionId i st = inl value).

Lemma loop_outcome_all_succeed w executionId todo : forall i results,
  (forall j st, todo !! j = Some st ->
                exists value, step_outcome w executionId (i + j) st = inl value) ->
  loop_outcome w executionId i todo results
    = inl (gather w executionId i todo results).
Proof.
  induction todo as [|st rest IH]; intros i results Hall; cbn; [done|].
  destruct (Hall 0%nat st eq_refl) as [value Hv]. rewrite Nat.add_0_r in Hv. rewrite Hv.
  apply IH. intros j st' Hj. specialize (Hall (S j) st' Hj).
  by rewrite Nat.add_succ_r in Hall.
Qed.

Lemma aggregated_results w executionId schedule workflow :
  reaches_aggregation w executionId workflow ->
  exists s' rec,
    execute w executionId schedule workflow fresh = (s', inl rec) /\
    res_results rec = unwrap (entries_from w executionId 0 (steps workflow)).
Proof.
  intros [Hinit Hseq].
  destruct (execute_run w executionId schedule workflow)
    as (s' & rec & t0 & pre & mid & post & tail & Hrun & _ & _ & _ & _ & _ & _ & Hcase).
  exists s', rec. split; [done|].
  rewrite Hinit in Hcase. destruct (executionMode workflow).
  - destruct Hcase as [_ Hcase].
    rewrite (loop_outcome_all_succeed w executionId _ 0 []) in Hcase by (by apply Hseq).
    destruct Hcase as [_ ->]. by rewrite gather_entries.
  - destruct Hcase as (_ & _ & ->). by rewrite gather_entries.
Qed.



Lemma entries_from_app w executionId a b : forall i,
  entries_from w executionId i (a ++ b)
    = entries_from w executionId i a ++ entries_from w executionId (i + length a) b.
Proof.
  induction a as [|st a IH]; intros i; cbn [entries_from app length].
  { by rewrite Nat.add_0_r. }
  rewrite (IH (S i)), Nat.add_succ_r.
  by destruct (contribution w executionId i st).
Qed.





(** ** The sequential mode *)

(** Effects that belong to no step: no call of the capability, no usage
    count, no progress event, no entry in the category of the steps. *)
Definition outside (e : Effect) : Prop :=
  match e with
  | call _ _ | gateway_usage _ | io_emit (execution_progress _ _ _ _) => False
  | io_emit (execution_log _ l) => category l <> "step"
  | _ => True
  end.

Lemma init_effect_outside e : init_effect e -> outside e.
Proof.
  destruct e as [[]| | | | | | | | |]; cbn; try done. by intros ->.
Qed.

Lemma closing_outside executionId tail :
  closing executionId tail -> Forall outside (entered_cleanup :: tail).
Proof. intros (t1 & t2 & level & message & ->). by repeat constructor. Qed.

Lemma gave_up_outside executionId post : gave_up executionId post -> Forall outside post.
Proof. intros (t & m & ->). by repeat constructor. Qed.

(** The wire of a sequential run whose session started: what precedes the
    steps, the blocks of the steps that ran, what follows them. *)
Lemma sequential_wire w executionId schedule workflow :
  executionMode workflow = sequential ->
  init_outcome w executionId workflow = inl tt ->
  let totalSteps := length (steps workflow) in
  exists s' rec before mid after,
    execute w executionId schedule workflow fresh = (s', inl rec) /\
    wire s' = before ++ mid ++ after /\
    logs s' = logged (wire s') /\ res_logs rec = logs s' /\
    Forall outside before /\
    blocks w executionId 0 totalSteps (ran w executionId 0 (steps workflow)) mid /\
    match loop_outcome w executionId 0 (steps workflow) [] with
    | inl entries =>
        res_results rec = unwrap entries /\
        exists rest,
          after = io_emit (execution_progress executionId totalSteps totalSteps "Completed")
                  :: rest /\
          Forall outside rest
    | inr e => res_results rec = JNull /\ Forall outside after
    end.
Proof.
  intros Hmode Hinit totalSteps.
  destruct (execute_run w executionId schedule workflow)
    as (s' & rec & t0 & pre & mid & post & tail & Hrun & Hw & Hpre & Htail
        & [Hlogs _] & Hrl & _ & Hcase).
  rewrite Hinit, Hmode in Hcase. destruct Hcase as [Hblocks Hcase].
  assert (Hend : Forall outside (entered_cleanup :: tail)).
  { destruct (construct_fails w).
    - destruct Htail as [-> _]. by repeat constructor.
    - destruct Htail as [Hclosing _]. by eapply closing_outside. }
  exists s', rec,
    (log_effects executionId (mkLog t0 lvl_info "execution"
                                    ("Starting workflow: " +:+ wf_name workflow)) ++ pre),
    mid, (post ++ entered_cleanup :: tail).
  split; [done|]. split; [by rewrite Hw, <- !app_assoc|].
  split; [done|]. split; [done|]. split.
  { apply Forall_app. split; [by repeat constructor|].
    eapply Forall_impl; [exact Hpre|apply init_effect_outside]. }
  split; [done|].
  fold totalSteps in Hcase.
  destruct (loop_outcome w executionId 0 (steps workflow) []) as [entries|e].
  - destruct Hcase as [(t & m & ->) Hres]. split; [done|].
    eexists. split; [reflexivity|]. cbn [app].
    constructor; [by intros ?|]. constructor; [done|]. exact Hend.
  - destruct Hcase as [Hgu Hres]. split; [done|].
    apply Forall_app. split; [by eapply gave_up_outside|done].
Qed.

Lemma outside_transcript ws : Forall outside ws -> transcript (logged ws) = [].
Proof.
  intros H. apply step_free_transcript. eapply Forall_impl; [exact H|].
  by intros [[]| | | | | | | | |].
Qed.

(** Effects that name no position beyond [k]. *)
Definition up_to (k : nat) (e : Effect) : Prop :=
  match e with
  | call j _ | io_emit (execution_progress _ j _ _) => (j <= k)%nat
  | _ => True
  end.

Lemma outside_up_to k e : outside e -> up_to k e.
Proof. by destruct e as [[]| | | | | | | | |]. Qed.

Lemma within_up_to k e : within 0 (S k) e -> up_to k e.
Proof. destruct e as [[]| | | | | | | | |]; cbn; try done; lia. Qed.

(** C3: in the sequential mode, when the step at position [k] is the
    first to fail, the log holds, among the entries that open and close
    steps, exactly [k] pairs (step started, step completed) followed by
    the pair (step started, step failed) of step [k]; the run resolves to
    the failure sentinel, so that the execution is recorded as failed;
    and nothing on the wire names a position after [k]: no later step is
    announced or calls the capability. *)
Theorem sequential_failure_stops_the_run
    (w : World) (executionId : string) (schedule : list nat) (workflow : Workflow)
    (k : nat) (stepk : AutomationStep) (e : JsError) :
  executionMode workflow = sequential ->
  init_outcome w executionId workflow = inl tt ->
  steps workflow !! k = Some stepk ->
  step_outcome w executionId k stepk = inr e ->
  (forall j st, (j < k)%nat -> steps workflow !! j = Some st ->
                exists value, step_outcome w executionId j st = inl value) ->
  exists s' rec,
    execute w executionId schedule workflow fresh = (s', inl rec) /\
    res_logs rec = logs s' /\
    transcript (logs s')
      = flat_map success_pair (take k (steps workflow)) ++ failure_pair stepk e /\
    res_results rec = JNull /\
    (forall completedAt stored, recorded_status rec completedAt stored = failed) /\
    Forall (up_to k) (wire s').
Proof.
  intros Hmode Hinit Hk Hfail Hbefore.
  destruct (sequential_wire w executionId schedule workflow Hmode Hinit)
    as (s' & rec & before & mid & after & Hrun & Hw & Hlogs & Hrl & Hb & Hblocks & Hcase).
  destruct (first_failure_run w executionId (steps workflow) 0 k stepk e [] Hk Hfail Hbefore)
    as (Hexp & Hlen & Hloop).
  rewrite Hloop in Hcase. destruct Hcase as [Hres Hafter].
  exists s', rec. split; [done|]. split; [done|]. split; [|split; [done|split]].
  - rewrite Hlogs, Hw, !logged_app, !transcript_app.
    rewrite (outside_transcript _ Hb), (outside_transcript _ Hafter).
    rewrite (blocks_transcript w executionId _ _ _ _ Hblocks), Hexp.
    by rewrite app_nil_r.
  - intros completedAt stored. by rewrite recorded_status_spec, Hres.
  - rewrite Hw. apply Forall_app. split; [|apply Forall_app; split].
    + eapply Forall_impl; [exact Hb|apply outside_up_to].
    + apply blocks_within in Hblocks. rewrite Hlen in Hblocks.
      eapply Forall_impl; [exact Hblocks|apply within_up_to].
    + eapply Forall_impl; [exact Hafter|apply outside_up_to].
Qed.

(** C6 (amended): in the sequential mode the steps run in the order of
    their positions in [workflow.steps]; the [order] field is not
    consulted.  Between what precedes the steps and what follows them,
    the wire is made of one block per step that ran, in ascending
    position: the progress event [(position, totalSteps, description)],
    then everything the step does, from its opening entry to its closing
    entry, with nothing of another step in between.  When no step fails
    these are the blocks of all the steps. *)
Theorem sequential_steps_run_in_position_order
    (w : World) (executionId : string) (schedule : list nat) (workflow : Workflow) :
  executionMode workflow = sequential ->
  init_outcome w executionId workflow = inl tt ->
  exists s' rec before mid after,
    execute w executionId schedule workflow fresh = (s', inl rec) /\
    wire s' = before ++ mid ++ after /\
    Forall outside before /\
    blocks w executionId 0 (length (steps workflow))
           (ran w executionId 0 (steps workflow)) mid /\
    Forall (fun e => match e with
                     | io_emit (execution_progress _ j _ _) => j = length (steps workflow)
                     | _ => outside e
                     end) after /\
    ((forall j st, steps workflow !! j = Some st ->
                   exists value, step_outcome w executionId j st = inl value) ->
     ran w executionId 0 (steps workflow) = steps workflow).
Proof.
  intros Hmode Hinit.
  destruct (sequential_wire w executionId schedule workflow Hmode Hinit)
    as (s' & rec & before & mid & after & Hrun & Hw & _ & _ & Hb & Hblocks & Hcase).
  exists s', rec, before, mid, after.
  split; [done|]. split; [done|]. split; [done|]. split; [done|]. split.
  - destruct (loop_outcome w executionId 0 (steps workflow) []).
    + destruct Hcase as (_ & rest & -> & Hrest). constructor; [done|].
      eapply Forall_impl; [exact Hrest|]. by intros [[]| | | | | | | | |].
    + destruct Hcase as [_ Hafter].
      eapply Forall_impl; [exact Hafter|]. by intros [[]| | | | | | | | |].
  - intros Hall. by apply all_succeed_ran.
Qed.

(** ** Concrete runs *)

(** A world in which the session works and the capability answers the
    step at position [i] with [cap i]. *)
Definition world_of (cap : nat -> Reply) : World :=
  {| Date_now := fun n => Z.of_nat n;
     screenshot_clock := fun _ => 0;
     construct_fails := None;
     init_fails := None;
     setViewportSize_fails := None;
     setUserAgent_fails := None;
     capability := cap;
     close_fails := None;
     JSON_parse := fun _ => inr (mkError "SyntaxError" "Unexpected token");
     toFixed2 := fun ms => pretty (ms / 1000);
     Number_of_string := fun _ => PrimFloat.nan |}.

Definition price : JsValue := JObj [("price", JNum 42)].

(** Every call succeeds with a price. *)
Definition calm : World :=
  world_of (fun _ => {| completions := []; answer := inl price |}).

(** The call of the step at position 1 fails. *)
Definition second_fails : World :=
  world_of (fun i => match i with
                     | 1%nat => {| completions := [];
                                   answer := inr (Error "element not found") |}
                     | _ => {| completions := []; answer := inl price |}
                     end).

Definition open_page : AutomationStep :=
  mkStep "s0" navigate "Open the page" [("url", JStr "https://example.com")] 0.

Definition read_price : AutomationStep :=
  mkStep "s1" extract "Read the price" [] 1.

Definition shop : Workflow :=
  mkWorkflow "wf" "Shop" [open_page; read_price] sequential None.

(** The same two steps, stored with the later order index first. *)
Definition later_first : Workflow :=
  mkWorkflow "wf" "Shop"
    [mkStep "b" navigate "Second by order" [("url", JStr "https://b.example")] 1;
     mkStep "a" navigate "First by order" [("url", JStr "https://a.example")] 0]
    sequential None.

Lemma shop_reaches_aggregation : reaches_aggregation calm "run" shop.
Proof.
  split; [by vm_compute|]. intros _ [|[|i]] st Hst; cbn in Hst; try done;
    injection Hst as <-; eexists; by vm_compute.
Qed.


Lemma shop_first_steps_succeed :
  forall j st, (j < 1)%nat -> steps shop !! j = Some st ->
               exists value, step_outcome second_fails "run" j st = inl value.
Proof.
  intros [|j] st Hj Hst; [|lia]. injection Hst as <-. eexists. by vm_compute.
Qed.

Lemma sequential_failure_stops_the_run_witness :
  executionMode shop = sequential /\
  init_outcome second_fails "run" shop = inl tt /\
  steps shop !! 1%nat = Some read_price /\
  step_outcome second_fails "run" 1 read_price = inr (Error "element not found") /\
  exists s' rec,
    execute second_fails "run" [] shop fresh = (s', inl rec) /\
    res_logs rec = logs s' /\
    transcript (logs s')
      = flat_map success_pair (take 1 (steps shop))
        ++ failure_pair read_price (Error "element not found") /\
    res_results rec = JNull /\
    (forall completedAt stored, recorded_status rec completedAt stored = failed) /\
    Forall (up_to 1) (wire s').
Proof.
  split; [reflexivity|]. split; [by vm_compute|]. split; [reflexivity|].
  split; [by vm_compute|].
  apply (sequential_failure_stops_the_run second_fails "run" [] shop 1 read_price
           (Error "element not found")).
  - reflexivity.
  - by vm_compute.
  - reflexivity.
  - by vm_compute.
  - exact shop_first_steps_succeed.
Defined.

Lemma sequential_steps_run_in_position_order_witness :
  executionMode shop = sequential /\
  init_outcome calm "run" shop = inl tt /\
  exists s' rec before mid after,
    execute calm "run" [] shop fresh = (s', inl rec) /\
    wire s' = before ++ mid ++ after /\
    Forall outside before /\
    blocks calm "run" 0 (length (steps shop)) (ran calm "run" 0 (steps shop)) mid /\
    Forall (fun e => match e with
                     | io_emit (execution_progress _ j _ _) => j = length (steps shop)
                     | _ => outside e
                     end) after /\
    ((forall j st, steps shop !! j = Some st ->
                   exists value, step_outcome calm "run" j st = inl value) ->
     ran calm "run" 0 (steps shop) = steps shop).
Proof.
  split; [reflexivity|]. split; [by vm_compute|].
  apply (sequential_steps_run_in_position_order calm "run" [] shop);
    [reflexivity|by vm_compute].
Defined.

(** The order indices of the steps in the order in which they called the
    capability. *)
Definition order_of_calls (workflow : Workflow) (ws : list Effect) : list Z :=
  omap (fun e => match e with
                 | call i _ => order <$> steps workflow !! i
                 | _ => None
                 end) ws.

(** C6: the claim fails on a workflow stored with the later order index
    first.  The loop follows the array: the step whose order index is 1
    runs, and completes, before the step whose order index is 0. *)
Lemma stored_order_beats_order_index :
  order_of_calls later_first (wire (execute calm "run" [] later_first fresh).1) = [1; 0].
Proof. by vm_compute. Qed.

(** ** The parallel mode *)

Definition only_navigation : Workflow :=
  mkWorkflow "wf" "Visit" [open_page] parallel None.

(** C4: the claim fails on the count of entries.  One [navigate] step in
    the parallel mode succeeds ([N] = 1, [M] = 0) and [results] is the
    empty array: a step that succeeds with no value adds no entry. *)
Lemma parallel_success_without_entry :
  exists s' rec,
    execute calm "run" [] only_navigation fresh = (s', inl rec) /\
    res_results rec = JArr [] /\
    (length (steps only_navigation)
     - failed_from calm "run" 0 (steps only_navigation))%nat = 1%nat.
Proof. eexists _, _. split; [by vm_compute|]. split; by vm_compute. Qed.

(** C4 (amended): in the parallel mode, once the session has started, a
    failing step fails neither its siblings nor the run.  Every step is
    started; each failing step is logged as an error; the run resolves to
    a value other than the failure sentinel, so that the execution is
    recorded as completed; and, whatever the schedule, [results] is built
    from one entry per step that succeeded with a truthy value, in the
    order of the steps: at most [N - M] entries for [M] failing steps
    among [N]. *)
Theorem parallel_failures_are_isolated
    (w : World) (executionId : string) (schedule : list nat) (workflow : Workflow) :
  executionMode workflow = parallel ->
  init_outcome w executionId workflow = inl tt ->
  let entries := entries_from w executionId 0 (steps workflow) in
  exists s' rec,
    execute w executionId schedule workflow fresh = (s', inl rec) /\
    res_logs rec = logs s' /\
    (forall j st, steps workflow !! j = Some st ->
       exists t, mkLog t lvl_info "step" (start_message st) ∈ logs s') /\
    (forall j st reason,
       steps workflow !! j = Some st -> step_outcome w executionId j st = inr reason ->
       exists t, mkLog t lvl_error "execution" (parallel_failure j reason) ∈ logs s') /\
    res_results rec = unwrap entries /\
    res_results rec <> JNull /\
    (forall completedAt stored, recorded_status rec completedAt stored = completed) /\
    (forall entry, entry ∈ entries ->
       truthy (result entry) = true /\
       exists i st, steps workflow !! i = Some st /\ step entry = id st /\
                    step_outcome w executionId i st = inl (result entry)) /\
    sublist (map step entries) (map id (steps workflow)) /\
    (length entries
     <= length (steps workflow) - failed_from w executionId 0 (steps workflow))%nat.
Proof.
  intros Hmode Hinit entries.
  destruct (execute_run w executionId schedule workflow)
    as (s' & rec & t0 & pre & mid & post & tail & Hrun & Hw & _ & _
        & [Hlogs _] & Hrl & _ & Hcase).
  rewrite Hinit, Hmode in Hcase.
  destruct Hcase as ((t & settled & reported & -> & _ & Hstarts & _ & Hfails) & _ & Hres).
  rewrite gather_entries in Hres. cbn [app] in Hres. fold entries in Hres.
  assert (Hnot : res_results rec <> JNull).
  { rewrite Hres. apply unwrap_not_null.
    exact (entries_from_truthy w executionId (steps workflow) 0). }
  exists s', rec. split; [done|]. split; [done|]. split; [|split].
  - intros j st Hj. destruct (Hstarts j st Hj) as [t' Hin]. exists t'.
    rewrite Hlogs. eapply logged_elem. rewrite Hw.
    rewrite !elem_of_app. right. right. left. right. left. exact Hin.
  - intros j st reason Hj Hr. destruct (Hfails j st reason Hj Hr) as [t' Hin]. exists t'.
    rewrite Hlogs. eapply logged_elem. rewrite Hw.
    rewrite !elem_of_app. right. right. left. right. right. exact Hin.
  - split; [done|]. split; [done|]. split.
    { intros completedAt stored. rewrite recorded_status_spec.
      destruct (res_results rec); done. }
    split.
    { intros entry Hin. apply entries_from_origin in Hin as (? & j & st & ? & ? & ?).
      split; [done|]. by exists j, st. }
    split; [apply entries_from_order|].
    pose proof (entries_and_failures w executionId (steps workflow) 0). fold entries in H. lia.
Qed.

(** The two steps of [shop], in the parallel mode. *)
Definition shop_at_once : Workflow :=
  mkWorkflow "wf" "Shop" [open_page; read_price] parallel None.

Lemma parallel_failures_are_isolated_witness :
  executionMode shop_at_once = parallel /\
  init_outcome second_fails "run" shop_at_once = inl tt /\
  exists s' rec,
    execute second_fails "run" [1%nat; 0%nat; 1%nat] shop_at_once fresh = (s', inl rec) /\
    res_results rec = unwrap (entries_from second_fails "run" 0 (steps shop_at_once)) /\
    (forall completedAt stored, recorded_status rec completedAt stored = completed).
Proof.
  split; [reflexivity|]. split; [by vm_compute|].
  destruct (parallel_failures_are_isolated second_fails "run" [1%nat; 0%nat; 1%nat]
              shop_at_once eq_refl ltac:(by vm_compute))
    as (s' & rec & Hrun & _ & _ & _ & Hres & _ & Hstatus & _).
  by exists s', rec.
Defined.

(** ** Steps that succeed without a value *)

(** C10: a step that succeeds with a falsy value adds no entry to
    [results].  The push is skipped for such a value; so, for every run
    that reaches aggregation, whatever the other steps produce,
    [results] is built from the entries of the steps before that step
    followed by the entries of the steps after it, and from nothing of
    its own.  [navigate], [scroll] and [wait] steps succeed with
    [undefined] and a step of unknown type with [null]; and a run whose
    steps all succeed with falsy values resolves to the empty array and
    is recorded as completed. *)
Theorem falsy_results_contribute_nothing
    (w : World) (executionId : string) (schedule : list nat) (workflow : Workflow) :
  reaches_aggregation w executionId workflow ->
  exists s' rec,
    execute w executionId schedule workflow fresh = (s', inl rec) /\
    res_results rec = unwrap (entries_from w executionId 0 (steps workflow)) /\
    (forall results st value,
       truthy value = false -> push_if_truthy results st value = results) /\
    (forall k st value,
       steps workflow !! k = Some st ->
       step_outcome w executionId k st = inl value ->
       truthy value = false ->
       res_results rec
         = unwrap (entries_from w executionId 0 (take k (steps workflow)) ++
                   entries_from w executionId (S k) (drop (S k) (steps workflow)))) /\
    (forall i st value,
       step_outcome w executionId i st = inl value ->
       match type st with
       | navigate | scroll | wait => value = JUndefined
       | unknown _ => value = JNull
       | _ => True
       end) /\
    ((forall j st, steps workflow !! j = Some st ->
        exists value, step_outcome w executionId j st = inl value /\ truthy value = false) ->
     res_results rec = JArr [] /\
     forall completedAt stored, recorded_status rec completedAt stored = completed).
Proof.
  intros Hreach.
  destruct (aggregated_results w executionId schedule workflow Hreach)
    as (s' & rec & Hrun & Hres).
  exists s', rec. split; [done|]. split; [done|]. split; [|split; [|split]].
  - intros results st value Hfalsy. unfold push_if_truthy. by rewrite Hfalsy.
  - intros k st value Hk Hout Hfalsy. rewrite Hres. f_equal.
    rewrite <- (take_drop_middle (steps workflow) k st Hk) at 1.
    rewrite entries_from_app. cbn [entries_from Nat.add]. f_equal.
    assert (Hlen : length (take k (steps workflow)) = k).
    { apply length_take_le. apply lookup_lt_Some in Hk. lia. }
    rewrite Hlen. unfold contribution. by rewrite Hout, Hfalsy.
  - intros i st value Hout. by apply (void_step_outcome w executionId i).
  - intros Hall.
    rewrite (all_falsy_no_entries w executionId (steps workflow) 0 Hall) in Hres.
    split; [done|]. intros completedAt stored. by rewrite recorded_status_spec, Hres.
Qed.

(** A page is opened, then its title is read as the empty string. *)
Definition blank_title : World :=
  world_of (fun i => match i with
                     | 1%nat => {| completions := []; answer := inl (JStr "") |}
                     | _ => {| completions := []; answer := inl price |}
                     end).

Lemma blank_title_reaches_aggregation : reaches_aggregation blank_title "run" shop.
Proof.
  split; [by vm_compute|]. intros _ [|[|i]] st Hst; cbn in Hst; try done;
    injection Hst as <-; eexists; by vm_compute.
Qed.

Lemma falsy_results_contribute_nothing_witness :
  reaches_aggregation blank_title "run" shop /\
  steps shop !! 1%nat = Some read_price /\
  step_outcome blank_title "run" 1 read_price = inl (JStr "") /\
  (exists s' rec,
     execute blank_title "run" [] shop fresh = (s', inl rec) /\
     res_results rec = JArr [] /\
     (forall completedAt stored, recorded_status rec completedAt stored = completed)) /\
  step_outcome calm "run" 0 open_page = inl JUndefined /\
  (exists s' rec,
     execute calm "run" [] shop fresh = (s', inl rec) /\
     res_results rec = price).
Proof.
  split; [exact blank_title_reaches_aggregation|]. split; [reflexivity|].
  split; [by vm_compute|]. split; [|split; [by vm_compute|]].
  - destruct (falsy_results_contribute_nothing blank_title "run" [] shop
                blank_title_reaches_aggregation)
      as (s' & rec & Hrun & _ & _ & _ & _ & Hall).
    exists s', rec. split; [exact Hrun|]. apply Hall.
    intros [|[|j]] st Hst; cbn in Hst; try done; injection Hst as <-.
    + exists JUndefined. split; by vm_compute.
    + exists (JStr ""). split; by vm_compute.
  - destruct (falsy_results_contribute_nothing calm "run" [] shop
                shop_reaches_aggregation)
      as (s' & rec & Hrun & _ & _ & Hskip & _).
    exists s', rec. split; [exact Hrun|].
    rewrite (Hskip 0%nat open_page JUndefined eq_refl); by vm_compute.
Defined.

(** ** Releasing the session *)





(** ** Token accounting *)

Definition Zsum (l : list Z) : Z := foldr Z.add 0 l.


(** The number a count is, for a count that is one. *)
Definition count_of (v : JsValue) : Z :=
  match v with JNum n => n | _ => 0 end.


(** Sums that a double holds exactly. *)
Definition exact (us : list Gateway.Usage) : Prop :=
  Zsum (map (fun u => count_of (Gateway.prompt_tokens u)) us) < 2 ^ 53 /\
  Zsum (map (fun u => count_of (Gateway.completion_tokens u)) us) < 2 ^ 53 /\
  Zsum (map (fun u => count_of (Gateway.total_tokens u)) us) < 2 ^ 53.













(** A gateway whose reply carries the usage counts [usage]. *)
Definition reports (usage : list (string * JsValue)) : Gateway.World :=
  {| Gateway.token_script :=
       fun _ => inl {| Gateway.access_token := "t"; Gateway.tr_baseURL := None |};
     Gateway.network := fun _ => Gateway.Response 200 "{...}";
     Gateway.JSON_parse := fun _ => Some (JObj [("usage", JObj usage)]);
     Gateway.Date_now := fun _ => 0 |}.

(** A world in which the extraction at position 1 asks for one
    completion, through the gateway [g]. *)
Definition one_completion (g : Gateway.World) : World :=
  world_of (fun i =>
    match i with
    | 1%nat =>
        {| completions := [(Gateway.createChatCompletion g (Gateway.new_client "m")).2];
           answer := inl price |}
    | _ => {| completions := []; answer := inl price |}
    end).


(** A count that is a string is not added but appended. *)
Lemma string_count_is_appended :
  let s' := (execute (one_completion (reports [("prompt_tokens", JStr "77")]))
                     "run" [] shop fresh).1 in
  promptTokens (tokenUsage s') = total_text "077".
Proof. by vm_compute. Qed.





(** ** The life of an execution record *)

(** What holds of the record of the execution in every reachable state
    of the system. *)
Definition settled_record (id : string) (sys : System) : Prop :=
  exists st,
    executions sys !! id = Some st /\
    match phase sys with
    | created => st_status st = queued
    | executing _ | returned => st_status st = running
    | finished => terminal (st_status st) = true /\ st_logs st = executor_logs
    end.

Lemma final_update_terminal result completedAt st :
  terminal (st_status (spread st (final_update result completedAt))) = true /\
  st_logs (spread st (final_update result completedAt)) = executor_logs /\
  moves running (st_status (spread st (final_update result completedAt))) = true.
Proof. unfold final_update. by destruct (is_null (res_results result)). Qed.

Lemma reachable_settled id workflowId result sys :
  reachable id workflowId result sys -> settled_record id sys.
Proof.
  induction 1 as [startedAt executions|sys sys' _ (st & Hst & Hphase) Hturn].
  { eexists. split; [apply lookup_insert_eq|done]. }
  destruct Hturn as [sys Hp|sys log later Hp|sys n Hn|sys Hp|sys completedAt Hp];
    unfold settled_record, updateExecution; cbn [executions phase]; rewrite ?Hst;
    cbn [fst]; rewrite ?lookup_insert_eq; rewrite Hp in Hphase || idtac.
  - eexists. split; [reflexivity|done].
  - eexists. split; [reflexivity|done].
  - eexists. split; [reflexivity|].
    destruct (phase sys); cbn; try done. by destruct Hphase.
  - eexists. split; [reflexivity|done].
  - eexists. split; [reflexivity|].
    destruct (final_update_terminal result completedAt st) as (? & ? & _). done.
Qed.

Lemma spread_same_logs st :
  st_logs st = executor_logs ->
  spread st (mkPartial None (Some executor_logs) None None None None None) = st.
Proof. destruct st; cbn; by intros ->. Qed.

(** C9: the status of an execution starts at [queued] and moves only
    from [queued] to [running] and from [running] to [completed] or
    [failed]; and once it is [completed] or [failed], no later turn of
    the system (the log writes still in flight included) changes what a
    reader of the record sees: status, logs, results, error, token usage,
    timestamps and duration all stay. *)
Theorem execution_lifecycle
    (id workflowId : string) (result : ExecResult) (sys sys' : System) :
  reachable id workflowId result sys ->
  turn id workflowId result sys sys' ->
  (forall startedAt executions,
     status <$> observed id (accepted id workflowId startedAt executions) = Some queued) /\
  exists e e',
    observed id sys = Some e /\ observed id sys' = Some e' /\
    (status e' = status e \/ moves (status e) (status e') = true) /\
    (terminal (status e) = true -> e' = e).
Proof.
  intros Hreach Hturn. split.
  { intros startedAt store. unfold observed, accepted, getExecution, createExecution.
    cbn [executions fst]. by rewrite lookup_insert_eq. }
  destruct (reachable_settled _ _ _ _ Hreach) as (st & Hst & Hphase).
  unfold observed, getExecution. rewrite Hst. cbn [fmap option_fmap option_map].
  destruct Hturn as [sys Hp|sys log later Hp|sys n Hn|sys Hp|sys completedAt Hp];
    unfold updateExecution; cbn [executions array]; rewrite ?Hst; cbn [fst];
    rewrite ?lookup_insert_eq, ?Hst; cbn [fmap option_fmap option_map];
    rewrite Hp in Hphase || idtac.
  - eexists _, _. split; [reflexivity|]. split; [reflexivity|]. cbn.
    rewrite Hphase. split; [by right|done].
  - eexists _, _. split; [reflexivity|]. split; [reflexivity|]. cbn.
    rewrite Hphase. split; [by left|done].
  - eexists _, _. split; [reflexivity|]. split; [reflexivity|]. cbn.
    split; [by left|]. intros Hterm.
    destruct (phase sys); try (rewrite Hphase in Hterm; discriminate).
    destruct Hphase as [_ Hlogs]. by rewrite (spread_same_logs st Hlogs).
  - eexists _, _. split; [reflexivity|]. split; [reflexivity|]. cbn.
    rewrite Hphase. split; [by left|done].
  - eexists _, _. split; [reflexivity|]. split; [reflexivity|].
    destruct (final_update_terminal result completedAt st) as (_ & _ & Hmove).
    cbn [snapshot status]. rewrite Hphase in *. split; [by right|done].
Qed.

(** A result with a transcript of one entry. *)
Definition one_log : ExecResult :=
  {| res_results := price;
     res_logs := [mkLog 1 lvl_info "execution" "Starting workflow: shop"];
     res_duration := 5;
     res_tokenUsage := no_usage |}.

Lemma execution_lifecycle_witness :
  exists sys sys' e,
    reachable "e" "wf" one_log sys /\
    phase sys = finished /\ in_flight sys = 1%nat /\
    turn "e" "wf" one_log sys sys' /\ in_flight sys' = 0%nat /\
    observed "e" sys = Some e /\
    status e = completed /\ ex_logs e = res_logs one_log /\ results e = price /\
    completedAt e = Some 7 /\
    observed "e" sys' = Some e.
Proof.
  pose proof (reachable_accepted "e" "wf" one_log 0 ∅) as R0.
  match type of R0 with reachable _ _ _ ?sys =>
    pose proof (turn_start "e" "wf" one_log sys eq_refl) as T1 end.
  pose proof (reachable_turn _ _ _ _ _ R0 T1) as R1.
  match type of R1 with reachable _ _ _ ?sys =>
    pose proof (turn_addLog "e" "wf" one_log sys _ [] eq_refl) as T2 end.
  pose proof (reachable_turn _ _ _ _ _ R1 T2) as R2.
  match type of R2 with reachable _ _ _ ?sys =>
    pose proof (turn_return "e" "wf" one_log sys eq_refl) as T3 end.
  pose proof (reachable_turn _ _ _ _ _ R2 T3) as R3.
  match type of R3 with reachable _ _ _ ?sys =>
    pose proof (turn_finish "e" "wf" one_log sys 7 eq_refl) as T4 end.
  pose proof (reachable_turn _ _ _ _ _ R3 T4) as R4.
  match type of R4 with reachable _ _ _ ?sys =>
    pose proof (turn_persist "e" "wf" one_log sys 0 eq_refl) as T5 end.
  destruct (proj2 (execution_lifecycle "e" "wf" one_log _ _ R4 T5))
    as (e & e' & He & He' & _ & Hsame).
  assert (Hstatus : status e = completed).
  { vm_compute in He. by injection He as <-. }
  eexists _, _, e. split; [exact R4|]. split; [reflexivity|]. split; [reflexivity|].
  split; [exact T5|]. split; [reflexivity|]. split; [exact He|].
  split; [exact Hstatus|].
  split; [vm_compute in He; by injection He as <-|].
  split; [vm_compute in He; by injection He as <-|].
  split; [vm_compute in He; by injection He as <-|].
  rewrite He'. f_equal. apply Hsame. by rewrite Hstatus.
Defined.

End Orchestrator.

(* ================================================================== *)
(** * More on the executor: what a step settles with, what a run emits  *)
(* ================================================================== *)

Module Runs.
Import Executor ExecutorFacts StepFacts.

#[local] Arguments String.append : simpl never.
#[local] Arguments pretty : simpl never.
#[local] Arguments Executor.step_outcome : simpl never.
#[local] Arguments Executor.init_outcome : simpl never.

Ltac log_then := eapply ends_bind_ok; [apply ends_addLog|].

(** A log entry without its timestamp. *)
Definition shape (l : LogEntry) : Level * string * string :=
  (level l, category l, log_message l).

(** The progress events the wire carries, in order. *)
Definition progress_events (ws : list Effect) : list (nat * nat * string) :=
  omap (fun e => match e with
                 | io_emit (execution_progress _ currentStep totalSteps stepDescription) =>
                     Some (currentStep, totalSteps, stepDescription)
                 | _ => None
                 end) ws.

Section Steps.
Variable w : World.
Variable executionId : string.

Abbreviation run := (run w executionId).

(** X1: a screenshot step whose path can be printed and whose page call
    succeeds resolves to the path it saved under, not to what the call
    returned: [config.path] when that is truthy, and
    [screenshot-<clock>.png] otherwise.  The path is always truthy, so
    the push is never skipped: in every run that reaches aggregation the
    entry [{step: id, result: path}] stands in [results] between the
    entries of the steps before and those of the steps after, and a
    workflow made of that one step resolves to the bare path. *)
Theorem screenshot_step_contributes_its_path i st returned :
  type st = screenshot ->
  answer (capability w i) = inl returned ->
  refuses_ToString (screenshot_path w i st) = false ->
  let entry := {| step := id st; result := screenshot_path w i st |} in
  step_outcome w executionId i st = inl (screenshot_path w i st) /\
  truthy (screenshot_path w i st) = true /\
  (truthy (assoc "path" (config st)) = true ->
   screenshot_path w i st = assoc "path" (config st)) /\
  (truthy (assoc "path" (config st)) = false ->
   screenshot_path w i st =
   JStr ("screenshot-" +:+ pretty (screenshot_clock w i) +:+ ".png")) /\
  (forall results,
     push_if_truthy results st (screenshot_path w i st) = results ++ [entry]) /\
  (forall schedule workflow,
     Orchestrator.reaches_aggregation w executionId workflow ->
     steps workflow !! i = Some st ->
     exists s' rec,
       execute w executionId schedule workflow fresh = (s', inl rec) /\
       res_results rec
         = unwrap (entries_from w executionId 0 (take i (steps workflow)) ++
                   entry :: entries_from w executionId (S i) (drop (S i) (steps workflow))) /\
       (steps workflow = [st] -> res_results rec = screenshot_path w i st)).
Proof.
  intros Htype Hanswer Hshown entry.
  assert (Hout : step_outcome w executionId i st = inl (screenshot_path w i st)).
  { rewrite step_outcome_by_type. unfold outcome_by_type, literal_throws.
    by rewrite Htype, Hshown, Hanswer. }
  split; [exact Hout|]. split; [apply screenshot_path_truthy|].
  split; [|split; [|split]].
  - intros H. unfold screenshot_path, js_or. by rewrite H.
  - intros H. unfold screenshot_path, js_or. by rewrite H.
  - intros results. unfold push_if_truthy. by rewrite screenshot_path_truthy.
  - intros schedule workflow Hreach Hi.
    destruct (Orchestrator.aggregated_results w executionId schedule workflow Hreach)
      as (s' & rec & Hrun & Hres).
    exists s', rec. split; [exact Hrun|].
    assert (Hsplit : res_results rec
      = unwrap (entries_from w executionId 0 (take i (steps workflow)) ++
                entry :: entries_from w executionId (S i) (drop (S i) (steps workflow)))).
    { rewrite Hres. f_equal.
      rewrite <- (take_drop_middle (steps workflow) i st Hi) at 1.
      rewrite Orchestrator.entries_from_app. cbn [entries_from Nat.add]. f_equal.
      assert (Hlen : length (take i (steps workflow)) = i).
      { apply length_take_le. apply lookup_lt_Some in Hi. lia. }
      rewrite Hlen. unfold contribution. by rewrite Hout, screenshot_path_truthy. }
    split; [exact Hsplit|].
    intros Hone. rewrite Hone in Hi, Hsplit.
    destruct i as [|i]; [|by destruct i]. exact Hsplit.
Qed.

(** X2: a step whose type is none of the eight the dispatcher knows does
    not fail.  It logs the start entry, the warning
    [Unknown step type: <type>] and the success entry, calls nothing,
    resolves to [null] and adds no entry to [results]. *)
Theorem unknown_step_type_is_a_silent_success i st tag s session :
  type st = unknown tag ->
  stagehand s = Some session ->
  (run (executeStep w i st) s).2 = inl JNull /\
  calls (wire (run (executeStep w i st) s).1) = calls (wire s) /\
  map shape (logs (run (executeStep w i st) s).1) =
    map shape (logs s) ++
    [(lvl_info, "step", start_message st);
     (lvl_warning, "step", "Unknown step type: " +:+ tag);
     (lvl_success, "step", "Step " +:+ step_number st +:+ " completed successfully")] /\
  contribution w executionId i st = None.
Proof.
  intros Htype Hsome.
  assert (Hs : stagehand s <> None) by congruence.
  split; [|split; [|split]].
  - rewrite executeStep_result by done. unfold outcome_by_type, literal_throws.
    by rewrite Htype.
  - pose proof (executeStep_calls w executionId i st s Hs) as [_ H].
    unfold call_by_type, literal_throws in H. rewrite Htype in H.
    by rewrite app_nil_r in H.
  - unfold executeStep. cbn [Executor.run]. destruct (stagehand s); [|done].
    unfold dispatch. rewrite Htype. cbn -[String.append].
    rewrite !map_app. cbn [map shape level category log_message].
    rewrite <- !app_assoc. unfold start_message. by rewrite Htype.
  - unfold contribution. rewrite step_outcome_by_type.
    unfold outcome_by_type, literal_throws. by rewrite Htype.
Qed.

(** X3: an extract step whose [config.schema] is a string that
    [JSON.parse] rejects fails before it calls the capability.  The
    entry [Extracting data: <instruction>] is logged first: when the
    instruction ([config.instruction], or the description) can be
    converted to a string the step fails with the error of the parser,
    and when it cannot (an object with a key [toString]) the template
    literal throws and the step fails with that [TypeError], the schema
    not yet looked at.  Either way the step makes no call and its last
    log entry is the error [Step <n> failed: <message>], [n] being
    [order + 1] for an [order] that is a safe integer. *)
Theorem extract_schema_that_does_not_parse i st text e s session :
  type st = extract ->
  assoc "schema" (config st) = JStr text ->
  truthy (JStr text) = true ->
  JSON_parse w text = inr e ->
  safe_integer (order st) ->
  stagehand s = Some session ->
  let instruction := js_or (assoc "instruction" (config st)) (JStr (description st)) in
  let failure := if refuses_ToString instruction then cannot_convert else e in
  (run (executeStep w i st) s).2 = inr failure /\
  calls (wire (run (executeStep w i st) s).1) = calls (wire s) /\
  map shape (logs (run (executeStep w i st) s).1) =
    map shape (logs s) ++
    [(lvl_info, "step", start_message st)] ++
    (if refuses_ToString instruction then []
     else [(lvl_info, "extract", "Extracting data: " +:+ js_to_string instruction)]) ++
    [(lvl_error, "step",
      "Step " +:+ pretty (order st + 1) +:+ " failed: " +:+ message failure)].
Proof.
  intros Htype Hschema Htext Hparse _ Hsome instruction failure.
  assert (Hs : stagehand s <> None) by congruence.
  assert (Hnonempty : String.eqb text "" = false) by (by apply negb_true_iff).
  split; [|split].
  - rewrite executeStep_result by done. unfold outcome_by_type, literal_throws.
    rewrite Htype, Hschema, Hnonempty, Hparse. fold instruction. unfold failure.
    by destruct (refuses_ToString instruction).
  - pose proof (executeStep_calls w executionId i st s Hs) as [_ H].
    unfold call_by_type, literal_throws in H. rewrite Htype, Hschema in H.
    cbn [truthy] in H. rewrite Hnonempty, Hparse in H. cbn [negb] in H.
    rewrite H. destruct (refuses_ToString _); by rewrite app_nil_r.
  - unfold start_message, step_number, executeStep. cbn [Executor.run].
    destruct (stagehand s); [|done].
    unfold dispatch. rewrite !Htype. unfold executeExtract. rewrite Hschema.
    cbn [truthy]. rewrite Hnonempty, Hparse. fold instruction. unfold failure.
    destruct (refuses_ToString instruction) eqn:Hshown; literal Hshown;
      cbn -[String.append]; rewrite !map_app;
      cbn [map shape level category log_message app step_type_name];
      by rewrite <- ?app_assoc.
Qed.

(** X4: a wait step without a selector calls nothing of the page: it
    sleeps.  When [config.duration || 1000] can be converted to a
    string, the step makes the one call [setTimeout(duration)] and
    resolves to [undefined], whatever the world; without a truthy
    duration it sleeps 1000.  When it cannot be converted (an object
    with a key [toString]), the template literal of the entry
    [Waiting for <duration>ms] throws: the step fails with that
    [TypeError] and does not sleep. *)
Theorem fixed_wait_sleeps_or_throws i st s session :
  type st = wait ->
  truthy (assoc "selector" (config st)) = false ->
  stagehand s = Some session ->
  let duration := js_or (assoc "duration" (config st)) (JNum 1000) in
  (refuses_ToString duration = false ->
   (run (executeStep w i st) s).2 = inl JUndefined /\
   calls (wire (run (executeStep w i st) s).1) = calls (wire s) ++ [(i, setTimeout duration)]) /\
  (truthy (assoc "duration" (config st)) = false ->
   (run (executeStep w i st) s).2 = inl JUndefined /\
   calls (wire (run (executeStep w i st) s).1)
     = calls (wire s) ++ [(i, setTimeout (JNum 1000))]) /\
  (refuses_ToString duration = true ->
   (run (executeStep w i st) s).2 = inr cannot_convert /\
   calls (wire (run (executeStep w i st) s).1) = calls (wire s)).
Proof.
  intros Htype Hsel Hsome duration.
  assert (Hs : stagehand s <> None) by congruence.
  pose proof (executeStep_result w executionId i st s Hs) as Hresult.
  pose proof (executeStep_calls w executionId i st s Hs) as [_ Hcalls].
  unfold outcome_by_type, literal_throws in Hresult.
  unfold call_by_type, literal_throws in Hcalls.
  rewrite Htype, Hsel in Hresult, Hcalls. fold duration in Hresult, Hcalls.
  split; [|split].
  - intros Hshown. by rewrite Hshown in Hresult, Hcalls.
  - intros Hfalsy. assert (Hd : duration = JNum 1000).
    { unfold duration, js_or. by rewrite Hfalsy. }
    rewrite Hd in Hresult, Hcalls. done.
  - intros Hshown. rewrite Hshown in Hresult, Hcalls. by rewrite app_nil_r in Hcalls.
Qed.

(** X5: with an empty [config] every step falls back on its defaults: a
    navigate step goes to the empty URL, act, extract, observe and agent
    steps pass the step's description (extract without a schema), a wait
    step sleeps for 1000 ms, a screenshot step saves the whole-page flag
    [false] under the generated name, and a scroll step scrolls down by
    500.  Each makes exactly that one call, tagged with its position. *)
Theorem empty_config_falls_back_on_defaults i st s session :
  config st = [] ->
  stagehand s = Some session ->
  calls (wire (run (executeStep w i st) s).1) =
    calls (wire s) ++
    match type st with
    | navigate => [(i, page_goto (JStr ""))]
    | act => [(i, stagehand_act (JStr (description st)))]
    | extract => [(i, stagehand_extract (JStr (description st)) None)]
    | observe => [(i, stagehand_observe (JStr (description st)))]
    | agent => [(i, stagehand_agent (JStr (description st)))]
    | wait => [(i, setTimeout (JNum 1000))]
    | screenshot =>
        [(i, page_screenshot
               (JStr ("screenshot-" +:+ pretty (screenshot_clock w i) +:+ ".png"))
               (JBool false))]
    | scroll => [(i, page_evaluate (JNum 500) (JStr "down"))]
    | unknown _ => []
    end.
Proof.
  intros Hconfig Hsome.
  assert (Hs : stagehand s <> None) by congruence.
  pose proof (executeStep_calls w executionId i st s Hs) as [_ H]. rewrite H. f_equal.
  unfold call_by_type, literal_throws, screenshot_path. rewrite Hconfig.
  cbn [assoc js_or truthy refuses_ToString orb].
  by destruct (type st).
Qed.

End Steps.

Section Whole.
Variable w : World.
Variable executionId : string.

(** ** Progress events *)

Lemma progress_app a b : progress_events (a ++ b) = progress_events a ++ progress_events b.
Proof. apply omap_app. Qed.

Lemma progress_none (P : Effect -> Prop) ws :
  (forall e, P e -> forall id i n d, e <> io_emit (execution_progress id i n d)) ->
  Forall P ws -> progress_events ws = [].
Proof.
  intros HP. induction 1 as [|e ws He _ IH]; [done|].
  cbn. change (omap _ ws) with (progress_events ws). rewrite IH.
  specialize (HP e He). destruct e as [[]| | | | | | | | |]; try done.
  by destruct (HP executionId0 currentStep totalSteps stepDescription).
Qed.

Lemma progress_log l : progress_events (log_effects executionId l) = [].
Proof. done. Qed.

Lemma progress_step_block i st body :
  step_block w executionId i st body -> progress_events body = [].
Proof.
  intros (t1 & t2 & inner & -> & Hinner).
  rewrite !progress_app, !progress_log.
  rewrite (progress_none (inner_effect i) inner); [done| |done].
  intros e He id j n d ->. exact He.
Qed.

Lemma progress_blocks todo : forall i totalSteps ws,
  blocks w executionId i totalSteps todo ws ->
  progress_events ws = imap (fun j st => ((i + j)%nat, totalSteps, description st)) todo.
Proof.
  induction todo as [|st rest IH]; intros i totalSteps ws; cbn [blocks imap].
  { by intros ->. }
  intros (body & more & -> & Hbody & Hmore).
  cbn. change (omap _ (body ++ more)) with (progress_events (body ++ more)).
  rewrite progress_app, (progress_step_block _ _ _ Hbody), (IH _ _ _ Hmore).
  rewrite Nat.add_0_r. cbn [app]. f_equal.
  apply imap_ext. intros j x _. cbn. by rewrite Nat.add_succ_r.
Qed.

Lemma progress_closing tail : closing executionId tail -> progress_events tail = [].
Proof. by intros (t1 & t2 & level & message & ->). Qed.

Lemma progress_finished totalSteps post :
  finished executionId totalSteps post ->
  progress_events post = [(totalSteps, totalSteps, "Completed")].
Proof. by intros (t & message & ->). Qed.

Lemma progress_gave_up post : gave_up executionId post -> progress_events post = [].
Proof. by intros (t & message & ->). Qed.

Lemma progress_parallel todo mid :
  parallel_shape w executionId todo mid -> progress_events mid = [].
Proof.
  intros (t & settled & reported & -> & Hsettled & _ & Hreported & _).
  rewrite !progress_app, progress_log.
  rewrite (progress_none in_step settled), (progress_none report_effect reported); try done.
  - intros e He id j n d ->. exact He.
  - intros e He id j n d ->. exact He.
Qed.

(** X6: the progress events of a run.  In the sequential mode there is
    one event [(i, N, description)] ahead of each step that is started,
    in step order, and the closing event [(N, N, Completed)] follows
    exactly when the run did not fail; in the parallel mode the closing
    event is the only one; and when the session does not start there
    is none. *)
Theorem progress_events_of_a_run schedule workflow :
  let N := length (steps workflow) in
  exists s' rec,
    execute w executionId schedule workflow fresh = (s', inl rec) /\
    progress_events (wire s') =
      match init_outcome w executionId workflow with
      | inr _ => []
      | inl _ =>
          match executionMode workflow with
          | sequential =>
              imap (fun i st => (i, N, description st))
                   (ran w executionId 0 (steps workflow)) ++
              (if is_null (res_results rec) then [] else [(N, N, "Completed")])
          | parallel => [(N, N, "Completed")]
          end
      end.
Proof.
  intros N.
  destruct (execute_run w executionId schedule workflow)
    as (s' & rec & t0 & pre & mid & post & tail & Hrun & Hw & Hpre & Htail & _ & _ & _ & Hcase).
  exists s', rec. split; [done|].
  assert (Hpre0 : progress_events pre = []).
  { apply (progress_none init_effect); [|done]. intros e He id j n d ->. exact He. }
  assert (Htail0 : progress_events tail = []).
  { destruct (construct_fails w).
    - by destruct Htail as [-> _].
    - destruct Htail as [Hc _]. by apply progress_closing. }
  rewrite Hw, !progress_app, progress_log, Hpre0. cbn [app].
  change (entered_cleanup :: tail) with ([entered_cleanup] ++ tail).
  rewrite progress_app, Htail0. cbn [progress_events omap app]. rewrite !app_nil_r.
  fold N in Hcase.
  destruct (init_outcome w executionId workflow) as [[]|e].
  2: { destruct Hcase as (-> & Hpost & _). by rewrite (progress_gave_up _ Hpost). }
  destruct (executionMode workflow).
  - destruct Hcase as [Hblocks Hcase].
    rewrite (progress_blocks _ _ _ _ Hblocks).
    destruct (loop_outcome w executionId 0 (steps workflow) []) as [entries|e] eqn:Hloop.
    + destruct Hcase as [Hpost Hres]. rewrite (progress_finished _ _ Hpost).
      apply loop_outcome_gather in Hloop. rewrite gather_entries in Hloop. cbn in Hloop.
      assert (Hnn : res_results rec <> JNull).
      { rewrite Hres, Hloop. apply unwrap_not_null, entries_from_truthy. }
      destruct (res_results rec); done.
    + destruct Hcase as [Hpost ->]. rewrite (progress_gave_up _ Hpost).
      cbn [is_null]. reflexivity.
  - destruct Hcase as (Hmid & Hpost & _).
    by rewrite (progress_parallel _ _ Hmid), (progress_finished _ _ Hpost).
Qed.

(** ** The log *)

(** X7: the log a run returns is the sequence of [execution:log] events
    it emitted, entry for entry; and when a session object was created
    the record ends with the two entries of [cleanup], which the
    executor appends after the return statement has built the record. *)
Theorem returned_log_is_the_emitted_log schedule workflow :
  exists s' rec,
    execute w executionId schedule workflow fresh = (s', inl rec) /\
    res_logs rec = logged (wire s') /\
    (construct_fails w = None ->
     exists earlier t1 t2 level message,
       res_logs rec = earlier ++
         [mkLog t1 lvl_info "cleanup" "Closing browser instance";
          mkLog t2 level "cleanup" message]) /\
    (construct_fails w <> None ->
     forall l, l ∈ res_logs rec -> category l <> "cleanup").
Proof.
  destruct (execute_run w executionId schedule workflow)
    as (s' & rec & t0 & pre & mid & post & tail & Hrun & Hw & Hpre & Htail & Hcons & Hlogs
        & _ & Hcase).
  exists s', rec. split; [done|].
  assert (Heq : res_logs rec = logged (wire s')) by (rewrite Hlogs; apply Hcons).
  split; [exact Heq|].
  assert (Hsplit : logged (wire s') =
            (mkLog t0 lvl_info "execution" ("Starting workflow: " +:+ wf_name workflow)
             :: logged pre ++ logged mid ++ logged post) ++ logged tail).
  { rewrite Hw, !logged_app. change (logged (entered_cleanup :: tail)) with (logged tail).
    cbn [app]. by rewrite <- !app_assoc. }
  split.
  - intros Hnone. rewrite Hnone in Htail.
    destruct Htail as [(t1 & t2 & level & message & ->) _].
    rewrite Heq, Hsplit. by eexists _, t1, t2, level, message.
  - intros Hsome l Hin.
    destruct (construct_fails w) as [err|] eqn:Hc; [|done].
    destruct Htail as [-> _].
    rewrite Heq, Hsplit in Hin. change (logged []) with (@nil LogEntry) in Hin.
    rewrite app_nil_r in Hin.
    assert (Hinit : init_outcome w executionId workflow <> inl tt).
    { intros Hok.
      destruct (initStagehand_run w executionId workflow fresh)
        as (s1 & added & _ & _ & _ & _ & Hiff & Hstarted & _).
      specialize (Hstarted Hok). apply Hiff in Hstarted; [|done]. congruence. }
    destruct (init_outcome w executionId workflow) as [[]|e]; [done|].
    destruct Hcase as (-> & (t & message & ->) & _).
    change (logged []) with (@nil LogEntry) in Hin. cbn [app] in Hin.
    apply elem_of_cons in Hin as [->|Hin]; [done|].
    apply elem_of_app in Hin as [Hin|Hin].
    + apply list_elem_of_omap in Hin as (e' & He' & Hl).
      rewrite Forall_forall in Hpre. specialize (Hpre e' He').
      destruct e' as [[]| | | | | | | | |]; try done.
      injection Hl as <-. cbn in Hpre. by rewrite Hpre.
    + apply elem_of_cons in Hin as [->|Hin]; [done|]. by apply elem_of_nil in Hin.
Qed.

(** ** A session that does not start *)

Lemma calls_none (P : Effect -> Prop) ws :
  (forall e, P e -> forall i c, e <> call i c) -> Forall P ws -> calls ws = [].
Proof.
  intros HP. induction 1 as [|e ws He _ IH]; [done|].
  cbn. change (omap _ ws) with (calls ws). rewrite IH.
  specialize (HP e He). destruct e; try done. by destruct (HP position c).
Qed.

Lemma init_failure_logs workflow s e :
  init_outcome w executionId workflow = inr e ->
  map shape (logs (run w executionId (await (initStagehand w workflow)) s).1) =
    map shape (logs s) ++
    [(lvl_info, "initialization", "Initializing browser automation...");
     (lvl_error, "initialization", "Failed to initialize: " +:+ message e)].
Proof.
  rewrite run_await. unfold init_outcome, initStagehand.
  destruct (browserConfig workflow) as [[h [v|] [ua|]]|]; cbn [headless viewport userAgent];
    try destruct (String.eqb ua "");
    destruct (construct_fails w), (init_fails w), (setViewportSize_fails w),
             (setUserAgent_fails w);
    cbn -[String.append]; intros H; try discriminate H; injection H as <-;
    rewrite !map_app; cbn [map shape level category log_message];
    by rewrite <- !app_assoc.
Qed.

(** X8: when the session does not start, no step runs.  The run makes no
    call of the capability and resolves with [results = null], and its
    log is exactly: the opening entry, the two entries of the failed
    initialisation, the closing error [Workflow failed: <message>], and,
    when a session object had been created, the two entries of
    [cleanup]. *)
Theorem failed_initialisation_transcript schedule workflow e :
  init_outcome w executionId workflow = inr e ->
  exists s' rec,
    execute w executionId schedule workflow fresh = (s', inl rec) /\
    res_results rec = JNull /\
    calls (wire s') = [] /\
    map shape (res_logs rec) =
      [(lvl_info, "execution", "Starting workflow: " +:+ wf_name workflow);
       (lvl_info, "initialization", "Initializing browser automation...");
       (lvl_error, "initialization", "Failed to initialize: " +:+ message e);
       (lvl_error, "execution", "Workflow failed: " +:+ message e)] ++
      match construct_fails w with
      | Some _ => []
      | None =>
          [(lvl_info, "cleanup", "Closing browser instance");
           match close_fails w with
           | None => (lvl_success, "cleanup", "Browser closed successfully")
           | Some ce => (lvl_warning, "cleanup", "Browser cleanup warning: " +:+ message ce)
           end]
      end.
Proof.
  intros Hfail.
  destruct (execute_run w executionId schedule workflow)
    as (s' & rec & t0 & pre & mid & post & tail & Hrun & Hw & Hpre & Htail & _ & Hlogs
        & _ & Hcase).
  rewrite Hfail in Hcase. destruct Hcase as (-> & (t & message & ->) & Hres).
  exists s', rec. split; [done|]. split; [done|]. split.
  - rewrite Hw, !calls_app.
    rewrite (calls_none init_effect pre); [| |done].
    2: { intros e0 He0 i c ->. exact He0. }
    change (calls (entered_cleanup :: tail)) with (calls tail).
    destruct (construct_fails w).
    + by destruct Htail as [-> _].
    + by destruct Htail as [(t1 & t2 & level & message' & ->) _].
  - rewrite Hlogs. clear Hw Hpre Htail Hlogs Hres.
    revert Hrun. unfold execute. cbn [Executor.run bind settle addLog].
    set (s0 := apply_op w executionId (op_addLog lvl_info "execution" _)
                 (apply_op w executionId op_startTime fresh)).
    unfold attempt.
    destruct (initStagehand_run w executionId workflow s0)
      as (s1 & added & Hinit & _ & _ & _ & Hiff & _ & _).
    pose proof (init_failure_logs workflow s0 e Hfail) as Hl1.
    rewrite Hinit in Hl1 |- *. rewrite Hfail. cbn [fst] in Hl1.
    specialize (Hiff eq_refl).
    unfold failure_report, duration_since_start, report.
    cbn [Executor.run bind settle addLog].
    rewrite run_await. unfold cleanup.
    cbn [Executor.run Executor.apply_op stagehand].
    destruct (stagehand s1) as [h|] eqn:Hsh.
    + assert (Hc : construct_fails w = None) by (by apply Hiff).
      rewrite Hc.
      destruct (close_fails w) as [ce|]; cbn -[String.append];
        intros H; injection H as <- <-; cbn [logs resolved res_logs];
        rewrite !map_app, Hl1; cbn [map shape level category log_message app];
        by rewrite <- !app_assoc.
    + destruct (construct_fails w) as [ce|] eqn:Hc.
      2: { by destruct (proj2 Hiff eq_refl). }
      cbn -[String.append].
      intros H; injection H as <- <-; cbn [logs resolved res_logs].
      rewrite !map_app, Hl1; cbn [map shape level category log_message app].
      by rewrite <- !app_assoc.
Qed.

(** ** A schema that does not parse *)

Lemma loop_outcome_fails todo : forall i k st e results,
  todo !! k = Some st ->
  step_outcome w executionId (i + k) st = inr e ->
  exists e', loop_outcome w executionId i todo results = inr e'.
Proof.
  induction todo as [|first rest IH]; intros i k st e results Hk Hfail; [done|].
  cbn [loop_outcome]. destruct k as [|k]; cbn in Hk.
  - injection Hk as ->. rewrite Nat.add_0_r in Hfail. rewrite Hfail. by eexists.
  - destruct (step_outcome w executionId i first) as [value|e0]; [|by eexists].
    apply (IH (S i) k st e); [done|]. by rewrite Nat.add_succ_comm.
Qed.

Lemma rejected_schema_run schedule workflow k st text e :
  executionMode workflow = sequential ->
  steps workflow !! k = Some st ->
  type st = extract ->
  assoc "schema" (config st) = JStr text ->
  truthy (JStr text) = true ->
  JSON_parse w text = inr e ->
  exists s' rec,
    execute w executionId schedule workflow fresh = (s', inl rec) /\
    res_results rec = JNull.
Proof.
  intros Hmode Hk Htype Hschema Htruthy Hparse.
  destruct (execute_run w executionId schedule workflow)
    as (s' & rec & t0 & pre & mid & post & tail & Hrun & _ & _ & _ & _ & _ & _ & Hcase).
  exists s', rec. split; [done|].
  destruct (init_outcome w executionId workflow) as [[]|e0]; [|by destruct Hcase as (_ & _ & ?)].
  rewrite Hmode in Hcase. destruct Hcase as [_ Hcase].
  assert (Hout : exists e0, step_outcome w executionId (0 + k) st = inr e0).
  { rewrite step_outcome_by_type. unfold outcome_by_type. rewrite Htype, Hschema.
    cbn [truthy] in Htruthy. apply negb_true_iff in Htruthy. rewrite Htruthy, Hparse.
    destruct (literal_throws w (0 + k) st); by eexists. }
  destruct Hout as [e0 Hout].
  destruct (loop_outcome_fails (steps workflow) 0 k st e0 [] Hk Hout) as [e' He'].
  rewrite He' in Hcase. by destruct Hcase.
Qed.

(** X25: in the sequential mode one extract step whose schema text
    [JSON.parse] rejects is enough to fail the run: whatever the browser
    does, and wherever the step stands, the run resolves with
    [results = null]. *)
Theorem sequential_run_with_a_rejected_schema_fails schedule workflow k st text e :
  executionMode workflow = sequential ->
  steps workflow !! k = Some st ->
  type st = extract ->
  assoc "schema" (config st) = JStr text ->
  truthy (JStr text) = true ->
  JSON_parse w text = inr e ->
  exists s' rec,
    execute w executionId schedule workflow fresh = (s', inl rec) /\
    res_results rec = JNull.
Proof. apply rejected_schema_run. Qed.

End Whole.

(** ** Concrete steps and worlds *)

(** A world in which the session works, every call returns [true] and
    no text parses as JSON. *)
Definition obliging : World :=
  {| Date_now := fun n => Z.of_nat n;
     screenshot_clock := fun _ => 1700000000000;
     construct_fails := None;
     init_fails := None;
     setViewportSize_fails := None;
     setUserAgent_fails := None;
     capability := fun _ => {| completions := []; answer := inl (JBool true) |};
     close_fails := None;
     JSON_parse := fun _ => inr (mkError "SyntaxError" "Unexpected token o in JSON");
     toFixed2 := fun ms => pretty (ms / 1000);
     Number_of_string := fun _ => PrimFloat.nan |}.

(** A world in which the browser cannot be launched. *)
Definition no_browser : World :=
  {| Date_now := fun n => Z.of_nat n;
     screenshot_clock := fun _ => 0;
     construct_fails := None;
     init_fails := Some (Error "Failed to launch browser");
     setViewportSize_fails := None;
     setUserAgent_fails := None;
     capability := fun _ => {| completions := []; answer := inl (JBool true) |};
     close_fails := None;
     JSON_parse := fun _ => inr (mkError "SyntaxError" "Unexpected token o in JSON");
     toFixed2 := fun ms => pretty (ms / 1000);
     Number_of_string := fun _ => PrimFloat.nan |}.

Definition snap : AutomationStep := mkStep "s-shot" screenshot "Capture the page" [] 0.
Definition hover : AutomationStep := mkStep "s-hover" (unknown "hover") "Hover the menu" [] 0.
Definition read_table : AutomationStep :=
  mkStep "s-read" extract "Read the table" [("schema", JStr "{ rows: string[] }")] 0.
Definition pause : AutomationStep := mkStep "s-wait" wait "Let the page settle" [] 0.
Definition capture : Workflow := mkWorkflow "wf-1" "Capture" [snap] sequential None.

Lemma capture_reaches_aggregation : Orchestrator.reaches_aggregation obliging "run" capture.
Proof.
  split; [by vm_compute|]. intros _ [|i] st Hst; cbn in Hst; [|done].
  injection Hst as <-. eexists. by vm_compute.
Qed.

Lemma screenshot_step_contributes_its_path_witness :
  type snap = screenshot /\
  answer (capability obliging 0) = inl (JBool true) /\
  refuses_ToString (screenshot_path obliging 0 snap) = false /\
  step_outcome obliging "run" 0 snap = inl (JStr "screenshot-1700000000000.png") /\
  push_if_truthy [] snap (JStr "screenshot-1700000000000.png")
    = [{| step := "s-shot"; result := JStr "screenshot-1700000000000.png" |}] /\
  Orchestrator.reaches_aggregation obliging "run" capture /\
  exists s' rec,
    execute obliging "run" [] capture fresh = (s', inl rec) /\
    res_results rec = JStr "screenshot-1700000000000.png".
Proof.
  assert (Hpath : screenshot_path obliging 0 snap = JStr "screenshot-1700000000000.png")
    by (by vm_compute).
  destruct (screenshot_step_contributes_its_path obliging "run" 0 snap (JBool true)
              eq_refl eq_refl eq_refl)
    as (Hout & _ & _ & _ & Hpush & Hruns).
  destruct (Hruns [] capture capture_reaches_aggregation eq_refl)
    as (s' & rec & Hrun & _ & Hone).
  pose proof (Hone eq_refl) as Hres. rewrite Hpath in Hout, Hpush, Hres.
  split; [reflexivity|]. split; [reflexivity|]. split; [reflexivity|].
  split; [exact Hout|]. split; [exact (Hpush [])|].
  split; [exact capture_reaches_aggregation|]. by exists s', rec.
Defined.

Lemma unknown_step_type_is_a_silent_success_witness :
  type hover = unknown "hover" /\
  stagehand during = Some {| sh_headless := true |} /\
  (Executor.run obliging "run" (executeStep obliging 0 hover) during).2 = inl JNull.
Proof.
  split; [reflexivity|]. split; [reflexivity|].
  exact (proj1 (unknown_step_type_is_a_silent_success obliging "run" 0 hover "hover" during
                  {| sh_headless := true |} eq_refl eq_refl)).
Defined.

(** The same extraction, with an instruction that cannot be printed. *)
Definition read_unprintable : AutomationStep :=
  mkStep "s-read" extract "Read the table"
    [("schema", JStr "{ rows: string[] }");
     ("instruction", JObj [("toString", JNum 1)])] 0.

Lemma zero_is_safe : safe_integer 0.
Proof. by vm_compute. Qed.

Lemma extract_schema_that_does_not_parse_witness :
  (type read_table = extract /\
   assoc "schema" (config read_table) = JStr "{ rows: string[] }" /\
   truthy (JStr "{ rows: string[] }") = true /\
   JSON_parse obliging "{ rows: string[] }"
     = inr (mkError "SyntaxError" "Unexpected token o in JSON") /\
   safe_integer (order read_table) /\
   stagehand during = Some {| sh_headless := true |} /\
   let s' := (Executor.run obliging "run" (executeStep obliging 0 read_table) during).1 in
   (Executor.run obliging "run" (executeStep obliging 0 read_table) during).2
     = inr (mkError "SyntaxError" "Unexpected token o in JSON") /\
   calls (wire s') = [] /\
   map shape (logs s') =
     [(lvl_info, "step", "Executing step 1: extract - Read the table");
      (lvl_info, "extract", "Extracting data: Read the table");
      (lvl_error, "step", "Step 1 failed: Unexpected token o in JSON")]) /\
  (type read_unprintable = extract /\
   assoc "schema" (config read_unprintable) = JStr "{ rows: string[] }" /\
   safe_integer (order read_unprintable) /\
   let s' := (Executor.run obliging "run" (executeStep obliging 0 read_unprintable) during).1 in
   (Executor.run obliging "run" (executeStep obliging 0 read_unprintable) during).2
     = inr (TypeError "Cannot convert object to primitive value") /\
   calls (wire s') = [] /\
   map shape (logs s') =
     [(lvl_info, "step", "Executing step 1: extract - Read the table");
      (lvl_error, "step", "Step 1 failed: Cannot convert object to primitive value")]).
Proof.
  split.
  - destruct (extract_schema_that_does_not_parse obliging "run" 0 read_table
                "{ rows: string[] }" (mkError "SyntaxError" "Unexpected token o in JSON")
                during {| sh_headless := true |}
                eq_refl eq_refl eq_refl eq_refl zero_is_safe eq_refl)
      as (Hresult & Hcalls & Hlogs).
    do 4 (split; [reflexivity|]). split; [exact zero_is_safe|]. split; [reflexivity|].
    cbn zeta. split; [exact Hresult|]. split; [exact Hcalls|].
    rewrite Hlogs. by vm_compute.
  - destruct (extract_schema_that_does_not_parse obliging "run" 0 read_unprintable
                "{ rows: string[] }" (mkError "SyntaxError" "Unexpected token o in JSON")
                during {| sh_headless := true |}
                eq_refl eq_refl eq_refl eq_refl zero_is_safe eq_refl)
      as (Hresult & Hcalls & Hlogs).
    do 2 (split; [reflexivity|]). split; [exact zero_is_safe|].
    cbn zeta. split; [exact Hresult|]. split; [exact Hcalls|].
    rewrite Hlogs. by vm_compute.
Defined.

(** Waits with a duration: one that is a number, one that cannot be
    printed. *)
Definition pause_for (duration : JsValue) : AutomationStep :=
  mkStep "s-wait" wait "Let the page settle" [("duration", duration)] 0.

Lemma fixed_wait_sleeps_or_throws_witness :
  (type pause = wait /\
   truthy (assoc "selector" (config pause)) = false /\
   stagehand during = Some {| sh_headless := true |} /\
   truthy (assoc "duration" (config pause)) = false /\
   (Executor.run obliging "run" (executeStep obliging 0 pause) during).2 = inl JUndefined /\
   calls (wire (Executor.run obliging "run" (executeStep obliging 0 pause) during).1)
     = [(0%nat, setTimeout (JNum 1000))]) /\
  (refuses_ToString (JNum 250) = false /\
   (Executor.run obliging "run" (executeStep obliging 3 (pause_for (JNum 250))) during).2
     = inl JUndefined /\
   calls (wire (Executor.run obliging "run"
                  (executeStep obliging 3 (pause_for (JNum 250))) during).1)
     = [(3%nat, setTimeout (JNum 250))]) /\
  (refuses_ToString (JObj [("toString", JNum 1)]) = true /\
   (Executor.run obliging "run"
      (executeStep obliging 0 (pause_for (JObj [("toString", JNum 1)]))) during).2
     = inr (TypeError "Cannot convert object to primitive value") /\
   calls (wire (Executor.run obliging "run"
                  (executeStep obliging 0 (pause_for (JObj [("toString", JNum 1)])))
                  during).1) = []).
Proof.
  split; [|split].
  - do 4 (split; [reflexivity|]).
    exact (proj1 (proj2 (fixed_wait_sleeps_or_throws obliging "run" 0 pause during
                           {| sh_headless := true |} eq_refl eq_refl eq_refl)) eq_refl).
  - split; [reflexivity|].
    exact (proj1 (fixed_wait_sleeps_or_throws obliging "run" 3 (pause_for (JNum 250)) during
                    {| sh_headless := true |} eq_refl eq_refl eq_refl) eq_refl).
  - split; [reflexivity|].
    exact (proj2 (proj2 (fixed_wait_sleeps_or_throws obliging "run" 0
                           (pause_for (JObj [("toString", JNum 1)])) during
                           {| sh_headless := true |} eq_refl eq_refl eq_refl)) eq_refl).
Defined.

Lemma empty_config_falls_back_on_defaults_witness :
  config pause = [] /\
  stagehand during = Some {| sh_headless := true |} /\
  calls (wire (Executor.run obliging "run" (executeStep obliging 0 pause) during).1)
    = calls (wire during) ++ [(0%nat, setTimeout (JNum 1000))].
Proof.
  split; [reflexivity|]. split; [reflexivity|].
  exact (empty_config_falls_back_on_defaults obliging "run" 0 pause during
           {| sh_headless := true |} eq_refl eq_refl).
Defined.

Lemma failed_initialisation_transcript_witness :
  init_outcome no_browser "run" capture = inr (Error "Failed to launch browser") /\
  exists s' rec,
    execute no_browser "run" [] capture fresh = (s', inl rec) /\
    res_results rec = JNull /\
    calls (wire s') = [].
Proof.
  split; [reflexivity|].
  destruct (failed_initialisation_transcript no_browser "run" [] capture
              (Error "Failed to launch browser") eq_refl)
    as (s' & rec & Hrun & Hres & Hcalls & _).
  by exists s', rec.
Defined.

Definition read_the_table : Workflow :=
  mkWorkflow "wf-2" "Read the table" [pause; read_table] sequential None.

Lemma sequential_run_with_a_rejected_schema_fails_witness :
  executionMode read_the_table = sequential /\
  steps read_the_table !! 1%nat = Some read_table /\
  type read_table = extract /\
  assoc "schema" (config read_table) = JStr "{ rows: string[] }" /\
  truthy (JStr "{ rows: string[] }") = true /\
  JSON_parse obliging "{ rows: string[] }"
    = inr (mkError "SyntaxError" "Unexpected token o in JSON") /\
  exists s' rec,
    execute obliging "run" [] read_the_table fresh = (s', inl rec) /\
    res_results rec = JNull.
Proof.
  do 6 (split; [reflexivity|]).
  exact (sequential_run_with_a_rejected_schema_fails obliging "run" [] read_the_table 1
           read_table "{ rows: string[] }" (mkError "SyntaxError" "Unexpected token o in JSON")
           eq_refl eq_refl eq_refl eq_refl eq_refl eq_refl).
Defined.

End Runs.

(* ================================================================== *)
(** * More on the gateway client                                        *)
(* ================================================================== *)

Module GatewayMore.
Import Gateway GatewayFacts.

(** ** What the client keeps through a call *)

Lemma makeRequest_model w c : actualModelName (makeRequest w c).1 = actualModelName c.
Proof.
  unfold makeRequest.
  destruct (network w (requests c)) as [code body|err]; [|done].
  destruct (negb (code =? 0) && (200 <=? code) && (code <? 300)).
  - by destruct (JSON_parse w body).
  - by destruct (code =? 401).
Qed.

(** A successful call hands back what [format_response] made of a reply,
    for a client that still runs the model of [c]. *)
Lemma retry_loop_success w b : forall c resp,
  (retry_loop w b c).2 = inl resp ->
  exists c1 data, format_response w c1 data = inl resp /\
                  actualModelName c1 = actualModelName c.
Proof.
  induction b as [|b IH]; intros c resp; [done|].
  cbn [retry_loop]. unfold attempt.
  pose proof (makeRequest_model w c) as Hmodel.
  destruct (makeRequest w c) as [c1 [data|e]]; cbn [fst] in Hmodel.
  - destruct (format_response w c1 data) as [resp'|e] eqn:Hformat.
    + cbn [snd]. intros [= <-]. by exists c1, data.
    + destruct (includes "Unauthorized" (message e)).
      * destruct b as [|b']; [done|].
        unfold fetchOAuthConfig. destruct (token_script w (fetches c1)); [|done].
        intros H. apply IH in H as (c2 & data' & ? & Hm). exists c2, data'.
        split; [done|]. by rewrite Hm.
      * cbn [Nat.leb]. intros H. apply IH in H as (c2 & data' & ? & Hm).
        exists c2, data'. split; [done|]. congruence.
  - destruct (includes "Unauthorized" (message e)).
    + destruct b as [|b']; [done|].
      unfold fetchOAuthConfig. destruct (token_script w (fetches c1)); [|done].
      intros H. apply IH in H as (c2 & data' & ? & Hm). exists c2, data'.
      split; [done|]. by rewrite Hm.
    + cbn [Nat.leb]. intros H. apply IH in H as (c2 & data' & ? & Hm).
      exists c2, data'. split; [done|]. congruence.
Qed.

Lemma ensure_token_model w c : actualModelName (ensure_token w c).1 = actualModelName c.
Proof.
  unfold ensure_token, fetchOAuthConfig. destruct (no_token c); [|done].
  destruct (token_script w (fetches c)) as [t|e]; [|done].
  destruct (tr_baseURL t) as [u|]; [|done]. by destruct (String.eqb u "").
Qed.

Lemma js_or_default_truthy a s : truthy (JStr s) = true -> truthy (js_or a (JStr s)) = true.
Proof. unfold js_or. by destruct (truthy a) eqn:H. Qed.

Lemma js_or_chain a b :
  truthy (js_or (js_or a b) (JStr "")) = true \/ js_or (js_or a b) (JStr "") = JStr "".
Proof.
  unfold js_or. destruct (truthy a) eqn:Ha; [rewrite Ha; by left|].
  destruct (truthy b) eqn:Hb; [rewrite Hb; by left|by right].
Qed.

(** X9: whatever the gateway replied, a completion that succeeds has the
    shape Stagehand expects: object [chat.completion], the model name
    of the client, and exactly one choice, with index 0, role
    [assistant], a content that is the reply's content or the empty
    string (never [undefined] or [null]), tool calls only when there
    is at least one, and a finish reason that defaults to [stop]. *)
Theorem completion_has_exactly_one_choice (w : World) (c : Client) (resp : LLMResponse) :
  (createChatCompletion w c).2 = inl resp ->
  object resp = "chat.completion" /\
  model resp = actualModelName c /\
  exists choice,
    choices resp = [choice] /\
    index choice = 0 /\
    role (msg choice) = "assistant" /\
    (truthy (content (msg choice)) = true \/ content (msg choice) = JStr "") /\
    tool_calls (msg choice) <> Some [] /\
    truthy (finish_reason choice) = true.
Proof.
  unfold createChatCompletion.
  pose proof (ensure_token_model w c) as Hmodel.
  destruct (ensure_token w c) as [c0 [[]|err]]; [|done]. cbn [fst] in Hmodel.
  intros H. apply retry_loop_success in H as (c1 & data & Hformat & Hm).
  unfold format_response in Hformat.
  destruct (negb (truthy _) && absent data); [done|].
  injection Hformat as <-. cbn.
  split; [done|]. split; [congruence|].
  eexists. split; [reflexivity|]. cbn.
  split; [done|]. split; [done|]. split; [|split].
  - apply js_or_chain.
  - by destruct (js_get_opt _ "tool_calls") as [| | | | |[|t ts]|].
  - by apply js_or_default_truthy.
Qed.

(** ** The test for an authorisation failure *)

Lemma includes_app_r needle a b :
  includes needle b = true -> includes needle (a +:+ b) = true.
Proof.
  intros H. induction a as [|ch a IH]; [done|].
  change (includes needle (String ch (a +:+ b)) = true).
  cbn [includes]. rewrite IH. apply orb_true_r.
Qed.

Lemma retry_loop_fetches w b c : (fetches c <= fetches (retry_loop w b c).1)%nat.
Proof.
  pose proof (retry_loop_policy w b c) as P. cbn zeta in P.
  apply policy_budget in P. lia.
Qed.

(** One turn of the loop on an authorisation failure with budget left. *)
Lemma retry_loop_unauthorized w b c c1 e :
  attempt w c = (c1, inr e) ->
  unauthorized e = true ->
  retry_loop w (S (S b)) c =
  match token_script w (fetches c1) with
  | inl t =>
      retry_loop w (S b)
        (set_token (Some (access_token t))
           (mkClient (actualModelName c1) (oauthToken c1) (baseURL c1)
                     (S (fetches c1)) (requests c1)))
  | inr tokenError =>
      (mkClient (actualModelName c1) (oauthToken c1) (baseURL c1)
                (S (fetches c1)) (requests c1), inr tokenError)
  end.
Proof.
  intros Hatt Hu. unfold unauthorized in Hu.
  change (retry_loop w (S (S b)) c) with
    (let (c1, outcome) := attempt w c in
     match outcome with
     | inl formattedResponse => (c1, inl formattedResponse)
     | inr error =>
         if includes "Unauthorized" (message error) then
           let (c2, tokenResponse) := fetchOAuthConfig w c1 in
           match tokenResponse with
           | inl t => retry_loop w (S b) (set_token (Some (access_token t)) c2)
           | inr tokenError => (c2, inr tokenError)
           end
         else
           if (S (S b) <=? 0)%nat then (c1, inr error)
           else retry_loop w (S b) c1
     end).
  rewrite Hatt, Hu. reflexivity.
Qed.

(** X10: the loop tells an authorisation failure by the text of the
    error, not by the status code.  A reply that is not 2xx and whose
    body contains [Unauthorized] is handled as one whatever its status:
    with budget left the client runs the token script again before it
    retries; unless the status was 401 it had kept its token. *)
Theorem reply_naming_unauthorized_refreshes_the_token
    (w : World) (c : Client) (code : Z) (body : string) (b : nat) :
  network w (requests c) = Response code body ->
  ~ (200 <= code < 300) ->
  includes "Unauthorized" body = true ->
  (exists e, (attempt w c).2 = inr e /\ unauthorized e = true) /\
  (code <> 401 -> oauthToken (attempt w c).1 = oauthToken c) /\
  (fetches c < fetches (retry_loop w (S (S b)) c).1)%nat.
Proof.
  intros Hnet Hcode Hbody.
  assert (Hrange : negb (code =? 0) && (200 <=? code) && (code <? 300) = false).
  { rewrite !andb_false_iff, Z.leb_gt, Z.ltb_ge. lia. }
  assert (Hatt : exists e, attempt w c
                   = ((if code =? 401
                       then set_token None
                              (mkClient (actualModelName c) (oauthToken c) (baseURL c)
                                        (fetches c) (S (requests c)))
                       else mkClient (actualModelName c) (oauthToken c) (baseURL c)
                                     (fetches c) (S (requests c))), inr e) /\
                   unauthorized e = true).
  { unfold attempt, makeRequest. rewrite Hnet, Hrange.
    destruct (code =? 401); eexists; (split; [reflexivity|]); unfold unauthorized; cbn [message Error].
    - reflexivity.
    - by do 3 apply includes_app_r. }
  destruct Hatt as (e & Hatt & Hu).
  split; [exists e; by rewrite Hatt|]. split.
  - intros Hne. rewrite Hatt. by destruct (Z.eqb_spec code 401).
  - rewrite (retry_loop_unauthorized w b c _ e Hatt Hu).
    set (c1 := if code =? 401 then _ else _).
    assert (Hf : fetches c1 = fetches c) by (subst c1; by destruct (code =? 401)).
    destruct (token_script w (fetches c1)) as [t|te].
    + match goal with
      | |- context [retry_loop w (S b) ?c2] =>
          pose proof (retry_loop_fetches w (S b) c2) as Hle
      end.
      cbn [set_token fetches] in Hle. lia.
    + cbn [fst fetches]. lia.
Qed.

(** ** Calls that end on the token *)

Lemma unauthorized_message body :
  includes "Unauthorized" ("Unauthorized – token expired or invalid: " +:+ body) = true.
Proof. reflexivity. Qed.

(** X11: three 401 replies in a row, with both refreshes succeeding, end
    the call with the third [Unauthorized] error after exactly three
    requests and two refreshes, and leave the client without a token:
    the last 401 cleared it and nothing fetched one since, so the next
    call starts by running the token script. *)
Theorem three_unauthorized_replies_leave_no_token
    (w : World) (c c0 : Client) (body1 body2 body3 : string) (t1 t2 : TokenResponse) :
  ensure_token w c = (c0, inl tt) ->
  network w (requests c0) = Response 401 body1 ->
  network w (S (requests c0)) = Response 401 body2 ->
  network w (S (S (requests c0))) = Response 401 body3 ->
  token_script w (fetches c0) = inl t1 ->
  token_script w (S (fetches c0)) = inl t2 ->
  let c' := (createChatCompletion w c).1 in
  (createChatCompletion w c).2
    = inr (Error ("Unauthorized – token expired or invalid: " +:+ body3)) /\
  requests c' = (requests c0 + 3)%nat /\
  fetches c' = (fetches c0 + 2)%nat /\
  oauthToken c' = None /\
  no_token c' = true /\
  fetches (ensure_token w c').1 = S (fetches c').
Proof.
  intros Hready H1 H2 H3 Ht1 Ht2. cbn zeta.
  rewrite (createChatCompletion_ready w c c0 Hready).
  cbn [retry_loop]. unfold attempt, makeRequest, fetchOAuthConfig.
  rewrite H1. cbn -[String.append].
  rewrite Ht1, H2. cbn -[String.append].
  rewrite Ht2, H3. cbn -[String.append].
  rewrite !unauthorized_message. cbn -[String.append].
  split; [done|]. split; [lia|]. split; [lia|]. split; [done|]. split; [done|].
  unfold ensure_token, fetchOAuthConfig. cbn -[String.append].
  destruct (token_script w (S (S (fetches c0)))) as [t|te]; cbn; [|done].
  destruct (tr_baseURL t) as [u|]; [by destruct (String.eqb u "")|done].
Qed.

(** X12: a token script that fails during a refresh ends the call at
    once, whatever budget is left: after a first 401 and a failed
    refresh the call raises the script's error after exactly one request
    and one run of the script. *)
Theorem failed_refresh_is_not_retried
    (w : World) (c c0 : Client) (body : string) (tokenError : JsError) :
  ensure_token w c = (c0, inl tt) ->
  network w (requests c0) = Response 401 body ->
  token_script w (fetches c0) = inr tokenError ->
  let c' := (createChatCompletion w c).1 in
  (createChatCompletion w c).2 = inr tokenError /\
  requests c' = S (requests c0) /\
  fetches c' = S (fetches c0).
Proof.
  intros Hready Hnet Htoken. cbn zeta.
  rewrite (createChatCompletion_ready w c c0 Hready).
  cbn [retry_loop]. unfold attempt, makeRequest, fetchOAuthConfig.
  rewrite Hnet. cbn -[String.append]. rewrite unauthorized_message, Htoken. done.
Qed.

(** A gateway that answers 403 with a body that names the failure. *)
Definition forbidden : World :=
  {| token_script := fun _ => inl {| access_token := "fresh"; tr_baseURL := None |};
     network := fun _ => Response 403 "Unauthorized for this deployment";
     JSON_parse := fun _ => Some (JObj []);
     Date_now := fun _ => 0 |}.

(** A gateway that answers 401 while the token script is broken. *)
Definition broken_script : World :=
  {| token_script := fun _ => inr (Error "Python script failed: no module named msal");
     network := fun _ => Response 401 "expired";
     JSON_parse := fun _ => Some (JObj []);
     Date_now := fun _ => 0 |}.

Lemma completion_has_exactly_one_choice_witness :
  exists resp,
    (createChatCompletion expired_once has_token).2 = inl resp /\
    object resp = "chat.completion" /\ model resp = "m".
Proof.
  eexists. split; [reflexivity|].
  destruct (completion_has_exactly_one_choice expired_once has_token _ eq_refl)
    as (Hobject & Hmodel & _).
  split; [exact Hobject|exact Hmodel].
Defined.

Lemma reply_naming_unauthorized_refreshes_the_token_witness :
  network forbidden (requests has_token) = Response 403 "Unauthorized for this deployment" /\
  ~ (200 <= 403 < 300) /\
  includes "Unauthorized" "Unauthorized for this deployment" = true /\
  (fetches has_token < fetches (retry_loop forbidden 3 has_token).1)%nat.
Proof.
  split; [reflexivity|]. split; [lia|]. split; [reflexivity|].
  exact (proj2 (proj2 (reply_naming_unauthorized_refreshes_the_token forbidden has_token
                         403 "Unauthorized for this deployment" 1
                         eq_refl ltac:(lia) eq_refl))).
Defined.

Lemma three_unauthorized_replies_leave_no_token_witness :
  ensure_token always_401 has_token = (has_token, inl tt) /\
  network always_401 0 = Response 401 "expired" /\
  token_script always_401 0 = inl {| access_token := "t"; tr_baseURL := None |} /\
  oauthToken (createChatCompletion always_401 has_token).1 = None.
Proof.
  split; [reflexivity|]. split; [reflexivity|]. split; [reflexivity|].
  exact (proj1 (proj2 (proj2 (proj2
    (three_unauthorized_replies_leave_no_token always_401 has_token has_token
       "expired" "expired" "expired"
       {| access_token := "t"; tr_baseURL := None |}
       {| access_token := "t"; tr_baseURL := None |}
       eq_refl eq_refl eq_refl eq_refl eq_refl eq_refl))))).
Defined.

Lemma failed_refresh_is_not_retried_witness :
  ensure_token broken_script has_token = (has_token, inl tt) /\
  network broken_script 0 = Response 401 "expired" /\
  token_script broken_script 0 = inr (Error "Python script failed: no module named msal") /\
  (createChatCompletion broken_script has_token).2
    = inr (Error "Python script failed: no module named msal").
Proof.
  split; [reflexivity|]. split; [reflexivity|]. split; [reflexivity|].
  exact (proj1 (failed_refresh_is_not_retried broken_script has_token has_token "expired"
                  (Error "Python script failed: no module named msal")
                  eq_refl eq_refl eq_refl)).
Defined.

End GatewayMore.

(* ================================================================== *)
(** * Properties of the store                                           *)
(* ================================================================== *)

Module MemStorageFacts.
Import Storage MemStorage.

(** ** The map *)

Lemma filter_all {A} (P : A -> Prop) `{!forall x, Decision (P x)} (l : list A) :
  Forall P l -> filter P l = l.
Proof.
  induction 1 as [|x l Hx _ IH]; [done|]. rewrite filter_cons_True by done. by rewrite IH.
Qed.

Section MapFacts.
Context {V : Type}.
Implicit Types (m : Map V) (k : string) (v : V).

Lemma Map_get_set_eq k v m : Map_get k (Map_set k v m) = Some v.
Proof.
  induction m as [|[k' v'] m IH]; cbn; [by rewrite String.eqb_refl|].
  destruct (String.eqb k k') eqn:E; cbn; rewrite ?String.eqb_refl, ?E; done.
Qed.

Lemma Map_get_set_ne k k' v m : k <> k' -> Map_get k' (Map_set k v m) = Map_get k' m.
Proof.
  intros Hne. assert (E' : String.eqb k' k = false) by (by apply String.eqb_neq).
  induction m as [|[k0 v0] m IH]; cbn; [by rewrite E'|].
  destruct (String.eqb k k0) eqn:E; cbn.
  - apply String.eqb_eq in E as <-. by rewrite E'.
  - by rewrite IH.
Qed.

Lemma Map_has_keys k m : Map_has k m = true <-> k ∈ Map_keys m.
Proof.
  unfold Map_has. induction m as [|[k' v'] m IH]; cbn.
  { split; [done|by intros ?%elem_of_nil]. }
  destruct (String.eqb k k') eqn:E.
  - apply String.eqb_eq in E as <-. split; [intros _; apply elem_of_cons; by left|done].
  - apply String.eqb_neq in E. rewrite IH, elem_of_cons. split; [by right|].
    by intros [?|?].
Qed.

Lemma Map_has_get k m : Map_has k m = true <-> is_Some (Map_get k m).
Proof. unfold Map_has. destruct (Map_get k m); split; (done || by intros [? ?]). Qed.

Lemma Map_keys_set k v m :
  Map_keys (Map_set k v m) = if Map_has k m then Map_keys m else Map_keys m ++ [k].
Proof.
  unfold Map_has, Map_keys. induction m as [|[k' v'] m IH]; cbn; [done|].
  destruct (String.eqb k k') eqn:E; cbn.
  - apply String.eqb_eq in E as <-. done.
  - rewrite IH. by destruct (Map_get k m).
Qed.

Lemma Map_values_set_fresh k v m :
  Map_has k m = false -> Map_values (Map_set k v m) = Map_values m ++ [v].
Proof.
  unfold Map_has, Map_values. induction m as [|[k' v'] m IH]; cbn; [done|].
  destruct (String.eqb k k') eqn:E; [done|].
  intros H. cbn. by rewrite IH.
Qed.

Lemma Map_set_NoDup k v m : NoDup (Map_keys m) -> NoDup (Map_keys (Map_set k v m)).
Proof.
  intros Hnd. rewrite Map_keys_set. destruct (Map_has k m) eqn:E; [done|].
  apply NoDup_app. split; [done|]. split; [|apply NoDup_singleton].
  intros x Hx ->%list_elem_of_singleton. apply Map_has_keys in Hx. congruence.
Qed.

Lemma Map_keys_delete k m :
  NoDup (Map_keys m) -> Map_keys (Map_delete k m) = filter (fun k' => k' <> k) (Map_keys m).
Proof.
  unfold Map_keys. induction m as [|[k' v'] m IH]; [done|].
  cbn [Map_delete map fst]. intros Hnd. apply NoDup_cons in Hnd as [Hnotin Hnd].
  rewrite filter_cons.
  destruct (String.eqb k k') eqn:E.
  - apply String.eqb_eq in E as <-.
    destruct (decide (k <> k)) as [Hne|_]; [done|].
    symmetry. apply filter_all. apply Forall_forall. intros x Hx ->. done.
  - apply String.eqb_neq in E.
    destruct (decide (k' <> k)) as [_|Heq]; [|by destruct Heq; congruence].
    cbn [map fst]. by rewrite IH.
Qed.

Lemma Map_delete_NoDup k m : NoDup (Map_keys m) -> NoDup (Map_keys (Map_delete k m)).
Proof. intros Hnd. rewrite Map_keys_delete by done. by apply NoDup_filter. Qed.

Lemma Map_get_delete_eq k m : NoDup (Map_keys m) -> Map_get k (Map_delete k m) = None.
Proof.
  intros Hnd. destruct (Map_get k (Map_delete k m)) eqn:E; [|done].
  assert (H : k ∈ Map_keys (Map_delete k m)).
  { apply Map_has_keys, Map_has_get. by rewrite E. }
  rewrite Map_keys_delete in H by done. apply list_elem_of_filter in H as [H _]. done.
Qed.

Lemma Map_get_delete_ne k k' m : k <> k' -> Map_get k' (Map_delete k m) = Map_get k' m.
Proof.
  intros Hne. assert (E' : String.eqb k' k = false) by (by apply String.eqb_neq).
  induction m as [|[k0 v0] m IH]; cbn; [done|].
  destruct (String.eqb k k0) eqn:E; cbn.
  - apply String.eqb_eq in E as <-. by rewrite E'.
  - by rewrite IH.
Qed.

Lemma Map_delete_missing k m : Map_has k m = false -> Map_delete k m = m.
Proof.
  unfold Map_has. induction m as [|[k' v'] m IH]; cbn; [done|].
  destruct (String.eqb k k') eqn:E; [done|]. intros H. by rewrite IH.
Qed.


End MapFacts.

(** ** Histories *)

(** The calls that change the store. *)
Inductive Operation : Type :=
| do_createWorkflow (insertWorkflow : InsertWorkflow)
| do_updateWorkflow (id : string) (updates : WorkflowPatch)
| do_deleteWorkflow (id : string)
| do_createExecution (insertExecution : Stored)
| do_updateExecution (id : string) (updates : Partial)
| do_getSession.

Definition perform (w : World) (o : Operation) (st : Store) : Store :=
  match o with
  | do_createWorkflow insertWorkflow => (createWorkflow w insertWorkflow st).1
  | do_updateWorkflow id updates => (updateWorkflow w id updates st).1
  | do_deleteWorkflow id => (deleteWorkflow w id st).1
  | do_createExecution insertExecution => (createExecution w insertExecution st).1
  | do_updateExecution id updates => (updateExecution w id updates st).1
  | do_getSession => (getSession w st).1
  end.

(** The store a new [MemStorage] has become after a history of calls. *)
Definition after (w : World) (history : list Operation) : Store :=
  foldl (fun st o => perform w o st) (constructor w) history.

(** The lists of the session name exactly the keys of the maps, which
    hold no key twice. *)
Definition mirrors (st : Store) : Prop :=
  NoDup (Map_keys (workflows st)) /\
  NoDup (Map_keys (executions st)) /\
  (forall id, id ∈ sess_workflows (session st) <-> id ∈ Map_keys (workflows st)) /\
  (forall id, id ∈ sess_executions (session st) <-> id ∈ Map_keys (executions st)).

Section WithWorld.
Variable w : World.

Lemma mirrors_constructor : mirrors (constructor w).
Proof. split; [constructor|]. split; [constructor|]. done. Qed.

Lemma elem_of_keys_set {V} id k (v : V) (m : Map V) :
  id ∈ Map_keys (Map_set k v m) <-> id ∈ Map_keys m \/ id = k.
Proof.
  rewrite Map_keys_set. destruct (Map_has k m) eqn:E.
  - split; [by left|]. intros [?| ->]; [done|]. by apply Map_has_keys.
  - rewrite elem_of_app, list_elem_of_singleton. done.
Qed.

Lemma mirrors_perform o st : mirrors st -> mirrors (perform w o st).
Proof.
  intros (Hw & He & Hsw & Hse). unfold mirrors.
  destruct o as [ins|id updates|id|ins|id updates|]; cbn [perform].
  - unfold createWorkflow. cbn [fst workflows executions session sess_workflows sess_executions].
    split; [by apply Map_set_NoDup|]. split; [done|]. split; [|done].
    intros id. rewrite elem_of_keys_set, elem_of_app, list_elem_of_singleton, Hsw. done.
  - unfold updateWorkflow. destruct (Map_get id (workflows st)) as [wf|] eqn:Hget; [|done].
    cbn [fst workflows executions session sess_workflows sess_executions].
    split; [by apply Map_set_NoDup|]. split; [done|]. split; [|done].
    intros id'. rewrite elem_of_keys_set, Hsw. split; [by left|].
    intros [?| ->]; [done|]. apply Map_has_keys, Map_has_get. by rewrite Hget.
  - unfold deleteWorkflow. destruct (Map_has id (workflows st)) eqn:Hhas; [|done].
    cbn [fst workflows executions session sess_workflows sess_executions].
    split; [by apply Map_delete_NoDup|]. split; [done|]. split; [|done].
    intros id'. rewrite Map_keys_delete by done.
    rewrite !list_elem_of_filter, Hsw. done.
  - unfold createExecution. cbn [fst workflows executions session sess_workflows sess_executions].
    split; [done|]. split; [by apply Map_set_NoDup|]. split; [done|].
    intros id. rewrite elem_of_keys_set, elem_of_app, list_elem_of_singleton, Hse. done.
  - unfold updateExecution. destruct (Map_get id (executions st)) as [e|] eqn:Hget; [|done].
    cbn [fst touch workflows executions session sess_workflows sess_executions].
    split; [done|]. split; [by apply Map_set_NoDup|]. split; [done|].
    intros id'. rewrite elem_of_keys_set, Hse. split; [by left|].
    intros [?| ->]; [done|]. apply Map_has_keys, Map_has_get. by rewrite Hget.
  - done.
Qed.

Lemma mirrors_after history : mirrors (after w history).
Proof.
  unfold after. induction history as [|o history IH] using rev_ind; [apply mirrors_constructor|].
  rewrite foldl_app. cbn [foldl]. by apply mirrors_perform.
Qed.

(** X13: through every history of calls on a new store (the calls the
    routes make: every method but [updateSession]) the session mirrors
    the maps: an identifier is listed in [session.workflows] exactly
    when a workflow is stored under it, and in [session.executions]
    exactly when an execution is. *)
Theorem session_lists_what_is_stored (history : list Operation) (id : string) :
  let st := after w history in
  (id ∈ sess_workflows (session st) <-> is_Some (getWorkflow id st)) /\
  (id ∈ sess_executions (session st) <-> is_Some (getExecution id st)).
Proof.
  cbn zeta. destruct (mirrors_after history) as (_ & _ & Hsw & Hse).
  unfold getWorkflow, getExecution.
  rewrite Hsw, Hse, <- !Map_has_keys, !Map_has_get. done.
Qed.

(** ** Workflows *)

(** X14: [createWorkflow] stores what it returns: the new workflow has
    the identifier just drawn and one clock reading as both timestamps,
    it is found under its identifier, every other lookup answers as
    before, the executions and the templates are untouched, and when the
    identifier was free the workflow comes last in [getWorkflows]. *)
Theorem created_workflow_is_stored (insertWorkflow : InsertWorkflow) (st : Store) :
  let st' := (createWorkflow w insertWorkflow st).1 in
  let workflow := (createWorkflow w insertWorkflow st).2 in
  wr_id workflow = randomUUID w (uuids st) /\
  wr_createdAt workflow = Date_now w (ticks st) /\
  wr_updatedAt workflow = wr_createdAt workflow /\
  getWorkflow (wr_id workflow) st' = Some workflow /\
  (forall id, id <> wr_id workflow -> getWorkflow id st' = getWorkflow id st) /\
  (getWorkflow (wr_id workflow) st = None ->
   getWorkflows st' = getWorkflows st ++ [workflow]) /\
  executions st' = executions st /\
  templates st' = templates st.
Proof.
  cbn zeta. unfold createWorkflow, getWorkflow, getWorkflows. cbn [fst snd workflows wr_id
    wr_createdAt wr_updatedAt executions templates].
  split; [done|]. split; [done|]. split; [done|].
  split; [apply Map_get_set_eq|]. split.
  - intros id Hne. by apply Map_get_set_ne.
  - split; [|done]. intros Hfree. apply Map_values_set_fresh.
    unfold Map_has. by rewrite Hfree.
Qed.

(** X15: [updateWorkflow] on a stored workflow merges the update into
    it and always stamps [updatedAt] with the clock, whatever the update
    carries.  The record stays under the key it had, at the place it
    had, even when the update changes its [id] field; every other
    lookup, the executions and the lists of the session are as
    before. *)
Theorem updated_workflow_keeps_its_key
    (id : string) (updates : WorkflowPatch) (st : Store) (workflow : WorkflowRecord) :
  getWorkflow id st = Some workflow ->
  let st' := (updateWorkflow w id updates st).1 in
  let updated := merge workflow updates (Date_now w (ticks st)) in
  (updateWorkflow w id updates st).2 = Some updated /\
  getWorkflow id st' = Some updated /\
  wr_updatedAt updated = Date_now w (ticks st) /\
  wr_id updated = default (wr_id workflow) (p_id updates) /\
  Map_keys (workflows st') = Map_keys (workflows st) /\
  (forall id', id' <> id -> getWorkflow id' st' = getWorkflow id' st) /\
  executions st' = executions st /\
  sess_workflows (session st') = sess_workflows (session st).
Proof.
  unfold getWorkflow. intros Hget. cbn zeta. unfold updateWorkflow. rewrite Hget.
  cbn [fst snd workflows executions session sess_workflows].
  split; [done|]. split; [apply Map_get_set_eq|]. split; [done|]. split; [done|].
  split; [|split; [|done]].
  - rewrite Map_keys_set.
    assert (Map_has id (workflows st) = true) as -> by (apply Map_has_get; by rewrite Hget).
    done.
  - intros id' Hne. by apply Map_get_set_ne.
Qed.

(** X16: in a store reached by any history, [deleteWorkflow] on a
    stored workflow answers [true]; afterwards the workflow is not
    found and not listed in the session, every other workflow is as
    before, and the executions are untouched: those of the deleted
    workflow stay. *)
Theorem deleted_workflow_is_gone (history : list Operation) (id : string) :
  let st := after w history in
  is_Some (getWorkflow id st) ->
  let st' := (deleteWorkflow w id st).1 in
  (deleteWorkflow w id st).2 = true /\
  getWorkflow id st' = None /\
  (id ∉ sess_workflows (session st')) /\
  (forall id', id' <> id -> getWorkflow id' st' = getWorkflow id' st) /\
  executions st' = executions st /\
  getExecutionsByWorkflow w id st' = getExecutionsByWorkflow w id st.
Proof.
  cbn zeta. destruct (mirrors_after history) as (Hnd & _ & _ & _).
  set (st := after w history) in *. unfold getWorkflow. intros Hsome.
  apply Map_has_get in Hsome. unfold deleteWorkflow, getExecutionsByWorkflow. rewrite Hsome.
  cbn [fst snd workflows executions session sess_workflows].
  split; [done|]. split; [by apply Map_get_delete_eq|]. split.
  - rewrite list_elem_of_filter. by intros [? _].
  - split; [|done]. intros id' Hne. apply Map_get_delete_ne. congruence.
Qed.

(** A call that names an identifier that is not stored changes
    nothing at all: [updateWorkflow] and [updateExecution] answer
    [undefined], [deleteWorkflow] answers [false], and the store, the
    session's [lastAccessedAt] included, is exactly as it was. *)
Lemma missing_identifier_changes_nothing
    (id : string) (updates : WorkflowPatch) (partial : Partial) (st : Store) :
  (getWorkflow id st = None ->
   updateWorkflow w id updates st = (st, None) /\
   deleteWorkflow w id st = (st, false)) /\
  (getExecution id st = None ->
   updateExecution w id partial st = (st, None)).
Proof.
  unfold getWorkflow, getExecution, updateWorkflow, deleteWorkflow, updateExecution, Map_has.
  split.
  - by intros ->.
  - by intros ->.
Qed.

(** ** Executions *)

Lemma insert_by_Permutation {A} (compareFn : A -> A -> Z) x l :
  insert_by compareFn x l ≡ₚ x :: l.
Proof.
  induction l as [|y l IH]; cbn; [done|].
  destruct (compareFn x y <=? 0); [done|].
  rewrite IH. apply Permutation_swap.
Qed.

Lemma Array_sort_Permutation {A} (compareFn : A -> A -> Z) l :
  Array_sort compareFn l ≡ₚ l.
Proof.
  unfold Array_sort. induction l as [|x l IH]; cbn; [done|].
  by rewrite insert_by_Permutation, IH.
Qed.

Lemma getExecutionsByWorkflow_elem (workflowId : string) (st : Store) (e : Stored) :
  e ∈ getExecutionsByWorkflow w workflowId st <->
  st_workflowId e = workflowId /\ e ∈ Map_values (executions st).
Proof.
  unfold getExecutionsByWorkflow. rewrite Array_sort_Permutation, list_elem_of_filter. done.
Qed.

(** X17: [getExecutionsByWorkflow] answers with the stored executions
    of that workflow and nothing else, each one once: its answer is a
    rearrangement of the stored executions whose [workflowId] is the
    one asked for; and [getExecutions] is a rearrangement of all the
    stored executions. *)
Theorem executions_of_a_workflow (workflowId : string) (st : Store) :
  getExecutionsByWorkflow w workflowId st
    ≡ₚ filter (fun e => st_workflowId e = workflowId) (Map_values (executions st)) /\
  (forall e, e ∈ getExecutionsByWorkflow w workflowId st <->
             st_workflowId e = workflowId /\ e ∈ Map_values (executions st)) /\
  getExecutions w st ≡ₚ Map_values (executions st).
Proof.
  unfold getExecutionsByWorkflow, getExecutions.
  split; [apply Array_sort_Permutation|]. split; [|apply Array_sort_Permutation].
  intros e. apply getExecutionsByWorkflow_elem.
Qed.

End WithWorld.

(** ** The order of the executions *)

Section Sorted.
Context {A : Type} (compareFn : A -> A -> Z).
Hypothesis total : forall a b, compareFn a b <= 0 \/ compareFn b a <= 0.
Hypothesis transitive : forall a b c, compareFn a b <= 0 -> compareFn b c <= 0 ->
                                      compareFn a c <= 0.

Lemma insert_by_sorted x l :
  StronglySorted (fun a b => compareFn a b <= 0) l ->
  StronglySorted (fun a b => compareFn a b <= 0) (insert_by compareFn x l).
Proof.
  induction 1 as [|y l Hl IH Hy]; cbn; [by repeat constructor|].
  destruct (Z.leb_spec (compareFn x y) 0) as [Hle|Hgt].
  - constructor; [by constructor|]. constructor; [done|].
    eapply Forall_impl; [exact Hy|]. intros z Hz. by eapply transitive.
  - constructor; [done|].
    rewrite (insert_by_Permutation compareFn x l). constructor; [|done].
    destruct (total x y); [lia|done].
Qed.

Lemma Array_sort_sorted l :
  StronglySorted (fun a b => compareFn a b <= 0) (Array_sort compareFn l).
Proof.
  unfold Array_sort. induction l as [|x l IH]; cbn; [constructor|].
  by apply insert_by_sorted.
Qed.

End Sorted.

(** X18: when [localeCompare] orders the strings (any two compare one
    way or the other, transitively), [getExecutions] lists the
    executions newest first: of two executions of the answer the one
    listed first has the timestamp that does not come before the
    other's, where the timestamp is [startedAt], else [completedAt],
    else the empty string. *)
Theorem executions_are_listed_newest_first (w : World) (workflowId : string) (st : Store) :
  (forall x y, localeCompare w x y <= 0 \/ localeCompare w y x <= 0) ->
  (forall x y z, localeCompare w x y <= 0 -> localeCompare w y z <= 0 ->
                 localeCompare w x z <= 0) ->
  StronglySorted (fun a b => newest_first w a b <= 0) (getExecutions w st) /\
  StronglySorted (fun a b => newest_started_first w a b <= 0)
                 (getExecutionsByWorkflow w workflowId st).
Proof.
  intros Htotal Htrans. split.
  - apply Array_sort_sorted.
    + intros a b. apply Htotal.
    + intros a b c H1 H2. unfold newest_first in *. eapply Htrans; eauto.
  - apply Array_sort_sorted.
    + intros a b. apply Htotal.
    + intros a b c H1 H2. unfold newest_started_first in *. eapply Htrans; eauto.
Qed.

(** ** A concrete store *)

(** Identifiers [id-0], [id-1], ... and a clock that counts. *)
Definition counting : World :=
  {| randomUUID := fun n => "id-" +:+ pretty n;
     Date_now := fun n => Z.of_nat n;
     toISOString := fun t => pretty t;
     localeCompare := fun _ _ => 0 |}.

Definition login_check : InsertWorkflow :=
  mkInsert "Login check" None
    [mkStep "s0" navigate "Open the login page" [("url", JStr "https://example.com/login")] 0]
    sequential None.

Definition rename : WorkflowPatch :=
  mkPatch (Some "other") (Some "Login check v2") None None None None None (Some 0).

Lemma updated_workflow_keeps_its_key_witness :
  exists workflow,
    getWorkflow "id-22" (after counting [do_createWorkflow login_check]) = Some workflow /\
    getWorkflow "id-22"
      (updateWorkflow counting "id-22" rename
         (after counting [do_createWorkflow login_check])).1
      = Some (merge workflow rename 3).
Proof.
  eexists. split; [reflexivity|].
  exact (proj1 (proj2 (updated_workflow_keeps_its_key counting "id-22" rename
                         (after counting [do_createWorkflow login_check]) _ eq_refl))).
Defined.

Lemma deleted_workflow_is_gone_witness :
  is_Some (getWorkflow "id-22" (after counting [do_createWorkflow login_check])) /\
  getWorkflow "id-22"
    (deleteWorkflow counting "id-22" (after counting [do_createWorkflow login_check])).1
    = None.
Proof.
  split; [by eexists|].
  exact (proj1 (proj2 (deleted_workflow_is_gone counting [do_createWorkflow login_check]
                         "id-22" (ex_intro _ _ eq_refl)))).
Defined.

(** The number a string of decimal digits prints. *)
Fixpoint reads (sofar : Z) (s : string) : Z :=
  match s with
  | EmptyString => sofar
  | String c rest => reads (10 * sofar + (Z.of_N (Ascii.N_of_ascii c) - 48)) rest
  end.

(** Identifiers [id-0], [id-1], ..., a clock that counts, and timestamps
    that are printed in decimal and compared as the numbers they
    print. *)
Definition dated : World :=
  {| randomUUID := fun n => "id-" +:+ pretty n;
     Date_now := fun n => Z.of_nat n;
     toISOString := fun t => pretty t;
     localeCompare := fun a b => Z.sgn (reads 0 a - reads 0 b) |}.

Lemma sgn_nonpos n : Z.sgn n <= 0 <-> n <= 0.
Proof. destruct n; cbn; lia. Qed.

Lemma dated_total x y : localeCompare dated x y <= 0 \/ localeCompare dated y x <= 0.
Proof. cbn. rewrite !sgn_nonpos. lia. Qed.

Lemma dated_transitive x y z :
  localeCompare dated x y <= 0 -> localeCompare dated y z <= 0 ->
  localeCompare dated x z <= 0.
Proof. cbn. rewrite !sgn_nonpos. lia. Qed.

(** An execution of [workflowId] as the route creates it at [startedAt]. *)
Definition queued_at (workflowId : string) (startedAt : Z) : Stored :=
  mkStored "" workflowId queued (literal []) JNull None None (Some startedAt) None None.

(** Three executions, created out of the order of their timestamps. *)
Definition three_runs : Store :=
  after dated [do_createExecution (queued_at "wf-a" 5);
               do_createExecution (queued_at "wf-b" 9);
               do_createExecution (queued_at "wf-a" 7)].

Lemma executions_are_listed_newest_first_witness :
  (forall x y, localeCompare dated x y <= 0 \/ localeCompare dated y x <= 0) /\
  (forall x y z, localeCompare dated x y <= 0 -> localeCompare dated y z <= 0 ->
                 localeCompare dated x z <= 0) /\
  map (fun e => (st_id e, st_startedAt e)) (Map_values (executions three_runs))
    = [("id-22", Some 5); ("id-23", Some 9); ("id-24", Some 7)] /\
  map (fun e => (st_id e, st_startedAt e)) (getExecutions dated three_runs)
    = [("id-23", Some 9); ("id-24", Some 7); ("id-22", Some 5)] /\
  StronglySorted (fun a b => newest_first dated a b <= 0) (getExecutions dated three_runs) /\
  map (fun e => (st_id e, st_startedAt e)) (getExecutionsByWorkflow dated "wf-a" three_runs)
    = [("id-24", Some 7); ("id-22", Some 5)] /\
  StronglySorted (fun a b => newest_started_first dated a b <= 0)
                 (getExecutionsByWorkflow dated "wf-a" three_runs).
Proof.
  split; [exact dated_total|]. split; [exact dated_transitive|].
  split; [by vm_compute|]. split; [by vm_compute|].
  destruct (executions_are_listed_newest_first dated "wf-a" three_runs
              dated_total dated_transitive) as [Hall Hone].
  split; [exact Hall|]. split; [by vm_compute|]. exact Hone.
Defined.

End MemStorageFacts.

(* ================================================================== *)
(** * Properties of the routes                                          *)
(* ================================================================== *)

Module ApiFacts.
Import Storage MemStorage MemStorageFacts Api.

#[local] Arguments String.append : simpl never.
#[local] Arguments pretty : simpl never.

(** ** The parser of descriptions *)

(** The keywords the parser looks for. *)
Definition keywords : list string :=
  ["go to"; "navigate"; "click"; "type"; "enter"; "extract"; "scrape"; "wait"].

(** The steps of a draft are numbered by their positions, and the
    counter is their number. *)
Definition numbered (d : Draft) : Prop :=
  next_order d = length (drafted d) /\
  forall i st, drafted d !! i = Some st ->
    order st = Z.of_nat i /\ type st <> agent /\
    exists reading : Z, id st = "step-" +:+ pretty reading +:+ "-" +:+ pretty i.

Section Parser.
Variable w : World.

Lemma numbered_push wanted type description config d :
  type <> agent ->
  numbered d -> numbered (push_when w wanted type description config d).
Proof.
  intros Htype [Hn Hall]. unfold push_when. destruct wanted; [|done].
  split; cbn [drafted next_order].
  - rewrite length_app. cbn. lia.
  - intros i st Hi. apply lookup_app_Some in Hi as [Hi|[Hlen Hi]]; [by apply Hall|].
    apply list_lookup_singleton_Some in Hi as [Hi <-]. cbn [order id Schema.type].
    assert (i = length (drafted d)) as -> by lia. rewrite Hn.
    split; [done|]. split; [done|]. by eexists.
Qed.

Lemma length_push wanted type description config d :
  (length (drafted (push_when w wanted type description config d))
   <= S (length (drafted d)))%nat.
Proof.
  unfold push_when. destruct wanted; cbn; [rewrite length_app; cbn; lia|lia].
Qed.

Lemma keyword_steps_numbered text now : numbered (keyword_steps w text now).
Proof.
  unfold keyword_steps. repeat (apply numbered_push; [done|]).
  split; [done|]. intros i st Hi. done.
Qed.

Lemma keyword_steps_length text now :
  (length (drafted (keyword_steps w text now)) <= 5)%nat.
Proof.
  unfold keyword_steps.
  repeat (etransitivity; [apply length_push|]; apply le_n_S). cbn. lia.
Qed.

(** X19: whatever the description, the parser answers with at least one
    step and at most five, numbered by position: the step at position
    [i] has [order = i] and an identifier [step-<clock>-<i>]. *)
Theorem parsed_steps_are_numbered_by_position (text : string) (now : nat) :
  let steps := (parse_description w text now).1 in
  (1 <= length steps <= 5)%nat /\
  forall i st, steps !! i = Some st ->
    order st = Z.of_nat i /\
    exists reading : Z, id st = "step-" +:+ pretty reading +:+ "-" +:+ pretty i.
Proof.
  cbn zeta. unfold parse_description.
  pose proof (keyword_steps_numbered text now) as [_ Hall].
  pose proof (keyword_steps_length text now) as Hlen.
  destruct (drafted (keyword_steps w text now)) as [|first rest] eqn:Hsteps; cbn [fst].
  - split; [cbn; lia|]. intros [|i] st Hi; [|done]. injection Hi as <-.
    split; [done|]. by eexists.
  - split; [cbn in *; lia|]. intros i st Hi.
    destruct (Hall i st Hi) as (Horder & _ & Hid). done.
Qed.

Lemma push_when_false type description config d :
  push_when w false type description config d = d.
Proof. done. Qed.

Lemma push_when_nonempty wanted type description config d :
  drafted d <> [] -> drafted (push_when w wanted type description config d) <> [].
Proof.
  unfold push_when. destruct wanted; [|done]. cbn. intros _ H.
  by apply app_eq_nil in H as [_ ?].
Qed.

Lemma push_when_true_nonempty type description config d :
  drafted (push_when w true type description config d) <> [].
Proof. cbn. intros H. by apply app_eq_nil in H as [_ ?]. Qed.

(** X20: the parser falls back on a single agent step exactly when the
    lower-cased description contains none of the eight keywords; that
    step carries the description, unchanged, as its description and as
    its instruction.  When a keyword is found there is no agent step at
    all. *)
Theorem description_without_keywords_becomes_one_agent_step (text : string) (now : nat) :
  let steps := (parse_description w text now).1 in
  (Forall (fun keyword => mentions w text keyword = false) keywords ->
   steps = [mkStep ("step-" +:+ pretty (MemStorage.Date_now (store_world w) now) +:+ "-0")
                   agent text [("instruction", JStr text)] 0]) /\
  (Exists (fun keyword => mentions w text keyword = true) keywords ->
   Forall (fun st => type st <> agent) steps).
Proof.
  cbn zeta. split.
  - intros Hnone. unfold keywords in Hnone.
    repeat match goal with
           | H : Forall _ (_ :: _) |- _ => apply Forall_cons in H as [? H]
           end.
    unfold parse_description, keyword_steps.
    repeat match goal with H : mentions _ _ _ = false |- _ => rewrite H; clear H end.
    cbn [orb]. rewrite !push_when_false. done.
  - intros Hsome. unfold parse_description.
    pose proof (keyword_steps_numbered text now) as [_ Hall].
    assert (Hne : drafted (keyword_steps w text now) <> []).
    { unfold keyword_steps, keywords in *.
      repeat match goal with
             | H : Exists _ (_ :: _) |- _ => apply Exists_cons in H as [H|H]
             | H : Exists _ [] |- _ => by apply Exists_nil in H
             end;
        match goal with H : mentions _ _ _ = true |- _ => rewrite H end;
        rewrite ?orb_true_r; cbn [orb];
        repeat first [ apply push_when_true_nonempty | apply push_when_nonempty ]. }
    destruct (drafted (keyword_steps w text now)) as [|first rest] eqn:Hsteps; [done|].
    cbn [fst]. apply Forall_forall. intros st Hin.
    apply list_elem_of_lookup in Hin as [i Hi].
    by destruct (Hall i st Hi) as (_ & ? & _).
Qed.

End Parser.

(** ** The handlers and the store *)

(** The requests that only read. *)
Definition reads (request : Request) : bool :=
  match request with
  | GET_workflows | GET_workflow _ | GET_executions | GET_execution _
  | GET_workflow_executions _ | GET_templates | GET_template _ | GET_session
  | GET_export_json _ | GET_export_csv _ => true
  | _ => false
  end.

(** X21: a request that is answered with an error status (400, 404 or
    500) has changed nothing: the store after it is the store before
    it, the clock and the session's [lastAccessedAt] included. *)
Theorem failed_request_leaves_the_store_as_it_was
    (w : World) (request : Request) (st : Store) :
  400 <= status_code (handle w request st).2 ->
  (handle w request st).1 = st.
Proof.
  destruct request as [|id|body|id body|id|description|id| |id|workflowId| |id|templateId|
                       |id|id]; cbn [handle].
  - done.
  - by destruct (getWorkflow id st).
  - destruct (insertWorkflowSchema_parse w body); [|done]. cbn -[Z.le]; intros H; exfalso; lia.
  - unfold updateWorkflow. destruct (Map_get id (workflows st)); [|done]. cbn -[Z.le]; intros H; exfalso; lia.
  - unfold deleteWorkflow. destruct (Map_has id (workflows st)); [|done]. cbn -[Z.le]; intros H; exfalso; lia.
  - destruct (truthy description); [|done].
    destruct description as [| | | |text| |]; try done.
    destruct (parse_description w text (ticks st)) as [steps now].
    cbn -[Z.le]; intros H; exfalso; lia.
  - destruct (getWorkflow id st); [|done]. cbn -[Z.le]; intros H; exfalso; lia.
  - done.
  - by destruct (getExecution id st).
  - done.
  - done.
  - by destruct (getTemplate id st).
  - destruct (truthy templateId); [|done].
    destruct (match templateId with JStr id => getTemplate id st | _ => None end); [|done].
    cbn -[Z.le]; intros H; exfalso; lia.
  - cbn -[Z.le]; intros H; exfalso; lia.
  - by destruct (getExecution id st).
  - destruct (getExecution id st) as [execution|]; [|done].
    by destruct (csv_export w (st_results execution)).
Qed.

(** A request that only reads does not write: after any GET the
    workflows, the executions, the templates and the lists of the
    session are what they were, and apart from [GET /api/session],
    which stamps [lastAccessedAt], the whole store is. *)
Lemma reading_requests_do_not_write (w : World) (request : Request) (st : Store) :
  reads request = true ->
  let st' := (handle w request st).1 in
  workflows st' = workflows st /\
  executions st' = executions st /\
  templates st' = templates st /\
  sess_workflows (session st') = sess_workflows (session st) /\
  sess_executions (session st') = sess_executions (session st) /\
  (request <> GET_session -> st' = st).
Proof.
  destruct request as [|id|body|id body|id|description|id| |id|workflowId| |id|templateId|
                       |id|id]; cbn [reads handle]; try discriminate; intros _; cbn zeta.
  - done.
  - by destruct (getWorkflow id st).
  - done.
  - by destruct (getExecution id st).
  - done.
  - done.
  - by destruct (getTemplate id st).
  - done.
  - by destruct (getExecution id st).
  - destruct (getExecution id st) as [execution|]; [|done].
    by destruct (csv_export w (st_results execution)).
Qed.

(** ** Workflows from templates, executions from workflows *)

Lemma use_template_creates (w : World) (id : string) (template : Template) (st : Store) :
  truthy (JStr id) = true ->
  getTemplate id st = Some template ->
  handle w (POST_templates_use (JStr id)) st =
  let created :=
    createWorkflow (store_world w)
      {| ins_name := tpl_name template +:+ " (from template)";
         ins_description := Some (tpl_description template);
         ins_steps := default [] (tpl_steps template);
         ins_executionMode := sequential;
         ins_browserConfig :=
           Some {| headless := true;
                   viewport := Some {| width := 1920; height := 1080 |};
                   userAgent := None |} |}
      st in
  (created.1, mkResponse 201 (json_workflow created.2)).
Proof. intros Htruthy Hget. cbn [handle]. by rewrite Htruthy, Hget. Qed.

(** X22: [POST /api/templates/use] with the identifier of a stored
    template answers 201 with a new workflow named
    [<template name> (from template)], with the template's steps, in the
    sequential mode, headless with a 1920 by 1080 viewport; the workflow
    is stored, so that [GET /api/workflows/:id] then answers with it,
    and the templates are untouched. *)
Theorem workflow_made_from_a_template
    (w : World) (id : string) (template : Template) (st : Store) :
  truthy (JStr id) = true ->
  getTemplate id st = Some template ->
  exists workflow,
    (handle w (POST_templates_use (JStr id)) st).2
      = mkResponse 201 (json_workflow workflow) /\
    wr_name workflow = tpl_name template +:+ " (from template)" /\
    wr_description workflow = Some (tpl_description template) /\
    wr_steps workflow = default [] (tpl_steps template) /\
    wr_executionMode workflow = sequential /\
    wr_browserConfig workflow
      = Some {| headless := true;
                viewport := Some {| width := 1920; height := 1080 |};
                userAgent := None |} /\
    wr_id workflow = randomUUID (store_world w) (uuids st) /\
    let st' := (handle w (POST_templates_use (JStr id)) st).1 in
    (handle w (GET_workflow (wr_id workflow)) st').2 = ok (json_workflow workflow) /\
    templates st' = templates st.
Proof.
  intros Htruthy Hget. rewrite (use_template_creates w id template st Htruthy Hget).
  eexists. split; [reflexivity|]. cbn [createWorkflow fst snd wr_name wr_description
    wr_steps wr_executionMode wr_browserConfig wr_id].
  do 6 (split; [reflexivity|]). cbn zeta. split; [|done].
  cbn [handle]. unfold getWorkflow, createWorkflow. cbn [fst snd workflows wr_id].
  by rewrite Map_get_set_eq.
Qed.


(** ** The CSV export of what the executor aggregated *)

(** The line of one entry of [results]. *)
Definition entry_line (e : Executor.Entry) : string :=
  join "," [quote +:+ escape_quotes (Executor.step e) +:+ quote;
            quote +:+ escape_quotes (js_to_string (Executor.result e)) +:+ quote].

Lemma entry_cells w e :
  csv_cells w (Executor.entry_value e) ["step"; "result"]
  = inl [quote +:+ escape_quotes (Executor.step e) +:+ quote;
         quote +:+ escape_quotes (js_to_string (Executor.result e)) +:+ quote].
Proof. done. Qed.

Lemma entry_lines w entries :
  csv_lines w ["step"; "result"] (map Executor.entry_value entries)
  = inl (map entry_line entries).
Proof.
  induction entries as [|e entries IH]; [done|].
  cbn [map csv_lines]. rewrite entry_cells, IH. done.
Qed.

Lemma csv_export_entries w e entries :
  csv_export w (JArr (map Executor.entry_value (e :: entries)))
  = inl (mkResponse 200
           (text_csv (join line_feed ("step,result" :: map entry_line (e :: entries))))).
Proof.
  pose proof (entry_lines w (e :: entries)) as Hlines.
  unfold csv_export. cbn [map] in *. cbn [Object_keys Executor.entry_value map fst] in *.
  rewrite Hlines. done.
Qed.

(** X24: the CSV export of what the executor aggregated.  With two
    entries or more the export answers 200 with the header line
    [step,result] and one line per entry, in order, holding the step
    identifier and the result as [String] prints it, each between
    double quotes with the inner double quotes doubled.  With no entry
    it answers 400 [No data to export]; and with exactly one entry the
    export sees the bare value, so it answers 400 [Results must be an
    array for CSV export] unless that value is itself an array. *)
Theorem csv_export_of_aggregated_results (w : World) (entries : list Executor.Entry) :
  match entries with
  | [] =>
      csv_export w (Executor.unwrap entries)
      = inl (mkResponse 400 (json_error "No data to export"))
  | [only] =>
      csv_export w (Executor.unwrap entries) = csv_export w (Executor.result only) /\
      ((forall items, Executor.result only <> JArr items) ->
       csv_export w (Executor.unwrap entries)
       = inl (mkResponse 400 (json_error "Results must be an array for CSV export")))
  | _ =>
      csv_export w (Executor.unwrap entries)
      = inl (mkResponse 200
               (text_csv (join line_feed ("step,result" :: map entry_line entries))))
  end.
Proof.
  destruct entries as [|e1 [|e2 rest]].
  - done.
  - split; [done|]. cbn [Executor.unwrap]. intros Hna.
    destruct (Executor.result e1) as [| | | | |items|]; try done. by destruct (Hna items).
  - apply (csv_export_entries w e1 (e2 :: rest)).
Qed.

(** ** Concrete requests *)

Definition office : World :=
  {| store_world := counting;
     toLowerCase := fun s => s;
     insertWorkflowSchema_parse := fun _ => inr (JArr []);
     inherited_text := fun _ _ => None |}.

Lemma failed_request_leaves_the_store_as_it_was_witness :
  400 <= status_code (handle office (GET_workflow "nowhere") (constructor counting)).2 /\
  (handle office (GET_workflow "nowhere") (constructor counting)).1 = constructor counting.
Proof.
  split; [by vm_compute|].
  apply (failed_request_leaves_the_store_as_it_was office (GET_workflow "nowhere")
           (constructor counting)).
  by vm_compute.
Defined.

Lemma workflow_made_from_a_template_witness :
  truthy (JStr "id-1") = true /\
  exists template workflow,
    getTemplate "id-1" (constructor counting) = Some template /\
    (handle office (POST_templates_use (JStr "id-1")) (constructor counting)).2
      = mkResponse 201 (json_workflow workflow) /\
    wr_executionMode workflow = sequential.
Proof.
  split; [reflexivity|]. eexists.
  destruct (workflow_made_from_a_template office "id-1" _ (constructor counting)
              eq_refl eq_refl)
    as (workflow & Hresponse & _ & _ & _ & Hmode & _).
  exists workflow. split; [reflexivity|]. split; [exact Hresponse|exact Hmode].
Defined.


End ApiFacts.

(* ================================================================== *)
(** * From a template to a run                                          *)
(* ================================================================== *)

Module Studio.
Import Storage MemStorage MemStorageFacts Api ApiFacts.

#[local] Arguments String.append : simpl never.
#[local] Arguments pretty : simpl never.

(** Every extract step of a built-in template carries its schema as a
    text, none of them empty. *)
Lemma builtin_extract_step (uuid : nat -> string) (template : Template) :
  template ∈ builtin_templates uuid ->
  Exists (fun st => type st = extract) (default [] (tpl_steps template)) ->
  exists k st text,
    default [] (tpl_steps template) !! k = Some st /\
    type st = extract /\
    assoc "schema" (config st) = JStr text /\
    truthy (JStr text) = true.
Proof.
  unfold builtin_templates. intros Hin Hextract.
  repeat (apply elem_of_cons in Hin as [->|Hin]);
    [ .. | by apply elem_of_nil in Hin ];
    cbn in Hextract |- *;
    first [ by (exists 1%nat; eexists _, _)
          | by (exists 2%nat; eexists _, _)
          | idtac ].
  repeat (apply Exists_cons in Hextract as [Hextract|Hextract]; [discriminate Hextract|]).
  by apply Exists_nil in Hextract.
Qed.

(** X26: a built-in template with an extract step cannot be run to
    success as it stands.  The schema of that step is written as a type
    ([{ name: string, ... }[]]), a text that is not JSON; the workflow
    that [POST /api/templates/use] makes of the template is sequential
    and keeps the step; so in every world whose [JSON.parse] rejects the
    schema texts of the template, whatever the browser and the gateway
    do, its run resolves with [results = null], which the handler
    records as [failed]. *)
Theorem template_with_an_extract_step_cannot_succeed
    (aw : Api.World) (ew : Executor.World) (uuid : nat -> string)
    (id executionId : string) (schedule : list nat) (template : Template) (st : Store) :
  template ∈ builtin_templates uuid ->
  Exists (fun step => type step = extract) (default [] (tpl_steps template)) ->
  truthy (JStr id) = true ->
  getTemplate id st = Some template ->
  (forall step text,
     step ∈ default [] (tpl_steps template) ->
     assoc "schema" (config step) = JStr text ->
     exists e, Executor.JSON_parse ew text = inr e) ->
  exists workflow s' rec,
    (handle aw (POST_templates_use (JStr id)) st).2
      = mkResponse 201 (json_workflow workflow) /\
    Executor.execute ew executionId schedule (workflow_of workflow) Executor.fresh
      = (s', inl rec) /\
    Executor.res_results rec = JNull /\
    (forall completedAt stored,
       st_status (spread stored (Routes.final_update rec completedAt)) = failed).
Proof.
  intros Hin Hextract Htruthy Hget Hrejects.
  destruct (builtin_extract_step uuid template Hin Hextract)
    as (k & step & text & Hk & Htype & Hschema & Htext).
  destruct (Hrejects step text) as [e He]; [by eapply list_elem_of_lookup_2|done|].
  rewrite (use_template_creates aw id template st Htruthy Hget). cbn zeta.
  set (workflow := (createWorkflow _ _ st).2).
  destruct (Runs.rejected_schema_run ew executionId schedule (workflow_of workflow)
              k step text e) as (s' & rec & Hrun & Hres); try done.
  exists workflow, s', rec. split; [done|]. split; [done|]. split; [done|].
  intros completedAt stored. unfold Routes.final_update. by rewrite Hres.
Qed.

(** The first of the built-in templates, in the store of [counting]. *)
Definition scraper : Template :=
  default (mkTemplate "" "" "" ecommerce "" [] None None)
          (head (builtin_templates (randomUUID counting))).

Lemma template_with_an_extract_step_cannot_succeed_witness :
  scraper ∈ builtin_templates (randomUUID counting) /\
  Exists (fun step => type step = extract) (default [] (tpl_steps scraper)) /\
  truthy (JStr "id-1") = true /\
  getTemplate "id-1" (constructor counting) = Some scraper /\
  (forall step text,
     step ∈ default [] (tpl_steps scraper) ->
     assoc "schema" (config step) = JStr text ->
     exists e, Executor.JSON_parse Runs.obliging text = inr e) /\
  exists workflow s' rec,
    (handle office (POST_templates_use (JStr "id-1")) (constructor counting)).2
      = mkResponse 201 (json_workflow workflow) /\
    Executor.execute Runs.obliging "run" [] (workflow_of workflow) Executor.fresh
      = (s', inl rec) /\
    Executor.res_results rec = JNull.
Proof.
  assert (Hin : scraper ∈ builtin_templates (randomUUID counting))
    by (apply elem_of_cons; by left).
  assert (Hextract : Exists (fun step : AutomationStep => type step = extract)
                            (default [] (tpl_steps scraper)))
    by (apply Exists_cons; right; apply Exists_cons; by left).
  assert (Hrejects : forall (step : AutomationStep) (text : string),
            step ∈ default [] (tpl_steps scraper) ->
            assoc "schema" (config step) = JStr text ->
            exists e, Executor.JSON_parse Runs.obliging text = inr e)
    by (intros; by eexists).
  split; [exact Hin|]. split; [exact Hextract|]. split; [reflexivity|].
  split; [reflexivity|]. split; [exact Hrejects|].
  destruct (template_with_an_extract_step_cannot_succeed office Runs.obliging
              (randomUUID counting) "id-1" "run" [] scraper (constructor counting)
              Hin Hextract eq_refl eq_refl Hrejects)
    as (workflow & s' & rec & Hresponse & Hrun & Hres & _).
  by exists workflow, s', rec.
Defined.

End Studio.
